(** * The memoizing [cache] decorators of [06_decorator]

    Two decorators named [cache] live in the repository:

    - [06_decorator/03_decorator.py]: a [wrapper] taking positional
      arguments only, whose dictionary is keyed by the tuple of positional
      arguments itself;
    - [06_decorator/decorator.py]: a [wrapper] taking positional and keyword
      arguments, whose dictionary is keyed by the string
      [str(args) + str(sorted(kwargs.items()))], and which exposes the
      dictionary as [wrapper.cache].

    Both are embedded below as state-passing functions over the closure's
    dictionary [cache_value].  Printing and [time.sleep] are left out: no
    property stated here depends on the text written to the terminal or on
    the time a call takes.

    After the caches come the decorators of [decorator.py] that decide
    whether, and how often, the wrapped function runs: [login_required],
    [admin_required], [validate_positive], [rate_limit] and [retry], with
    [log_calls] between them, and the two account functions they guard,
    [transfer_money] and [view_all_accounts].  What [time.time()] reads
    is left abstract there, and [time.sleep] is kept as far as it can
    raise. *)

From Stdlib Require Import Ascii String.
From stdpp Require Import base decidable option list sorting strings pretty gmap.
From Equations Require Import Equations.

Open Scope string_scope.
Set Warnings "-register-all".

(** ** The fragment of Python the decorators touch *)

Module Py.

(** Exceptions, by class.  [OtherError] stands for any exception the wrapped
    function raises itself ([raise Exception("...")]). *)
Inductive exn : Type :=
| TypeError
| RecursionError
| OtherError (msg : string).

(** The result of evaluating a call: a value, or a raised exception. *)
Inductive outcome (A : Type) : Type :=
| Return (a : A)
| Raise (e : exn).
Arguments Return {A} a.
Arguments Raise {A} e.

Definition outcome_bind {A B} (o : outcome A) (k : A → outcome B) : outcome B :=
  match o with
  | Return a => k a
  | Raise e => Raise e
  end.

(** Python values.  Strings are sequences of code points below 256.
    Floats, dicts and sets are not part of the fragment.  [VObj oid text] is
    an instance of a user class that defines [__repr__] (returning [text])
    and inherits [__eq__] and [__hash__] from [object]: it is equal only to
    itself, and hashable. *)
Inductive pyval : Type :=
| VNone
| VBool (b : bool)
| VInt (z : Z)
| VStr (s : string)
| VTuple (items : list pyval)
| VList (items : list pyval)
| VObj (oid : positive) (text : string).

(** The positional arguments are a tuple, the keyword arguments a dict
    in insertion order whose names are pairwise different. *)
Abbreviation arguments := (list pyval).
Abbreviation keywords := (list (string * pyval)).

Definition names (kwargs : keywords) : list string := kwargs.*1.

(** *** [hash(v)]: which values can be dictionary keys *)

Fixpoint hashable (v : pyval) : bool :=
  match v with
  | VNone | VBool _ | VInt _ | VStr _ | VObj _ _ => true
  | VTuple items => forallb hashable items
  | VList _ => false
  end.

(** *** [a == b]

    [bool] is a subclass of [int]: [True == 1] and [False == 0], also
    inside tuples and lists.  [canon] maps each value to the representative
    of its equality class, and two values are equal when their
    representatives coincide. *)

Fixpoint canon (v : pyval) : pyval :=
  match v with
  | VBool b => VInt (Z.b2z b)
  | VTuple items => VTuple (map canon items)
  | VList items => VList (map canon items)
  | _ => v
  end.

Fixpoint same (a b : pyval) {struct a} : bool :=
  match a, b with
  | VNone, VNone => true
  | VBool x, VBool y => bool_decide (x = y)
  | VInt x, VInt y => bool_decide (x = y)
  | VStr x, VStr y => bool_decide (x = y)
  | VTuple xs, VTuple ys | VList xs, VList ys =>
      (fix go (xs ys : list pyval) {struct xs} : bool :=
         match xs, ys with
         | [], [] => true
         | x :: xs', y :: ys' => same x y && go xs' ys'
         | _, _ => false
         end) xs ys
  | VObj i s, VObj j t => bool_decide (i = j) && bool_decide (s = t)
  | _, _ => false
  end.

Definition py_eq (a b : pyval) : bool := same (canon a) (canon b).

(** Equality of two argument tuples. *)
Definition args_eq (a b : arguments) : bool := py_eq (VTuple a) (VTuple b).

(** *** [repr(v)] and [str(v)] *)

Definition quote : ascii := "'"%char.
Definition dquote : ascii := "034"%char.
Definition backslash : ascii := "\"%char.

Definition hex_digit (n : N) : ascii :=
  if (n <? 10)%N then ascii_of_N (48 + n) else ascii_of_N (87 + n).

(** One character of a string literal, as [unicode_repr] writes it between
    the quotes [q]. *)
Definition repr_char (q : ascii) (c : ascii) : string :=
  let n := N_of_ascii c in
  if bool_decide (c = q) || bool_decide (c = backslash) then String backslash (String c "")
  else if (n =? 9)%N then "\t"
  else if (n =? 10)%N then "\n"
  else if (n =? 13)%N then "\r"
  else if (n <? 32)%N || (n =? 127)%N || ((127 <? n)%N && (n <? 161)%N) || (n =? 173)%N
    then String backslash (String "x" (String (hex_digit (n / 16)) (String (hex_digit (n mod 16)) "")))
  else String c "".

Fixpoint contains (c : ascii) (s : string) : bool :=
  match s with
  | "" => false
  | String d s' => bool_decide (c = d) || contains c s'
  end.

Fixpoint repr_chars (q : ascii) (s : string) : string :=
  match s with
  | "" => ""
  | String c s' => repr_char q c +:+ repr_chars q s'
  end.

(** [repr] of a [str]: single quotes, unless the text holds a single quote
    and no double quote. *)
Definition repr_str (s : string) : string :=
  let q := if contains quote s && negb (contains dquote s) then dquote else quote in
  String q (repr_chars q s) +:+ String q "".

Definition repr_int (z : Z) : string := pretty z.

Fixpoint join (sep : string) (parts : list string) : string :=
  match parts with
  | [] => ""
  | [p] => p
  | p :: rest => p +:+ sep +:+ join sep rest
  end.

Fixpoint repr (v : pyval) : string :=
  match v with
  | VNone => "None"
  | VBool b => if b then "True" else "False"
  | VInt z => repr_int z
  | VStr s => repr_str s
  | VTuple items =>
      match items with
      | [x] => "(" +:+ repr x +:+ ",)"
      | _ => "(" +:+ join ", " (map repr items) +:+ ")"
      end
  | VList items => "[" +:+ join ", " (map repr items) +:+ "]"
  | VObj _ text => text
  end.

(** [str(v)] is [repr(v)] except on a [str], which is its own text. *)
Definition str (v : pyval) : string :=
  match v with
  | VStr s => s
  | _ => repr v
  end.

(** *** [sorted(kwargs.items())]

    The items are [(name, value)] tuples.  Tuples compare by their first
    differing component, and the names of one dict differ pairwise, so
    the order of two items is the order of their names: [str] compares
    code point by code point. *)

Definition item_le (x y : string * pyval) : Prop := String.le x.1 y.1.

Global Instance item_le_dec : RelDecision item_le.
Proof. intros x y. unfold item_le. apply _. Defined.

Definition sorted (items : keywords) : keywords := merge_sort item_le items.

Definition item_tuple (kv : string * pyval) : pyval := VTuple [VStr kv.1; kv.2].

(** *** Operators used by the decorated functions *)

Definition as_int (v : pyval) : option Z :=
  match v with
  | VInt z => Some z
  | VBool b => Some (Z.b2z b)
  | _ => None
  end.

(** [v <= k] for an [int] literal [k]. *)
Definition py_le_int (v : pyval) (k : Z) : outcome bool :=
  match as_int v with
  | Some z => Return (bool_decide (z ≤ k)%Z)
  | None => Raise TypeError
  end.

(** [v - k] for an [int] literal [k]. *)
Definition py_sub_int (v : pyval) (k : Z) : outcome pyval :=
  match as_int v with
  | Some z => Return (VInt (z - k))
  | None => Raise TypeError
  end.

(** [a + b]. *)
Definition py_add (a b : pyval) : outcome pyval :=
  match as_int a, as_int b with
  | Some x, Some y => Return (VInt (x + y))
  | _, _ =>
      match a, b with
      | VStr s, VStr t => Return (VStr (s +:+ t))
      | VTuple xs, VTuple ys => Return (VTuple (xs ++ ys))
      | VList xs, VList ys => Return (VList (xs ++ ys))
      | _, _ => Raise TypeError
      end
  end.

(** *** Binding a call to the parameters of a [def]

    [params] lists the parameters in order, each with its default if it
    has one.  Positional arguments fill the parameters from the left;
    each keyword fills the parameter of that name; what stays empty takes
    its default.  Too many positional arguments, an unknown keyword, a
    parameter given twice or a parameter left without value raise
    [TypeError]. *)

Abbreviation parameters := (list (string * option pyval)).

Fixpoint bind_positional (params : parameters) (args : arguments)
  : outcome (list (string * option pyval)) :=
  match params, args with
  | _, [] => Return (map (λ p, (p.1, None)) params)
  | [], _ :: _ => Raise TypeError
  | p :: params', a :: args' =>
      outcome_bind (bind_positional params' args')
        (λ slots, Return ((p.1, Some a) :: slots))
  end.

Fixpoint bind_keyword (slots : list (string * option pyval)) (name : string) (v : pyval)
  : outcome (list (string * option pyval)) :=
  match slots with
  | [] => Raise TypeError
  | (n, filled) :: slots' =>
      if bool_decide (n = name) then
        match filled with
        | Some _ => Raise TypeError
        | None => Return ((n, Some v) :: slots')
        end
      else
        outcome_bind (bind_keyword slots' name v)
          (λ slots'', Return ((n, filled) :: slots''))
  end.

Fixpoint bind_keywords (slots : list (string * option pyval)) (kwargs : keywords)
  : outcome (list (string * option pyval)) :=
  match kwargs with
  | [] => Return slots
  | (name, v) :: kwargs' =>
      outcome_bind (bind_keyword slots name v) (λ slots', bind_keywords slots' kwargs')
  end.

Fixpoint bind_defaults (params : parameters) (slots : list (string * option pyval))
  : outcome (list pyval) :=
  match params, slots with
  | [], [] => Return []
  | p :: params', (_, filled) :: slots' =>
      match (match filled with Some v => Some v | None => p.2 end) with
      | Some v => outcome_bind (bind_defaults params' slots') (λ vs, Return (v :: vs))
      | None => Raise TypeError
      end
  | _, _ => Raise TypeError
  end.

Definition bind_params (params : parameters) (args : arguments) (kwargs : keywords)
  : outcome (list pyval) :=
  outcome_bind (bind_positional params args) (λ slots,
  outcome_bind (bind_keywords slots kwargs) (λ slots',
  bind_defaults params slots')).

End Py.

Import Py.

(** ** Reading a value back from its text

    What the proofs about [repr] are stated with: which values are
    written without calling user code, and how a text is cut into the
    pieces [repr] wrote. *)

Module Text.

(** Values built from [None], [bool], [int], [str], tuples and lists
    alone. *)
Fixpoint plain (v : pyval) : bool :=
  match v with
  | VNone | VBool _ | VInt _ | VStr _ => true
  | VTuple items | VList items => forallb plain items
  | VObj _ _ => false
  end.

Definition digit (c : ascii) : bool :=
  (48 <=? N_of_ascii c)%N && (N_of_ascii c <=? 57)%N.

Fixpoint all_digits (s : string) : bool :=
  match s with
  | "" => true
  | String c s' => digit c && all_digits s'
  end.

(** A text after which the digits of an integer cannot go on. *)
Definition stops (r : string) : bool :=
  match r with
  | "" => true
  | String c _ => negb (digit c)
  end.

Fixpoint starts_with (p s : string) : bool :=
  match p, s with
  | "", _ => true
  | String c p', String d s' => bool_decide (c = d) && starts_with p' s'
  | String _ _, "" => false
  end.

Definition all_ascii : list ascii := ascii_of_nat <$> seq 0 256.

(** No character's text begins another's, between quotes [q]. *)
Definition tokens_prefix_free (q : ascii) : bool :=
  forallb (λ c1,
    forallb (λ c2,
      bool_decide (c1 = c2) || negb (starts_with (repr_char q c1) (repr_char q c2)))
      all_ascii) all_ascii.

(** No character's text is empty or begins with the quote [q]. *)
Definition tokens_avoid_quote (q : ascii) : bool :=
  forallb (λ c,
    match repr_char q c with
    | "" => false
    | String d _ => negb (bool_decide (d = q))
    end) all_ascii.

(** The first character of a text tells what kind of value it writes. *)
Definition kind (v : pyval) : nat :=
  match v with
  | VNone => 0 | VBool _ => 1 | VInt _ => 2 | VStr _ => 3
  | VTuple _ => 4 | VList _ => 5 | VObj _ _ => 6
  end.

Definition char_kind (c : ascii) : nat :=
  if digit c || bool_decide (c = "-"%char) then 2
  else if bool_decide (c = "N"%char) then 0
  else if bool_decide (c = "T"%char) || bool_decide (c = "F"%char) then 1
  else if bool_decide (c = quote) || bool_decide (c = dquote) then 3
  else if bool_decide (c = "("%char) then 4
  else if bool_decide (c = "["%char) then 5
  else 7.

(** What may follow the elements of a tuple or list: not the start of a
    value, not a digit, not the separator. *)
Definition closing (e : string) : bool :=
  match e with
  | "" => false
  | String k _ =>
      bool_decide (char_kind k = 7) && negb (digit k) && negb (starts_with ", " e)
  end.

(** What follows the first element in the text of a sequence. *)
Definition rest_text (items : list pyval) : string :=
  match items with
  | [] => ""
  | _ :: _ => ", " +:+ join ", " (repr <$> items)
  end.

(** A call all of whose argument values are plain. *)
Definition plain_call (args : arguments) (kwargs : keywords) : bool :=
  forallb plain args && forallb (λ kv, plain kv.2) kwargs.

(** [v1] is the only plain value whose text can stand where [v1]'s
    stands. *)
Definition determined (v1 : pyval) : Prop :=
  ∀ v2 r1 r2,
    plain v2 = true → stops r1 = true → stops r2 = true →
    repr v1 +:+ r1 = repr v2 +:+ r2 → v1 = v2 ∧ r1 = r2.

End Text.

(** ** [06_decorator/decorator.py]: the cache keyed by a string *)

Module Decorator.

Section closure.
(** Whatever the wrapped function reads or changes outside its
    arguments (a random generator, a file, a counter).  A pure function
    ignores it. *)
Context {W : Type}.

(** The closure of one decorated function: the dictionary [cache_value],
    and the world the wrapped function runs in.  [invoked] is a ghost
    log: the arguments of every call [func(args, kwargs)] made by the
    wrapper, oldest first. *)
Record store : Type := Store {
  cache_value : gmap string pyval;
  invoked : list (arguments * keywords);
  world : W
}.

Definition set_cache (d : gmap string pyval) (s : store) : store :=
  {| cache_value := d; invoked := invoked s; world := world s |}.
Definition set_world (w : W) (s : store) : store :=
  {| cache_value := cache_value s; invoked := invoked s; world := w |}.
Definition record_call (args : arguments) (kwargs : keywords) (s : store) : store :=
  {| cache_value := cache_value s;
     invoked := invoked s ++ [(args, kwargs)];
     world := world s |}.

(** A callable, run in the closure. *)
Definition computation : Type :=
  arguments → keywords → store → outcome pyval * store.

(** A function that knows nothing of the cache: it sees and changes the
    world only. *)
Definition external (f : arguments → keywords → W → outcome pyval * W) : computation :=
  λ args kwargs s,
    let '(o, w) := f args kwargs (world s) in (o, set_world w s).

(** [key = str(args) + str(sorted(kwargs.items()))] *)
Definition cache_key (args : arguments) (kwargs : keywords) : string :=
  str (VTuple args) +:+ str (VList (item_tuple <$> sorted kwargs)).

(** [wrapper], lines 77 to 88. *)
Definition wrapper (func : computation) : computation :=
  λ args kwargs s,
    let key := cache_key args kwargs in
    match cache_value s !! key with
    | Some cached => (Return cached, s)
    | None =>
        match func args kwargs (record_call args kwargs s) with
        | (Return result, s1) =>
            (Return result, set_cache (<[key := result]> (cache_value s1)) s1)
        | (Raise e, s1) => (Raise e, s1)
        end
    end.

(** [cache(func)]: a new empty dictionary, and the wrapper closed over
    it.  [w] is the world at decoration time. *)
Definition fresh (w : W) : store :=
  {| cache_value := ∅; invoked := []; world := w |}.
Definition cache (func : computation) (w : W) : computation * store :=
  (wrapper func, fresh w).

(** Line 91 binds [wrapper.cache] to the very dictionary the wrapper
    reads, so the caller sees its entries, and [wrapper.cache.clear()]
    empties the wrapper's own dictionary. *)
Definition inspect (s : store) : gmap string pyval := cache_value s.
Definition clear (s : store) : store := set_cache ∅ s.

(** Two closures a caller cannot tell apart: same dictionary, same world.
    Only the ghost log may differ. *)
Definition alike (s t : store) : Prop :=
  cache_value s = cache_value t ∧ world s = world t.

(** A sequence of calls, one after the other; the outcomes in order. *)
Fixpoint run (func : computation) (calls : list (arguments * keywords)) (s : store)
  : list (outcome pyval) * store :=
  match calls with
  | [] => ([], s)
  | (args, kwargs) :: calls' =>
      let '(o, s1) := wrapper func args kwargs s in
      let '(os, s2) := run func calls' s1 in
      (o :: os, s2)
  end.

(** *** Sequencing inside a function body *)

Definition M (A : Type) : Type := store → outcome A * store.

Global Instance M_ret : MRet M := λ A a s, (Return a, s).
Global Instance M_bind : MBind M := λ A B k m s,
  match m s with
  | (Return a, s1) => k a s1
  | (Raise e, s1) => (Raise e, s1)
  end.
Definition lift {A} (o : outcome A) : M A := λ s, (o, s).

End closure.
Arguments store : clear implicits.
Arguments computation : clear implicits.
Arguments M : clear implicits.

(** *** The decorated functions of the file *)

(** [fibonacci], lines 106 to 111.  The name [fibonacci] in the body is
    the module's global, which the decorator has bound to the wrapper:
    [self] is that callable. *)
Definition fibonacci_body (self : computation unit) : computation unit :=
  λ args kwargs,
    vs ← lift (bind_params [("n", None)] args kwargs);
    match vs with
    | [n] =>
        small ← lift (py_le_int n 1);
        if small : bool then mret n
        else
          n1 ← lift (py_sub_int n 1);
          a ← self [n1] [];
          n2 ← lift (py_sub_int n 2);
          b ← self [n2] [];
          lift (py_add a b)
    | _ => lift (Raise TypeError)
    end.

(** [fibonacci = cache(fibonacci)].  [depth] bounds how deep calls may
    nest; the interpreter raises [RecursionError] beyond its limit. *)
Fixpoint fibonacci (depth : nat) : computation unit :=
  match depth with
  | O => λ _ _, lift (Raise RecursionError)
  | S depth' => wrapper (fibonacci_body (fibonacci depth'))
  end.

(** Earlier calls of [fibonacci], each with the room it had and its
    arguments, whatever they were; what they leave in the closure. *)
Fixpoint fibonacci_calls (history : list (nat * arguments * keywords))
    (s : store unit) : store unit :=
  match history with
  | [] => s
  | (depth, args, kwargs) :: history' =>
      fibonacci_calls history' (fibonacci depth args kwargs s).2
  end.

(** The function as written, without the decorator: the name in the body
    is then the function itself. *)
Fixpoint fibonacci_undecorated (depth : nat) : computation unit :=
  match depth with
  | O => λ _ _, lift (Raise RecursionError)
  | S depth' => fibonacci_body (fibonacci_undecorated depth')
  end.

(** [process_large_file], lines 304 to 310; its [timer] and [log_calls]
    wrappers only print around the call. *)
Definition process_large_file (args : arguments) (kwargs : keywords) (w : unit)
  : outcome pyval * unit :=
  (outcome_bind
     (bind_params [("filename", None); ("operation", Some (VStr "read"))] args kwargs)
     (λ vs,
        match vs with
        | [filename; operation] =>
            Return (VStr ("Processed " +:+ str filename +:+ " with "
                          +:+ str operation +:+ " operation"))
        | _ => Raise TypeError
        end), w).

End Decorator.

(** ** [06_decorator/03_decorator.py]: the cache keyed by the argument tuple *)

Module Decorator03.

(** A [dict] whose keys are argument tuples, in insertion order.  A key
    is found by hash and [==]; equal keys have equal hashes. *)
Abbreviation dict := (list (arguments * pyval)).

(** [d.get(key)]: [None] when [key not in d]. *)
Fixpoint dict_get (key : arguments) (d : dict) : option pyval :=
  match d with
  | [] => None
  | (k, v) :: d' => if args_eq k key then Some v else dict_get key d'
  end.

(** [d[key] = v]: an equal key keeps its place (and the key object first
    inserted); a new key goes last. *)
Fixpoint dict_set (key : arguments) (v : pyval) (d : dict) : dict :=
  match d with
  | [] => [(key, v)]
  | (k, v') :: d' =>
      if args_eq k key then (k, v) :: d' else (k, v') :: dict_set key v d'
  end.

(** Entries of [d] are entries of [d'], unchanged. *)
Definition dict_included (d d' : dict) : Prop :=
  ∀ key v, dict_get key d = Some v → dict_get key d' = Some v.

Section closure.
Context {W : Type}.

Record store : Type := Store {
  cache_value : dict;
  invoked : list arguments;
  world : W
}.

Definition set_cache (d : dict) (s : store) : store :=
  {| cache_value := d; invoked := invoked s; world := world s |}.
Definition set_world (w : W) (s : store) : store :=
  {| cache_value := cache_value s; invoked := invoked s; world := w |}.
Definition record_call (args : arguments) (s : store) : store :=
  {| cache_value := cache_value s; invoked := invoked s ++ [args]; world := world s |}.

Definition computation : Type :=
  arguments → keywords → store → outcome pyval * store.

Definition external (f : arguments → keywords → W → outcome pyval * W) : computation :=
  λ args kwargs s,
    let '(o, w) := f args kwargs (world s) in (o, set_world w s).

(** The body of [wrapper], lines 9 to 15.  The test [args in cache_value]
    hashes [args] first, which raises [TypeError] on an unhashable
    element; the wrapped function is called with the positional
    arguments alone. *)
Definition wrapper_body (func : computation) (args : arguments) (s : store)
  : outcome pyval * store :=
  if hashable (VTuple args) then
    match dict_get args (cache_value s) with
    | Some cached => (Return cached, s)
    | None =>
        match func args [] (record_call args s) with
        | (Return result, s1) =>
            (Return result, set_cache (dict_set args result (cache_value s1)) s1)
        | (Raise e, s1) => (Raise e, s1)
        end
    end
  else (Raise TypeError, s).

(** A call of [wrapper]: its only parameter collects positional
    arguments, so any keyword argument is a [TypeError] before the
    body runs. *)
Definition wrapper (func : computation) : computation :=
  λ args kwargs s,
    match kwargs with
    | [] => wrapper_body func args s
    | _ :: _ => (Raise TypeError, s)
    end.

Definition fresh (w : W) : store :=
  {| cache_value := []; invoked := []; world := w |}.
Definition cache (func : computation) (w : W) : computation * store :=
  (wrapper func, fresh w).

Fixpoint run (func : computation) (calls : list (arguments * keywords)) (s : store)
  : list (outcome pyval) * store :=
  match calls with
  | [] => ([], s)
  | (args, kwargs) :: calls' =>
      let '(o, s1) := wrapper func args kwargs s in
      let '(os, s2) := run func calls' s1 in
      (o :: os, s2)
  end.

End closure.
Arguments store : clear implicits.
Arguments computation : clear implicits.

(** [long_running_function], lines 20 to 23. *)
Definition long_running_function (args : arguments) (kwargs : keywords) (w : unit)
  : outcome pyval * unit :=
  (outcome_bind (bind_params [("a", None); ("b", None)] args kwargs)
     (λ vs,
        match vs with
        | [a; b] => py_add a b
        | _ => Raise TypeError
        end), w).

End Decorator03.

(** ** Several callers at once

    [decorator.py]'s wrapper takes no lock.  A thread that runs it is, at
    any time, before one of its three accesses to what the threads share:
    the test [key in cache_value], the call of the wrapped function, the
    assignment [cache_value[key] = result].  A dictionary access is not
    interrupted by another thread's; the wrapped function, however long it
    takes, does not touch the dictionary, so for the dictionary its run is
    one step; and the interpreter may switch threads between any two
    steps. *)

Module Threads.
Import Decorator.

Section threads.
Context {W : Type}.
Variable f : arguments → keywords → W → outcome pyval * W.

Inductive pc : Type :=
| AtTest
| AtCall
| AtStore (result : pyval)
| Done (o : outcome pyval).

Record thread : Type := Thread {
  th_args : arguments;
  th_kwargs : keywords;
  th_pc : pc
}.

Definition at_pc (t : thread) (p : pc) : thread :=
  {| th_args := th_args t; th_kwargs := th_kwargs t; th_pc := p |}.

(** One access of thread [t] to the shared closure. *)
Definition step_thread (t : thread) (s : store W) : thread * store W :=
  let key := cache_key (th_args t) (th_kwargs t) in
  match th_pc t with
  | AtTest =>
      match cache_value s !! key with
      | Some cached => (at_pc t (Done (Return cached)), s)
      | None => (at_pc t AtCall, s)
      end
  | AtCall =>
      match external f (th_args t) (th_kwargs t)
              (record_call (th_args t) (th_kwargs t) s) with
      | (Return result, s1) => (at_pc t (AtStore result), s1)
      | (Raise e, s1) => (at_pc t (Done (Raise e)), s1)
      end
  | AtStore result =>
      (at_pc t (Done (Return result)),
       set_cache (<[key := result]> (cache_value s)) s)
  | Done _ => (t, s)
  end.

Definition config : Type := list thread * store W.

(** The scheduler lets thread [i] make its next access. *)
Definition step (i : nat) (c : config) : config :=
  match c.1 !! i with
  | Some t => let '(t', s') := step_thread t c.2 in (<[i := t']> c.1, s')
  | None => c
  end.

Fixpoint run_schedule (schedule : list nat) (c : config) : config :=
  match schedule with
  | [] => c
  | i :: schedule' => run_schedule schedule' (step i c)
  end.

(** [n] callers, all about to call the wrapper with the same arguments. *)
Definition spawn (n : nat) (args : arguments) (kwargs : keywords) : list thread :=
  replicate n {| th_args := args; th_kwargs := kwargs; th_pc := AtTest |}.

Definition finished (t : thread) : Prop :=
  match th_pc t with Done _ => True | _ => False end.

(** How many times the wrapped function ran between two states. *)
Definition invocations (s s' : store W) : nat :=
  length (invoked s') - length (invoked s).

(** Whether a thread may still call the wrapped function. *)
Definition may_call (t : thread) : nat :=
  match th_pc t with
  | AtTest | AtCall => 1
  | AtStore _ | Done _ => 0
  end.

Definition pending (ts : list thread) : nat := sum_list (may_call <$> ts).

Definition waiting (t : thread) : Prop := th_pc t = AtTest ∨ th_pc t = AtCall.

(** Where a caller can be, when all call with [args], [kwargs] and the
    function returns [r] for them. *)
Definition caller (args : arguments) (kwargs : keywords) (r : pyval) (t : thread) : Prop :=
  th_args t = args ∧ th_kwargs t = kwargs
  ∧ (th_pc t = AtTest ∨ th_pc t = AtCall
     ∨ th_pc t = AtStore r ∨ th_pc t = Done (Return r)).

(** What every interleaving of [n] such callers preserves, from the
    closure [s0] on: the threads are callers, the key holds nothing or [r],
    each invocation used up one thread's chance to call, and as long as
    nobody has called, nobody has got past the call and nothing is stored. *)
Definition invariant (args : arguments) (kwargs : keywords) (r : pyval)
    (n : nat) (s0 : store W) (c : config) : Prop :=
  length c.1 = n
  ∧ Forall (caller args kwargs r) c.1
  ∧ (cache_value c.2 !! cache_key args kwargs = None
     ∨ cache_value c.2 !! cache_key args kwargs = Some r)
  ∧ ∃ calls : nat,
      length (invoked c.2) = (length (invoked s0) + calls)%nat
      ∧ (calls + pending c.1 ≤ n)%nat
      ∧ (calls = 0%nat →
         Forall waiting c.1 ∧ cache_value c.2 !! cache_key args kwargs = None).

(** Whether a thread is between its test and its call. *)
Definition calling (t : thread) : nat :=
  match th_pc t with
  | AtCall => 1
  | _ => 0
  end.

(** The callers that test the dictionary before any caller stores a
    result: along the schedule, the accesses made by a thread that is at
    its test, up to the first access made by a thread that is at its
    store.  A caller tests once, so each is counted once. *)
Fixpoint early_tests (schedule : list nat) (c : config) : nat :=
  match schedule with
  | [] => 0
  | i :: schedule' =>
      match th_pc <$> c.1 !! i with
      | Some AtTest => S (early_tests schedule' (step i c))
      | Some (AtStore _) => 0
      | _ => early_tests schedule' (step i c)
      end
  end.

End threads.
Arguments pc : clear implicits.
Arguments thread : clear implicits.
Arguments config : clear implicits.
Arguments AtTest : clear implicits.
Arguments AtCall : clear implicits.

End Threads.

(** ** The recurrence [fibonacci] is meant to compute *)

(** The function without its cache, read as mathematics:
    [n] when [n <= 1], else the sum of the two values before. *)
Equations? fib_recurrence (n : Z) : Z by wf (Z.to_nat n) lt :=
  fib_recurrence n with decide (n ≤ 1)%Z => {
    | left _ := n;
    | right _ := (fib_recurrence (n - 1) + fib_recurrence (n - 2))%Z }.
Proof. all: lia. Qed.

(** The Fibonacci numbers: 0, 1, 1, 2, 3, 5, ... *)
Fixpoint fib_nat (k : nat) : Z :=
  match k with
  | O => 0
  | S k' =>
      match k' with
      | O => 1
      | S k'' => fib_nat k' + fib_nat k''
      end
  end%Z.

(** What [fibonacci]'s dictionary holds under the key of an integer: the
    value of the recurrence at that integer. *)
Definition fibonacci_sound (s : Decorator.store unit) : Prop :=
  ∀ m v,
    Decorator.cache_value s !! Decorator.cache_key [VInt m] [] = Some v →
    v = VInt (fib_recurrence m).

(** ** Functions to exercise the wrappers *)

(** [def square(n): return n * n], on integers. *)
Definition square (args : arguments) (kwargs : keywords) (w : unit)
  : outcome pyval * unit :=
  (outcome_bind (bind_params [("n", None)] args kwargs)
     (λ vs,
        match vs with
        | [VInt n] => Return (VInt (n * n))
        | _ => Raise TypeError
        end), w).

(** Fails the first time it runs and succeeds afterwards; the world counts
    its runs. *)
Definition flaky (args : arguments) (kwargs : keywords) (runs : nat)
  : outcome pyval * nat :=
  match runs with
  | O => (Raise (OtherError "first call fails"), 1%nat)
  | S _ => (Return (VInt 49), S runs)
  end.

(** [def first(x): return x], for any argument. *)
Definition first (args : arguments) (kwargs : keywords) (w : unit)
  : outcome pyval * unit :=
  (outcome_bind (bind_params [("x", None)] args kwargs)
     (λ vs, match vs with [x] => Return x | _ => Raise TypeError end), w).

(** ** What the caches are compared with *)

(** A function of its arguments alone, run in any world. *)
Definition pure {W : Type} (g : arguments → keywords → outcome pyval)
  : arguments → keywords → W → outcome pyval * W :=
  λ args kwargs w, (g args kwargs, w).

(** What a call of [03_decorator.py]'s wrapper gives when nothing is
    stored wrongly: the wrapped function's own result on hashable
    positional arguments, [TypeError] otherwise. *)
Definition expected03 (g : arguments → keywords → outcome pyval)
    (call : arguments * keywords) : outcome pyval :=
  match call.2 with
  | [] => if hashable (VTuple call.1) then g call.1 [] else Raise TypeError
  | _ :: _ => Raise TypeError
  end.

(** Every entry of [decorator.py]'s dictionary under the key of a plain
    call holds what [g] returns for that call. *)
Definition faithful {W : Type} (g : arguments → keywords → outcome pyval)
    (s : Decorator.store W) : Prop :=
  ∀ a k v,
    Text.plain_call a k = true →
    Decorator.cache_value s !! Decorator.cache_key a k = Some v → g a k = Return v.

(** Every entry of [03_decorator.py]'s dictionary holds what [g] returns
    for its key. *)
Definition faithful03 {W : Type} (g : arguments → keywords → outcome pyval)
    (s : Decorator03.store W) : Prop :=
  ∀ a v, Decorator03.dict_get a (Decorator03.cache_value s) = Some v → g a [] = Return v.

(** [fibonacci]'s dictionary once it has computed the values at 0 to [n],
    and the calls of the body that fill it, in the order they are made. *)
Fixpoint fib_table (n : nat) : gmap string pyval :=
  <[Decorator.cache_key [VInt (Z.of_nat n)] [] := VInt (fib_nat n)]>
    match n with
    | O => ∅
    | S n' => fib_table n'
    end.

Fixpoint countdown (n : nat) : list (arguments * keywords) :=
  ([VInt (Z.of_nat n)], []) ::
    match n with
    | O => []
    | S n' => countdown n'
    end.

(** ** [06_decorator/decorator.py]: the decorators that guard a call *)

Module Guards.

(** What the guarded functions are called with: a value of the fragment,
    or a [dict] with [str] keys, as the user records of the file are.  The
    entries are in insertion order and their keys differ pairwise. *)
Inductive value : Type :=
| Val (v : pyval)
| Dict (entries : keywords).

Abbreviation positional := (list value).
Abbreviation named := (list (string * value)).

(** Exceptions of classes [exn] does not name. *)
Definition AttributeError : exn := OtherError "AttributeError".
Definition ValueError : exn := OtherError "ValueError".

(** [bool(v)], what [not v] negates.  An instance of a class that defines
    neither [__bool__] nor [__len__] is true. *)
Definition truthy (v : pyval) : bool :=
  match v with
  | VNone => false
  | VBool b => b
  | VInt z => negb (bool_decide (z = 0%Z))
  | VStr s => negb (bool_decide (s = ""))
  | VTuple items | VList items => negb (bool_decide (items = []))
  | VObj _ _ => true
  end.

(** [d.get(key, default)] on a dict. *)
Fixpoint get_default (key : string) (default : pyval) (entries : keywords) : pyval :=
  match entries with
  | [] => default
  | (k, v) :: entries' =>
      if bool_decide (k = key) then v else get_default key default entries'
  end.

(** [user.get(key, default)]: no value of the fragment has an attribute
    [get]. *)
Definition get (user : value) (key : string) (default : pyval) : outcome pyval :=
  match user with
  | Dict entries => Return (get_default key default entries)
  | Val _ => Raise AttributeError
  end.

(** [repr] of a dict, and the text an f-string puts for a value. *)
Definition repr_entry (kv : string * pyval) : string :=
  repr_str kv.1 +:+ ": " +:+ repr kv.2.

Definition format (v : value) : string :=
  match v with
  | Val v => str v
  | Dict entries => "{" +:+ join ", " (repr_entry <$> entries) +:+ "}"
  end.

(** The value given to the parameter [name] by keyword. *)
Fixpoint keyword (name : string) (kwargs : named) : option value :=
  match kwargs with
  | [] => None
  | (k, v) :: kwargs' =>
      if bool_decide (k = name) then Some v else keyword name kwargs'
  end.

(** Binding a call to the parameters [params] of a [def], none of which
    has a default: the positional arguments fill them from the left, the
    keywords must then name exactly the parameters left. *)
Definition bind_required (params : list string) (args : positional) (kwargs : named)
  : outcome (list value) :=
  let rest := drop (length args) params in
  if bool_decide (length args ≤ length params)%nat
     && forallb (λ kv, bool_decide (kv.1 ∈ rest)) kwargs
     && forallb (λ p, bool_decide (p ∈ kwargs.*1)) rest
  then Return (args ++ omap (λ p, keyword p kwargs) rest)%list
  else Raise TypeError.

(** Binding a call to [wrapper(user, *args, **kwargs)]: [user] is the
    first positional argument, or else the keyword [user]. *)
Definition bind_user (args : positional) (kwargs : named)
  : outcome (value * positional * named) :=
  match args with
  | user :: args' =>
      if bool_decide ("user" ∈ kwargs.*1) then Raise TypeError
      else Return (user, args', kwargs)
  | [] =>
      match keyword "user" kwargs with
      | Some user => Return (user, [], filter (λ kv, kv.1 ≠ "user") kwargs)
      | None => Raise TypeError
      end
  end.

Section closure.
(** The state a call runs in: the closures of the decorators around the
    function and whatever the function itself reads or changes. *)
Context {State : Type}.

Definition callable : Type := positional → named → State → outcome value * State.

(** A function that reads and changes nothing. *)
Definition stateless (f : positional → named → outcome value) : callable :=
  λ args kwargs s, (f args kwargs, s).

(** [login_required], lines 127 to 143. *)
Definition login_required (func : callable) : callable :=
  λ args kwargs s,
    match bind_user args kwargs with
    | Raise e => (Raise e, s)
    | Return (user, args', kwargs') =>
        match get user "is_logged_in" (VBool false) with
        | Raise e => (Raise e, s)
        | Return flag =>
            if negb (truthy flag)
            then (Return (Val (VStr "Access denied: Authentication required")), s)
            else func (user :: args') kwargs' s
        end
    end.

(** [admin_required], lines 146 to 162. *)
Definition admin_required (func : callable) : callable :=
  λ args kwargs s,
    match bind_user args kwargs with
    | Raise e => (Raise e, s)
    | Return (user, args', kwargs') =>
        match get user "is_admin" (VBool false) with
        | Raise e => (Raise e, s)
        | Return flag =>
            if negb (truthy flag)
            then (Return (Val (VStr "Access denied: Administrative privileges required")), s)
            else func (user :: args') kwargs' s
        end
    end.

(** [log_calls], lines 230 to 248: it prints before and after the call
    and hands the result on; an exception passes through it. *)
Definition log_calls (func : callable) : callable :=
  λ args kwargs s,
    match func args kwargs s with
    | (Return result, s1) => (Return result, s1)
    | (Raise e, s1) => (Raise e, s1)
    end.

(** [isinstance(arg, (int, float)) and arg < 0]: [bool] is a subclass of
    [int]. *)
Definition negative_number (arg : value) : bool :=
  match arg with
  | Val v =>
      match as_int v with
      | Some z => bool_decide (z < 0)%Z
      | None => false
      end
  | Dict _ => false
  end.

(** [validate_positive], lines 251 to 268: the loop runs over the
    positional arguments only. *)
Fixpoint validate (args : positional) : option value :=
  match args with
  | [] => None
  | arg :: args' =>
      if negative_number arg
      then Some (Val (VStr "Validation error: Negative values not allowed"))
      else validate args'
  end.

Definition validate_positive (func : callable) : callable :=
  λ args kwargs s,
    match validate args with
    | Some message => (Return message, s)
    | None => func args kwargs s
    end.

End closure.
Arguments callable : clear implicits.

End Guards.

(** ** [06_decorator/decorator.py]: [rate_limit] *)

Module RateLimit.
Import Guards.

Section closure.
(** [T] stands for the readings of [time.time()], floats in the source,
    and [elapsed_lt now call_time time_window] for the test
    [now - call_time < time_window] on them.  [W] is what the wrapped
    function reads or changes. *)
Context {T W : Type}.
Variable elapsed_lt : T → T → Z → bool.

(** The closure of one limited function: the list [calls], and the world
    of the wrapped function.  [passed] is a ghost log: the reading at
    every call that reached the wrapped function, oldest first. *)
Record store : Type := Store {
  calls : list T;
  passed : list T;
  world : W
}.

Definition set_calls (l : list T) (s : store) : store :=
  {| calls := l; passed := passed s; world := world s |}.
Definition set_world (w : W) (s : store) : store :=
  {| calls := calls s; passed := passed s; world := w |}.
Definition record_passed (now : T) (s : store) : store :=
  {| calls := calls s; passed := (passed s ++ [now])%list; world := world s |}.

(** A function that knows nothing of the limiter. *)
Definition external (f : positional → named → W → outcome value * W) : callable store :=
  λ args kwargs s,
    let '(o, w) := f args kwargs (world s) in (o, set_world w s).

(** [wrapper], lines 180 to 191; [now] is what [time.time()] returns at
    this call. *)
Definition wrapper (max_calls time_window : Z) (func : callable store) (now : T)
  : callable store :=
  λ args kwargs s,
    let live := filter (λ call_time, elapsed_lt now call_time time_window = true) (calls s) in
    if bool_decide (max_calls ≤ Z.of_nat (length live))%Z
    then (Return (Val (VStr "Rate limit exceeded: Too many requests")), set_calls live s)
    else func args kwargs (record_passed now (set_calls (live ++ [now])%list s)).

(** [rate_limit(max_calls, time_window)(func)]: a new empty list, and the
    wrapper closed over it. *)
Definition fresh (w : W) : store :=
  {| calls := []; passed := []; world := w |}.
Definition rate_limit (max_calls time_window : Z) (func : callable store) (w : W)
  : (T → callable store) * store :=
  (wrapper max_calls time_window func, fresh w).

(** Calls one after the other, each at its reading of the clock. *)
Fixpoint run (limited : T → callable store) (trace : list (T * positional * named))
    (s : store) : list (outcome value) * store :=
  match trace with
  | [] => ([], s)
  | (now, args, kwargs) :: trace' =>
      let '(o, s1) := limited now args kwargs s in
      let '(os, s2) := run limited trace' s1 in
      (o :: os, s2)
  end.

(** A recorded time that has left the window stays out of it: along the
    later readings [later], once [call_time] fails the test it fails
    it for good. *)
Fixpoint stays_expired (time_window : Z) (call_time : T) (later : list T) : bool :=
  match later with
  | [] => true
  | now :: later' =>
      if elapsed_lt now call_time time_window
      then stays_expired time_window call_time later'
      else forallb (λ now', negb (elapsed_lt now' call_time time_window)) later'
  end.

(** Readings of a clock, oldest first, each of which stays expired once
    it has expired. *)
Fixpoint coherent (time_window : Z) (readings : list T) : bool :=
  match readings with
  | [] => true
  | call_time :: later =>
      stays_expired time_window call_time later && coherent time_window later
  end.

(** The state between two calls, [later] being the readings still to
    come: the list holds, of the calls passed so far, those that are
    within the window of any later reading. *)
Definition tracks (time_window : Z) (later : list T) (s : store) : Prop :=
  (∀ t, t ∈ calls s → t ∈ passed s)
  ∧ (∀ t, t ∈ passed s → stays_expired time_window t later = true)
  ∧ (∀ u, u ∈ later →
       filter (λ call_time, elapsed_lt u call_time time_window = true) (calls s)
       = filter (λ call_time, elapsed_lt u call_time time_window = true) (passed s)).

(** Readings so close that each is within the window of all that follow. *)
Fixpoint burst (time_window : Z) (readings : list T) : bool :=
  match readings with
  | [] => true
  | call_time :: later =>
      forallb (λ now, elapsed_lt now call_time time_window) later
      && burst time_window later
  end.

End closure.
Arguments store : clear implicits.
Arguments Store {T W}.

End RateLimit.

(** ** [06_decorator/decorator.py]: the decorated account functions *)

Module Accounts.
Import Guards RateLimit.

(** [transfer_money], lines 276 to 282, and [view_all_accounts], lines
    285 to 289, before decoration. *)
Definition transfer_money_body (args : positional) (kwargs : named) : outcome value :=
  outcome_bind (bind_required ["user"; "amount"; "to_account"] args kwargs)
    (λ vs,
       match vs with
       | [user; amount; to_account] =>
           Return (Val (VStr ("Transferred $" +:+ format amount
                              +:+ " to account " +:+ format to_account)))
       | _ => Raise TypeError
       end).

Definition view_all_accounts_body (args : positional) (kwargs : named) : outcome value :=
  outcome_bind (bind_required ["user"] args kwargs)
    (λ vs,
       match vs with
       | [user] => Return (Val (VStr "Account data: [Account1, Account2, Account3]"))
       | _ => Raise TypeError
       end).

(** [view_all_accounts] as decorated, lines 285 to 289. *)
Definition view_all_accounts {State : Type} : callable State :=
  admin_required (log_calls (stateless view_all_accounts_body)).

(** [transfer_money] as decorated, lines 276 to 282, called when the
    clock reads [now]. *)
Definition transfer_money {T : Type} (elapsed_lt : T → T → Z → bool) (now : T)
  : callable (store T ()) :=
  login_required
    (wrapper elapsed_lt 2 10
       (log_calls (validate_positive (stateless transfer_money_body))) now).

End Accounts.

(** ** [06_decorator/decorator.py]: [retry] *)

Module Retry.
Import Guards.

Section closure.
Context {W : Type}.

(** What a retried call leaves behind: the world of the wrapped
    function, and two ghost logs, the arguments of every call of the
    wrapped function and the length of every [time.sleep]. *)
Record store : Type := Store {
  invoked : list (positional * named);
  slept : list Z;
  world : W
}.

Definition set_world (w : W) (s : store) : store :=
  {| invoked := invoked s; slept := slept s; world := w |}.
Definition record_call (args : positional) (kwargs : named) (s : store) : store :=
  {| invoked := (invoked s ++ [(args, kwargs)])%list; slept := slept s; world := world s |}.
Definition record_sleep (delay : Z) (s : store) : store :=
  {| invoked := invoked s; slept := (slept s ++ [delay])%list; world := world s |}.

Definition external (f : positional → named → W → outcome value * W) : callable store :=
  λ args kwargs s,
    let '(o, w) := f args kwargs (world s) in (o, set_world w s).

(** [time.sleep(delay)] for an [int]: a negative length is a
    [ValueError]. *)
Definition sleep (delay : Z) (s : store) : outcome () * store :=
  if bool_decide (delay < 0)%Z then (Raise ValueError, s)
  else (Return (), record_sleep delay s).

(** [range(max_attempts)] *)
Definition range (n : Z) : list Z := seqZ 0 n.

(** The [for] loop of [wrapper], lines 212 to 223, over what is left of
    the range.  Falling out of the loop, the function returns [None]. *)
Fixpoint attempts (max_attempts delay : Z) (func : callable store) (rest : list Z)
  : callable store :=
  λ args kwargs s,
    match rest with
    | [] => (Return (Val VNone), s)
    | attempt :: rest' =>
        match func args kwargs (record_call args kwargs s) with
        | (Return result, s1) => (Return result, s1)
        | (Raise e, s1) =>
            if bool_decide (attempt = max_attempts - 1)%Z then (Raise e, s1)
            else
              match sleep delay s1 with
              | (Return _, s2) => attempts max_attempts delay func rest' args kwargs s2
              | (Raise e', s2) => (Raise e', s2)
              end
        end
    end.

(** [retry(max_attempts, delay)(func)] *)
Definition retry (max_attempts delay : Z) (func : callable store) : callable store :=
  attempts max_attempts delay func (range max_attempts).

Definition fresh (w : W) : store := {| invoked := []; slept := []; world := w |}.

(** The wrapped function called [k] times in a row on the same
    arguments, failing each time: the exceptions it raised and the world
    it left. *)
Fixpoint failing (f : positional → named → W → outcome value * W)
    (args : positional) (kwargs : named) (k : nat) (w : W) : option (list exn * W) :=
  match k with
  | O => Some ([], w)
  | S k' =>
      match f args kwargs w with
      | (Raise e, w1) =>
          match failing f args kwargs k' w1 with
          | Some (es, w2) => Some (e :: es, w2)
          | None => None
          end
      | (Return _, _) => None
      end
  end.

End closure.
Arguments store : clear implicits.

End Retry.

(** ** A clock to exercise [rate_limit] *)

(** Readings in whole seconds, subtracted and compared exactly. *)
Definition seconds_lt (now call_time time_window : Z) : bool :=
  bool_decide (now - call_time < time_window)%Z.

(** ** Functions to exercise [retry] *)

(** Out of order for its first two calls; the world counts the calls. *)
Definition down_twice (args : Guards.positional) (kwargs : Guards.named) (runs : nat)
  : outcome Guards.value * nat :=
  if bool_decide (runs < 2)%nat
  then (Raise (OtherError "API temporarily unavailable"), S runs)
  else (Return (Guards.Val (VStr "API call successful")), S runs).

(** Fails every time, each time with the number of the call in its
    message. *)
Definition always_down (args : Guards.positional) (kwargs : Guards.named) (runs : nat)
  : outcome Guards.value * nat :=
  (Raise (OtherError ("failure " +:+ pretty runs)), S runs).

(** Takes any arguments, positional and keyword, and returns how many
    they are: [len(args) + len(kwargs)]. *)
Definition arity (args : arguments) (kwargs : keywords) : outcome pyval :=
  Return (VInt (Z.of_nat (length args + length kwargs))).

(** ** The embedding on the calls the two files make *)

Example repr_examples :
  repr (VTuple [VInt 2; VInt 3]) = "(2, 3)" ∧
  repr (VTuple [VInt (-7)]) = "(-7,)" ∧
  repr (VTuple []) = "()" ∧
  repr (VTuple [VStr "data.txt"; VStr "read"]) = "('data.txt', 'read')" ∧
  repr (VList (map item_tuple (sorted [("b", VInt 2); ("a", VBool true)])))
    = "[('a', True), ('b', 2)]" ∧
  repr (VStr "it's") = String dquote "it's" +:+ String dquote "".
Proof. vm_compute. repeat split. Qed.

Example bind_examples :
  bind_params [("a", None); ("b", None)] [VInt 2] [("b", VInt 3)] = Return [VInt 2; VInt 3] ∧
  bind_params [("a", None); ("b", None)] [VInt 2] [("a", VInt 3)] = Raise TypeError ∧
  bind_params [("f", None); ("op", Some (VStr "read"))] [VStr "x"] [] = Return [VStr "x"; VStr "read"] ∧
  bind_params [("n", None)] [VInt 1; VInt 2] [] = Raise TypeError.
Proof. vm_compute. repeat split. Qed.

Example fibonacci_10 :
  (Decorator.fibonacci 20 [VInt 10] [] (Decorator.fresh ())).1 = Return (VInt 55) ∧
  (Decorator.fibonacci_undecorated 20 [VInt 10] [] (Decorator.fresh ())).1 = Return (VInt 55) ∧
  length (Decorator.invoked (Decorator.fibonacci 20 [VInt 10] [] (Decorator.fresh ())).2) = 11.
Proof. vm_compute. repeat split. Qed.

Example process_large_file_keys :
  Decorator.cache_key [VStr "data.txt"; VStr "read"] [] = "('data.txt', 'read')[]" ∧
  Decorator.cache_key [VStr "data.txt"] [("operation", VStr "read")]
    = "('data.txt',)[('operation', 'read')]".
Proof. vm_compute. repeat split. Qed.

Example long_running_function_twice :
  (Decorator03.run (Decorator03.external Decorator03.long_running_function)
     [([VInt 2; VInt 3], []); ([VInt 2; VInt 3], [])] (Decorator03.fresh ()))
  = ([Return (VInt 5); Return (VInt 5)],
     {| Decorator03.cache_value := [([VInt 2; VInt 3], VInt 5)];
        Decorator03.invoked := [[VInt 2; VInt 3]];
        Decorator03.world := () |}).
Proof. vm_compute. reflexivity. Qed.

(** A counted function: called with 4, with 4 again, with 5; the
    dictionary cleared; called with 4. *)
Example square_scenario :
  let before :=
    Decorator.run (Decorator.external square)
      [([VInt 4], []); ([VInt 4], []); ([VInt 5], [])] (Decorator.fresh ()) in
  let after :=
    Decorator.run (Decorator.external square) [([VInt 4], [])]
      (Decorator.clear before.2) in
  before.1 = [Return (VInt 16); Return (VInt 16); Return (VInt 25)]
  ∧ length (Decorator.invoked before.2) = 2%nat
  ∧ after.1 = [Return (VInt 16)]
  ∧ length (Decorator.invoked after.2) = 3%nat.
Proof. vm_compute. repeat split. Qed.

(** A function that fails once: the failure is not stored, the success is. *)
Example flaky_scenario :
  Decorator.run (Decorator.external flaky)
    [([VInt 7], []); ([VInt 7], []); ([VInt 7], [])] (Decorator.fresh 0%nat)
  = ([Raise (OtherError "first call fails"); Return (VInt 49); Return (VInt 49)],
     {| Decorator.cache_value := {[ "(7,)[]" := VInt 49 ]};
        Decorator.invoked := [([VInt 7], []); ([VInt 7], [])];
        Decorator.world := 2%nat |}).
Proof. vm_compute. reflexivity. Qed.

Example py_eq_examples :
  py_eq (VInt 1) (VBool true) = true ∧
  py_eq (VTuple [VInt 0; VStr "a"]) (VTuple [VBool false; VStr "a"]) = true ∧
  py_eq (VObj 1 "A") (VObj 2 "A") = false ∧
  py_eq (VTuple [VInt 1]) (VList [VInt 1]) = false.
Proof. vm_compute. repeat split. Qed.

Example fib_recurrence_examples :
  fib_recurrence (-3) = (-3)%Z ∧ fib_recurrence 10 = 55%Z ∧ fib_nat 10 = 55%Z.
Proof. repeat split; reflexivity. Qed.

(** The five calls of [transfer_money] the file makes, lines 321 to
    326, within ten seconds: the last, with its negative amount, meets
    the limit before the validation. *)
Example transfer_money_script :
  let regular_user :=
    Guards.Dict [("name", VStr "Alice"); ("is_logged_in", VBool true);
                 ("is_admin", VBool false)] in
  let guest_user :=
    Guards.Dict [("name", VStr "Guest"); ("is_logged_in", VBool false);
                 ("is_admin", VBool false)] in
  (RateLimit.run (Accounts.transfer_money seconds_lt)
     [(0%Z, [regular_user; Guards.Val (VInt 100); Guards.Val (VStr "12345")], []);
      (1%Z, [regular_user; Guards.Val (VInt 50); Guards.Val (VStr "67890")], []);
      (2%Z, [regular_user; Guards.Val (VInt 25); Guards.Val (VStr "11111")], []);
      (3%Z, [guest_user; Guards.Val (VInt 100); Guards.Val (VStr "12345")], []);
      (4%Z, [regular_user; Guards.Val (VInt (-50)); Guards.Val (VStr "12345")], [])]
     (RateLimit.fresh ())).1
  = [Return (Guards.Val (VStr "Transferred $100 to account 12345"));
     Return (Guards.Val (VStr "Transferred $50 to account 67890"));
     Return (Guards.Val (VStr "Rate limit exceeded: Too many requests"));
     Return (Guards.Val (VStr "Access denied: Authentication required"));
     Return (Guards.Val (VStr "Rate limit exceeded: Too many requests"))].
Proof. vm_compute. reflexivity. Qed.

(** The same last call once the window has passed. *)
Example transfer_money_later :
  let regular_user :=
    Guards.Dict [("name", VStr "Alice"); ("is_logged_in", VBool true);
                 ("is_admin", VBool false)] in
  (RateLimit.run (Accounts.transfer_money seconds_lt)
     [(0%Z, [regular_user; Guards.Val (VInt 100); Guards.Val (VStr "12345")], []);
      (1%Z, [regular_user; Guards.Val (VInt 50); Guards.Val (VStr "67890")], []);
      (10%Z, [regular_user; Guards.Val (VInt (-50)); Guards.Val (VStr "12345")], []);
      (10%Z, [regular_user; Guards.Val (VInt 5); Guards.Val (VStr "12345")], [])]
     (RateLimit.fresh ())).1
  = [Return (Guards.Val (VStr "Transferred $100 to account 12345"));
     Return (Guards.Val (VStr "Transferred $50 to account 67890"));
     Return (Guards.Val (VStr "Validation error: Negative values not allowed"));
     Return (Guards.Val (VStr "Rate limit exceeded: Too many requests"))].
Proof. vm_compute. reflexivity. Qed.

(** The two calls of [view_all_accounts], lines 329 and 330, and a call
    without a user record. *)
Example view_all_accounts_script :
  Accounts.view_all_accounts
    [Guards.Dict [("name", VStr "Admin"); ("is_logged_in", VBool true);
                  ("is_admin", VBool true)]] [] ()
  = (Return (Guards.Val (VStr "Account data: [Account1, Account2, Account3]")), ())
  ∧ Accounts.view_all_accounts
      [Guards.Dict [("name", VStr "Alice"); ("is_logged_in", VBool true);
                    ("is_admin", VBool false)]] [] ()
    = (Return (Guards.Val (VStr "Access denied: Administrative privileges required")), ())
  ∧ Accounts.view_all_accounts [Guards.Val (VStr "Admin")] [] ()
    = (Raise Guards.AttributeError, ())
  ∧ Accounts.view_all_accounts [] [] () = (Raise TypeError, ()).
Proof. vm_compute. repeat split. Qed.

Example format_examples :
  Guards.format (Guards.Val (VInt (-50))) = "-50" ∧
  Guards.format (Guards.Val (VStr "12345")) = "12345" ∧
  Guards.format (Guards.Dict [("name", VStr "Alice"); ("is_logged_in", VBool true)])
    = "{'name': 'Alice', 'is_logged_in': True}".
Proof. vm_compute. repeat split. Qed.

Example retry_examples :
  Retry.retry 3 1 (Retry.external down_twice) [] [] (Retry.fresh 0%nat)
  = (Return (Guards.Val (VStr "API call successful")),
     {| Retry.invoked := [([], []); ([], []); ([], [])];
        Retry.slept := [1%Z; 1%Z];
        Retry.world := 3%nat |})
  ∧ Retry.retry 2 1 (Retry.external down_twice) [] [] (Retry.fresh 0%nat)
    = (Raise (OtherError "API temporarily unavailable"),
       {| Retry.invoked := [([], []); ([], [])];
          Retry.slept := [1%Z];
          Retry.world := 2%nat |}).
Proof. vm_compute. repeat split. Qed.

(** ** Facts about the Python fragment *)

Section py_facts.

Lemma pyval_nested_ind (P : pyval → Prop)
  (HNone : P VNone) (HBool : ∀ b, P (VBool b)) (HInt : ∀ z, P (VInt z))
  (HStr : ∀ s, P (VStr s))
  (HTuple : ∀ items, Forall P items → P (VTuple items))
  (HList : ∀ items, Forall P items → P (VList items))
  (HObj : ∀ oid text, P (VObj oid text)) : ∀ v, P v.
Proof.
  fix rec 1.
  intros [| | | |items|items|];
    [apply HNone|apply HBool|apply HInt|apply HStr| | |apply HObj].
  - apply HTuple. induction items; constructor; [apply rec|assumption].
  - apply HList. induction items; constructor; [apply rec|assumption].
Qed.

Lemma same_eq (a b : pyval) : same a b = true ↔ a = b.
Proof.
  revert b. induction a as [ | | | |xs IH|xs IH| ] using pyval_nested_ind;
    intros [ | | | |ys|ys| ]; simpl;
    rewrite ?andb_true_iff, ?bool_decide_eq_true; try (split; congruence).
  - transitivity (xs = ys); [|split; congruence].
    revert ys. induction IH as [|x xs Hx _ IHxs]; intros [|y ys];
      try (split; congruence).
    simpl. rewrite andb_true_iff, Hx, IHxs. split; [intros [-> ->]|intros [=]]; done.
  - transitivity (xs = ys); [|split; congruence].
    revert ys. induction IH as [|x xs Hx _ IHxs]; intros [|y ys];
      try (split; congruence).
    simpl. rewrite andb_true_iff, Hx, IHxs. split; [intros [-> ->]|intros [=]]; done.
  - split; [intros [-> ->]|intros [=]]; done.
Qed.

Lemma py_eq_canon (a b : pyval) : py_eq a b = true ↔ canon a = canon b.
Proof. apply same_eq. Qed.

Lemma py_eq_refl (a : pyval) : py_eq a a = true.
Proof. by apply py_eq_canon. Qed.

Lemma py_eq_sym (a b : pyval) : py_eq a b = py_eq b a.
Proof.
  apply eq_true_iff_eq. rewrite !py_eq_canon. split; congruence.
Qed.

Lemma py_eq_trans (a b c : pyval) :
  py_eq a b = true → py_eq b c = true → py_eq a c = true.
Proof. rewrite !py_eq_canon. congruence. Qed.

Lemma hashable_canon (a : pyval) : hashable (canon a) = hashable a.
Proof.
  induction a as [| | | |xs IH|xs IH|] using pyval_nested_ind; simpl; try done.
  induction IH as [|x xs Hx _ IHxs]; simpl; [done|]. by rewrite Hx, IHxs.
Qed.

(** Equal values are hashable together. *)
Lemma py_eq_hashable (a b : pyval) :
  py_eq a b = true → hashable a = hashable b.
Proof.
  rewrite py_eq_canon. intros E.
  by rewrite <-(hashable_canon a), <-(hashable_canon b), E.
Qed.

Lemma args_eq_refl (a : arguments) : args_eq a a = true.
Proof. apply py_eq_refl. Qed.

Lemma args_eq_sym (a b : arguments) : args_eq a b = args_eq b a.
Proof. apply py_eq_sym. Qed.

Lemma args_eq_trans (a b c : arguments) :
  args_eq a b = true → args_eq b c = true → args_eq a c = true.
Proof. apply py_eq_trans. Qed.

End py_facts.

(** ** Facts about texts *)

Module StringFacts.

Lemma app_cons (c : ascii) (s t : string) : String c s +:+ t = String c (s +:+ t).
Proof. reflexivity. Qed.

Lemma app_empty (t : string) : "" +:+ t = t.
Proof. reflexivity. Qed.

Lemma app_empty_r (s : string) : s +:+ "" = s.
Proof. induction s as [|c s IH]; [done|]. by rewrite app_cons, IH. Qed.

Lemma app_assoc (s t u : string) : (s +:+ t) +:+ u = s +:+ t +:+ u.
Proof. induction s as [|c s IH]; [done|]. by rewrite !app_cons, IH. Qed.

(** Two ways of cutting one text: the shorter first part begins the longer. *)
Lemma app_eq_split (a b x y : string) :
  a +:+ x = b +:+ y →
  ∃ z, (b = a +:+ z ∧ x = z +:+ y) ∨ (a = b +:+ z ∧ y = z +:+ x).
Proof.
  revert b. induction a as [|c a IH]; intros b E.
  - exists b. left. by rewrite !app_empty in *.
  - destruct b as [|d b].
    + exists (String c a). right. by rewrite !app_empty in *.
    + rewrite !app_cons in E. injection E as -> E.
      destruct (IH b E) as [z [[-> ->]|[-> ->]]]; exists z; [left|right];
        by rewrite ?app_cons.
Qed.

Lemma list_ascii_of_string_app (s t : string) :
  list_ascii_of_string (s +:+ t)
  = (list_ascii_of_string s ++ list_ascii_of_string t)%list.
Proof.
  induction s as [|c s IH]; [done|]. rewrite app_cons. simpl. by rewrite IH.
Qed.

(** A common ending can be cancelled. *)
Lemma app_inj_ending (s1 s2 t : string) : s1 +:+ t = s2 +:+ t → s1 = s2.
Proof.
  intros E. apply (f_equal list_ascii_of_string) in E.
  rewrite !list_ascii_of_string_app in E. apply app_inv_tail in E.
  by rewrite <-(string_of_list_ascii_of_string s1),
             <-(string_of_list_ascii_of_string s2), E.
Qed.

End StringFacts.

(** ** The text of an integer *)

Module DigitFacts.
Import Text StringFacts.

Lemma all_digits_app (s t : string) :
  all_digits (s +:+ t) = all_digits s && all_digits t.
Proof.
  induction s as [|c s IH]; [done|]. rewrite app_cons. simpl.
  by rewrite IH, andb_assoc.
Qed.

(** A run of digits ends where the first other character stands. *)
Lemma digits_then_stop (d1 d2 r1 r2 : string) :
  all_digits d1 = true → all_digits d2 = true →
  stops r1 = true → stops r2 = true →
  d1 +:+ r1 = d2 +:+ r2 → d1 = d2 ∧ r1 = r2.
Proof.
  revert d2. induction d1 as [|c d1 IH]; intros [|c' d2] H1 H2 Hr1 Hr2 E;
    rewrite ?app_cons, ?app_empty in E; simpl in H1, H2.
  - done.
  - subst r1. simpl in Hr1. apply andb_true_iff in H2 as [Hc _].
    by rewrite Hc in Hr1.
  - subst r2. simpl in Hr2. apply andb_true_iff in H1 as [Hc _].
    by rewrite Hc in Hr2.
  - injection E as -> E.
    apply andb_true_iff in H1 as [_ H1], H2 as [_ H2].
    by destruct (IH d2 H1 H2 Hr1 Hr2 E) as [-> ->].
Qed.

Lemma pretty_N_char_digit (x : N) : digit (pretty_N_char x) = true.
Proof. unfold pretty_N_char. by repeat case_match. Qed.

Lemma pretty_N_go_digits (x : N) (s : string) :
  ∃ d, pretty_N_go x s = d +:+ s ∧ all_digits d = true
       ∧ ((0 < x)%N → d ≠ "").
Proof.
  revert s. induction (N.lt_wf_0 x) as [x _ IH]; intros s.
  assert (x = 0 ∨ 0 < x)%N as [->|Hx] by lia.
  - exists "". rewrite pretty_N_go_0. split; [done|]. split; [done|lia].
  - rewrite pretty_N_go_step by done.
    destruct (IH (x `div` 10)%N (N.div_lt x 10 Hx eq_refl)
                (String (pretty_N_char (x `mod` 10)) s)) as (d & -> & Hd & _).
    exists (d +:+ String (pretty_N_char (x `mod` 10)) "").
    rewrite app_assoc, app_cons, app_empty. split; [done|].
    rewrite all_digits_app, Hd. simpl. rewrite pretty_N_char_digit.
    split; [done|]. intros _. by destruct d.
Qed.

Lemma pretty_N_digits (x : N) : all_digits (pretty x) = true ∧ pretty x ≠ "".
Proof.
  unfold pretty, pretty_N. case_decide as Hx; [done|].
  destruct (pretty_N_go_digits x "") as (d & -> & Hd & Hne).
  rewrite app_empty_r. split; [done|]. apply Hne. lia.
Qed.

(** The text of an integer: digits, after a minus sign if negative. *)
Lemma pretty_Z_digits (z : Z) :
  ∃ d, all_digits d = true ∧ d ≠ ""
       ∧ (pretty z = d ∨ pretty z = String "-" d).
Proof.
  destruct z as [|p|p]; unfold pretty, pretty_Z.
  - exists "0". auto.
  - destruct (pretty_N_digits (Npos p)) as [Hd Hne].
    exists (pretty (Npos p)). auto.
  - destruct (pretty_N_digits (Npos p)) as [Hd Hne].
    exists (pretty (Npos p)). auto.
Qed.

Lemma repr_int_then_stop (z1 z2 : Z) (r1 r2 : string) :
  stops r1 = true → stops r2 = true →
  repr_int z1 +:+ r1 = repr_int z2 +:+ r2 → z1 = z2 ∧ r1 = r2.
Proof.
  unfold repr_int. intros Hr1 Hr2 E.
  destruct (pretty_Z_digits z1) as (d1 & Hd1 & Hne1 & Hz1).
  destruct (pretty_Z_digits z2) as (d2 & Hd2 & Hne2 & Hz2).
  cut (pretty z1 = pretty z2 ∧ r1 = r2).
  { intros [Hp ->]. by apply (inj pretty) in Hp as ->. }
  destruct Hz1 as [Hz1|Hz1], Hz2 as [Hz2|Hz2]; rewrite Hz1, Hz2 in *;
    rewrite ?app_cons in E.
  - by destruct (digits_then_stop d1 d2 r1 r2) as [-> ->].
  - destruct d1 as [|c d1]; [done|]. rewrite app_cons in E. injection E as -> _.
    simpl in Hd1. done.
  - destruct d2 as [|c d2]; [done|]. rewrite app_cons in E. injection E as <- _.
    simpl in Hd2. done.
  - injection E as E. by destruct (digits_then_stop d1 d2 r1 r2) as [-> ->].
Qed.

End DigitFacts.

(** ** The text of a string *)

Module StrFacts.
Import Text StringFacts.

Lemma elem_of_all_ascii (c : ascii) : c ∈ all_ascii.
Proof.
  unfold all_ascii. apply list_elem_of_fmap. exists (nat_of_ascii c).
  split; [by rewrite ascii_nat_embedding|].
  apply elem_of_seq. pose proof (nat_ascii_bounded c). lia.
Qed.

Lemma starts_with_app (p z : string) : starts_with p (p +:+ z) = true.
Proof.
  induction p as [|c p IH]; [done|]. rewrite app_cons. simpl.
  by rewrite bool_decide_eq_true_2, IH.
Qed.

Lemma tokens_checked :
  tokens_prefix_free quote = true ∧ tokens_prefix_free dquote = true
  ∧ tokens_avoid_quote quote = true ∧ tokens_avoid_quote dquote = true.
Proof. vm_compute. done. Qed.

Lemma token_prefix (q c1 c2 : ascii) (z : string) :
  q = quote ∨ q = dquote →
  repr_char q c2 = repr_char q c1 +:+ z → c1 = c2.
Proof.
  intros Hq E.
  assert (tokens_prefix_free q = true) as Hfree
    by (destruct Hq as [->| ->]; apply tokens_checked).
  unfold tokens_prefix_free in Hfree. rewrite forallb_forall in Hfree.
  specialize (Hfree c1 (proj1 (list_elem_of_In _ _) (elem_of_all_ascii c1))).
  rewrite forallb_forall in Hfree.
  specialize (Hfree c2 (proj1 (list_elem_of_In _ _) (elem_of_all_ascii c2))).
  rewrite E, starts_with_app in Hfree. simpl in Hfree.
  rewrite orb_false_r in Hfree. by apply bool_decide_eq_true in Hfree.
Qed.

Lemma token_inj (q c1 c2 : ascii) (t1 t2 : string) :
  q = quote ∨ q = dquote →
  repr_char q c1 +:+ t1 = repr_char q c2 +:+ t2 → c1 = c2 ∧ t1 = t2.
Proof.
  intros Hq E.
  assert (c1 = c2) as ->.
  { destruct (app_eq_split _ _ _ _ E) as [z [[Hz _]|[Hz _]]].
    - by apply (token_prefix q c1 c2 z).
    - symmetry. by apply (token_prefix q c2 c1 z). }
  split; [done|]. by apply (inj (String.app _)) in E.
Qed.

Lemma token_head (q c : ascii) :
  q = quote ∨ q = dquote →
  ∃ d rest, repr_char q c = String d rest ∧ d ≠ q.
Proof.
  intros Hq.
  assert (tokens_avoid_quote q = true) as Havoid
    by (destruct Hq as [->| ->]; apply tokens_checked).
  unfold tokens_avoid_quote in Havoid. rewrite forallb_forall in Havoid.
  specialize (Havoid c (proj1 (list_elem_of_In _ _) (elem_of_all_ascii c))).
  destruct (repr_char q c) as [|d rest]; [done|].
  exists d, rest. split; [done|].
  apply negb_true_iff, bool_decide_eq_false in Havoid. done.
Qed.

(** The text between the quotes ends at the first bare quote. *)
Lemma repr_chars_then_quote (q : ascii) (s1 s2 r1 r2 : string) :
  q = quote ∨ q = dquote →
  repr_chars q s1 +:+ String q r1 = repr_chars q s2 +:+ String q r2 →
  s1 = s2 ∧ r1 = r2.
Proof.
  intros Hq. revert s2. induction s1 as [|c1 s1 IH]; intros [|c2 s2] E; simpl in E.
  - rewrite !app_empty in E. by injection E as ->.
  - rewrite app_empty, app_assoc in E.
    destruct (token_head q c2 Hq) as (d & rest & Hd & Hne).
    rewrite Hd, app_cons in E. by injection E as <-.
  - rewrite app_empty, app_assoc in E.
    destruct (token_head q c1 Hq) as (d & rest & Hd & Hne).
    rewrite Hd, app_cons in E. by injection E as ->.
  - rewrite !app_assoc in E.
    apply token_inj in E as [-> E]; [|done].
    by destruct (IH s2 E) as [-> ->].
Qed.

Lemma repr_str_unfold (s : string) :
  ∃ q, (q = quote ∨ q = dquote)
       ∧ ∀ r, repr_str s +:+ r = String q (repr_chars q s +:+ String q r).
Proof.
  unfold repr_str.
  exists (if contains quote s && negb (contains dquote s) then dquote else quote).
  split; [destruct (_ && _); auto|].
  intros r. by rewrite app_assoc, !app_cons, app_empty.
Qed.

Lemma repr_str_then (s1 s2 r1 r2 : string) :
  repr_str s1 +:+ r1 = repr_str s2 +:+ r2 → s1 = s2 ∧ r1 = r2.
Proof.
  destruct (repr_str_unfold s1) as (q1 & Hq1 & ->).
  destruct (repr_str_unfold s2) as (q2 & Hq2 & ->).
  intros [= -> E]. by apply (repr_chars_then_quote q2).
Qed.

End StrFacts.

(** ** The text of a value determines the value *)

Module ReprFacts.
Import Text StringFacts DigitFacts StrFacts.

Lemma elements_cons (x : pyval) (items : list pyval) :
  join ", " (repr <$> x :: items) = repr x +:+ rest_text items.
Proof. destruct items; simpl; [by rewrite app_empty_r|done]. Qed.

Lemma repr_head (v : pyval) :
  plain v = true → ∃ c rest, repr v = String c rest ∧ char_kind c = kind v.
Proof.
  destruct v as [ |b|z|s|items|items| ]; intros Hp; try done.
  - by exists "N"%char, "one".
  - destruct b; [by exists "T"%char, "rue"|by exists "F"%char, "alse"].
  - simpl. unfold repr_int.
    destruct (pretty_Z_digits z) as (d & Hd & Hne & [->| ->]).
    + destruct d as [|c d]; [done|]. exists c, d. split; [done|].
      simpl in Hd. apply andb_true_iff in Hd as [Hc _].
      unfold char_kind. by rewrite Hc.
    + by exists "-"%char, d.
  - simpl. unfold repr_str. rewrite app_cons.
    eexists _, _. split; [done|]. by destruct (_ && _); vm_compute.
  - simpl. destruct items as [|x [|y items]];
      (eexists _, _; split; [rewrite app_cons; reflexivity|done]).
  - simpl. eexists _, _. split; [rewrite app_cons; reflexivity|done].
Qed.

Lemma repr_kind (v1 v2 : pyval) (r1 r2 : string) :
  plain v1 = true → plain v2 = true →
  repr v1 +:+ r1 = repr v2 +:+ r2 → kind v1 = kind v2.
Proof.
  intros (c1 & rest1 & E1 & <-)%repr_head (c2 & rest2 & E2 & <-)%repr_head.
  rewrite E1, E2, !app_cons. by intros [= -> _].
Qed.

Lemma closing_stops (e : string) : closing e = true → stops e = true.
Proof.
  destruct e as [|k e]; [done|]. simpl.
  by intros [[_ ?]%andb_true_iff _]%andb_true_iff.
Qed.

(** The elements of a tuple or list can be read back one by one. *)
Lemma elements_then_closing (xs ys : list pyval) (e1 e2 : string) :
  Forall (λ x, plain x = true ∧ determined x) xs →
  Forall (λ y, plain y = true) ys →
  closing e1 = true → closing e2 = true →
  join ", " (repr <$> xs) +:+ e1 = join ", " (repr <$> ys) +:+ e2 →
  xs = ys ∧ e1 = e2.
Proof.
  intros Hxs. revert ys.
  induction Hxs as [|x xs [Hpx Hx] Hxs IH]; intros [|y ys] Hys He1 He2 E.
  - done.
  - exfalso. apply Forall_cons in Hys as [Hpy _].
    rewrite elements_cons, app_assoc in E. change (join ", " (repr <$> [])) with "" in E.
    rewrite app_empty in E.
    destruct (repr_head y Hpy) as (c & rest & Ey & Hc).
    rewrite Ey, app_cons in E. subst e1. simpl in He1.
    destruct y; simpl in Hc; rewrite Hc in He1; done.
  - exfalso.
    rewrite elements_cons, app_assoc in E. change (join ", " (repr <$> [])) with "" in E.
    rewrite app_empty in E.
    destruct (repr_head x Hpx) as (c & rest & Ex & Hc).
    rewrite Ex, app_cons in E. subst e2. simpl in He2.
    destruct x; simpl in Hc; rewrite Hc in He2; done.
  - apply Forall_cons in Hys as [Hpy Hys].
    rewrite !elements_cons, !app_assoc in E.
    assert (∀ items e, closing e = true → stops (rest_text items +:+ e) = true)
      as Hstops.
    { intros [|? ?] e He; [by apply closing_stops|done]. }
    apply Hx in E as [<- E]; [|done|by apply Hstops..].
    destruct xs as [|x' xs], ys as [|y' ys]; unfold rest_text in E.
    + by rewrite !app_empty in E.
    + exfalso. rewrite app_empty, app_assoc in E. subst e1.
      rewrite !app_cons in He1. by simpl in He1.
    + exfalso. rewrite app_empty, app_assoc in E. subst e2.
      rewrite !app_cons in He2. by simpl in He2.
    + rewrite !app_assoc in E. apply (inj (String.app _)) in E.
      by destruct (IH (y' :: ys)) as [-> ->].
Qed.

Lemma repr_tuple_unfold (items : list pyval) (r : string) :
  repr (VTuple items) +:+ r
  = String "(" (join ", " (repr <$> items)
                +:+ (match items with [_] => ",)" | _ => ")" end) +:+ r).
Proof.
  simpl. destruct items as [|x [|y items]];
    by rewrite ?app_cons, ?app_empty, ?app_assoc.
Qed.

Lemma repr_list_unfold (items : list pyval) (r : string) :
  repr (VList items) +:+ r = String "[" (join ", " (repr <$> items) +:+ "]" +:+ r).
Proof. simpl. by rewrite ?app_cons, ?app_empty, ?app_assoc. Qed.

(** A value without user objects can be read back from its text, up to
    where the text stops. *)
Lemma repr_determined (v1 : pyval) : plain v1 = true → determined v1.
Proof.
  induction v1 as [ |b1|z1|s1|xs IH|xs IH| ] using pyval_nested_ind;
    intros Hp1 v2 r1 r2 Hp2 Hr1 Hr2 E; [..|done];
    pose proof (repr_kind _ _ _ _ Hp1 Hp2 E) as Hk;
    destruct v2 as [ |b2|z2|s2|ys|ys| ]; try done.
  - simpl in E. by apply (inj (String.app _)) in E.
  - destruct b1, b2; simpl in E; try done; by apply (inj (String.app _)) in E.
  - simpl in E. by apply repr_int_then_stop in E as [-> ->].
  - simpl in E. by apply repr_str_then in E as [-> ->].
  - rewrite !repr_tuple_unfold in E. injection E as E.
    simpl in Hp1, Hp2. rewrite forallb_forall in Hp1. rewrite forallb_forall in Hp2.
    apply elements_then_closing in E as [<- E].
    + split; [done|]. by apply (inj (String.app _)) in E.
    + rewrite Forall_forall in IH. apply Forall_forall. intros x Hx.
      assert (plain x = true) by (by apply Hp1, list_elem_of_In). auto.
    + apply Forall_forall. intros y Hy. by apply Hp2, list_elem_of_In.
    + by destruct xs as [|? [|? ?]].
    + by destruct ys as [|? [|? ?]].
  - rewrite !repr_list_unfold in E. injection E as E.
    simpl in Hp1, Hp2. rewrite forallb_forall in Hp1. rewrite forallb_forall in Hp2.
    apply elements_then_closing in E as [<- E].
    + split; [done|]. by injection E.
    + rewrite Forall_forall in IH. apply Forall_forall. intros x Hx.
      assert (plain x = true) by (by apply Hp1, list_elem_of_In). auto.
    + apply Forall_forall. intros y Hy. by apply Hp2, list_elem_of_In.
    + done.
    + done.
Qed.

End ReprFacts.

(** ** Facts about [decorator.py]'s wrapper *)

Module DecoratorFacts.
Import Decorator.

Section wrapper_facts.
Context {W : Type}.
Implicit Types (s : store W) (func : computation W).
Implicit Types (f : arguments → keywords → W → outcome pyval * W).

(** A key already stored: the stored value comes back and nothing moves. *)
Lemma wrapper_hit func args kwargs s cached :
  cache_value s !! cache_key args kwargs = Some cached →
  wrapper func args kwargs s = (Return cached, s).
Proof. unfold wrapper. by intros ->. Qed.

(** A key not stored, the function returns: one invocation, one entry. *)
Lemma wrapper_miss_return f args kwargs s result w' :
  cache_value s !! cache_key args kwargs = None →
  f args kwargs (world s) = (Return result, w') →
  wrapper (external f) args kwargs s
  = (Return result,
     {| cache_value := <[cache_key args kwargs := result]> (cache_value s);
        invoked := invoked s ++ [(args, kwargs)];
        world := w' |}).
Proof. unfold wrapper, external. simpl. by intros -> ->. Qed.

(** A key not stored, the function raises: one invocation, no entry. *)
Lemma wrapper_miss_raise f args kwargs s e w' :
  cache_value s !! cache_key args kwargs = None →
  f args kwargs (world s) = (Raise e, w') →
  wrapper (external f) args kwargs s
  = (Raise e,
     {| cache_value := cache_value s;
        invoked := invoked s ++ [(args, kwargs)];
        world := w' |}).
Proof. unfold wrapper, external. simpl. by intros -> ->. Qed.

(** What one call does to the dictionary: nothing, or one new entry
    under a key that had none. *)
Lemma wrapper_cache_step f args kwargs s o s1 :
  wrapper (external f) args kwargs s = (o, s1) →
  cache_value s1 = cache_value s
  ∨ (cache_value s !! cache_key args kwargs = None
     ∧ ∃ result, o = Return result
         ∧ cache_value s1 = <[cache_key args kwargs := result]> (cache_value s)).
Proof.
  destruct (cache_value s !! cache_key args kwargs) as [cached|] eqn:Hk.
  - rewrite (wrapper_hit _ _ _ _ _ Hk). intros [= <- <-]. by left.
  - destruct (f args kwargs (world s)) as [[result|e] w'] eqn:Hf.
    + rewrite (wrapper_miss_return _ _ _ _ _ _ Hk Hf). intros [= <- <-].
      right. eauto.
    + rewrite (wrapper_miss_raise _ _ _ _ _ _ Hk Hf). intros [= <- <-].
      by left.
Qed.

(** Entries only accumulate. *)
Lemma wrapper_cache_mono f args kwargs s o s1 :
  wrapper (external f) args kwargs s = (o, s1) →
  cache_value s ⊆ cache_value s1.
Proof.
  intros [->|(Hk & result & _ & ->)]%wrapper_cache_step; [done|].
  by apply insert_subseteq.
Qed.

(** A call that returns leaves its result under its key. *)
Lemma wrapper_return_stored f args kwargs s result s1 :
  wrapper (external f) args kwargs s = (Return result, s1) →
  cache_value s1 !! cache_key args kwargs = Some result.
Proof.
  destruct (cache_value s !! cache_key args kwargs) as [cached|] eqn:Hk.
  - rewrite (wrapper_hit _ _ _ _ _ Hk). by intros [= <- <-].
  - destruct (f args kwargs (world s)) as [[r|e] w'] eqn:Hf.
    + rewrite (wrapper_miss_return _ _ _ _ _ _ Hk Hf). intros [= <- <-].
      simpl. apply lookup_insert_eq.
    + rewrite (wrapper_miss_raise _ _ _ _ _ _ Hk Hf). intros [=].
Qed.

(** An entry under another key is neither read nor written. *)
Lemma wrapper_other_key f args kwargs s o s1 key :
  cache_key args kwargs ≠ key →
  wrapper (external f) args kwargs s = (o, s1) →
  cache_value s1 !! key = cache_value s !! key.
Proof.
  intros Hne [->|(_ & result & _ & ->)]%wrapper_cache_step; [done|].
  by apply lookup_insert_ne.
Qed.

Lemma run_cons func args kwargs calls s :
  run func ((args, kwargs) :: calls) s
  = ((wrapper func args kwargs s).1
       :: (run func calls (wrapper func args kwargs s).2).1,
     (run func calls (wrapper func args kwargs s).2).2).
Proof.
  simpl. destruct (wrapper func args kwargs s) as [o s1]. simpl.
  by destruct (run func calls s1).
Qed.

Lemma run_cache_mono f calls s :
  cache_value s ⊆ cache_value (run (external f) calls s).2.
Proof.
  revert s. induction calls as [|[args kwargs] calls IH]; intros s; [done|].
  rewrite run_cons. simpl. etrans; [|apply IH].
  eapply wrapper_cache_mono. apply surjective_pairing.
Qed.

(** Once a value sits under a key, every later call with that key
    returns it. *)
Lemma run_cached f calls s j args kwargs cached :
  cache_value s !! cache_key args kwargs = Some cached →
  calls !! j = Some (args, kwargs) →
  (run (external f) calls s).1 !! j = Some (Return cached).
Proof.
  revert s j. induction calls as [|[a k] calls IH]; intros s j Hc Hj; [done|].
  rewrite run_cons. destruct j as [|j]; simpl in *.
  - injection Hj as -> ->. by rewrite (wrapper_hit _ _ _ _ _ Hc).
  - apply IH; [|done].
    eapply lookup_weaken; [exact Hc|].
    eapply wrapper_cache_mono. apply surjective_pairing.
Qed.

Lemma run_consistent f calls s i j a k a' k' v :
  (i < j)%nat →
  calls !! i = Some (a, k) → calls !! j = Some (a', k') →
  cache_key a k = cache_key a' k' →
  (run (external f) calls s).1 !! i = Some (Return v) →
  (run (external f) calls s).1 !! j = Some (Return v).
Proof.
  revert s i j. induction calls as [|[a0 k0] calls IH]; intros s i j Hij Hi Hj Hkey; [done|].
  rewrite run_cons. destruct j as [|j]; [lia|]. destruct i as [|i]; simpl in *.
  - injection Hi as -> ->. intros [= Hv].
    eapply run_cached; [|done]. rewrite <-Hkey.
    eapply wrapper_return_stored. rewrite <-Hv. apply surjective_pairing.
  - apply IH; [lia|done..].
Qed.

End wrapper_facts.
End DecoratorFacts.

(** ** Facts about [03_decorator.py]'s wrapper *)

Module Decorator03Facts.
Import Decorator03.

Lemma args_eq_false_trans (a b c : arguments) :
  args_eq a b = true → args_eq a c = false → args_eq b c = false.
Proof.
  intros Hab Hac. destruct (args_eq b c) eqn:Hbc; [|done].
  by rewrite (args_eq_trans _ _ _ Hab Hbc) in Hac.
Qed.

(** Equal keys find the same entry. *)
Lemma dict_get_proper (a b : arguments) (d : dict) :
  args_eq a b = true → dict_get a d = dict_get b d.
Proof.
  intros Hab. induction d as [|[k v] d IH]; simpl; [done|].
  destruct (args_eq k a) eqn:Hka.
  - by rewrite (args_eq_trans _ _ _ Hka Hab).
  - rewrite args_eq_sym in Hka.
    rewrite args_eq_sym, (args_eq_false_trans _ _ _ Hab Hka). exact IH.
Qed.

Lemma dict_get_set_eq (key : arguments) (v : pyval) (d : dict) :
  dict_get key (dict_set key v d) = Some v.
Proof.
  induction d as [|[k v'] d IH]; simpl.
  - by rewrite args_eq_refl.
  - destruct (args_eq k key) eqn:Hk; simpl; by rewrite Hk.
Qed.

Lemma dict_get_set_ne (key key' : arguments) (v : pyval) (d : dict) :
  args_eq key key' = false →
  dict_get key' (dict_set key v d) = dict_get key' d.
Proof.
  intros Hne. induction d as [|[k v'] d IH]; simpl.
  - by rewrite Hne.
  - destruct (args_eq k key) eqn:Hk; simpl.
    + rewrite args_eq_sym in Hk. by rewrite (args_eq_false_trans _ _ _ Hk Hne).
    + by rewrite IH.
Qed.

Lemma dict_set_included (key : arguments) (v : pyval) (d : dict) :
  dict_get key d = None → dict_included d (dict_set key v d).
Proof.
  intros Hk key' v' Hget. destruct (args_eq key key') eqn:E.
  - by rewrite <-(dict_get_proper _ _ _ E), Hk in Hget.
  - by rewrite dict_get_set_ne.
Qed.

Section wrapper_facts.
Context {W : Type}.
Implicit Types (s : store W) (func : computation W).
Implicit Types (f : arguments → keywords → W → outcome pyval * W).

(** An unhashable argument: [TypeError] at the test, before anything
    else happens. *)
Lemma wrapper03_unhashable func args s :
  hashable (VTuple args) = false →
  wrapper func args [] s = (Raise TypeError, s).
Proof. unfold wrapper, wrapper_body. by intros ->. Qed.

(** A keyword argument: [TypeError] at the call. *)
Lemma wrapper03_keyword func args name v kwargs s :
  wrapper func args ((name, v) :: kwargs) s = (Raise TypeError, s).
Proof. done. Qed.

Lemma wrapper03_hit func args s cached :
  hashable (VTuple args) = true →
  dict_get args (cache_value s) = Some cached →
  wrapper func args [] s = (Return cached, s).
Proof. unfold wrapper, wrapper_body. by intros -> ->. Qed.

Lemma wrapper03_miss_return f args s result w' :
  hashable (VTuple args) = true →
  dict_get args (cache_value s) = None →
  f args [] (world s) = (Return result, w') →
  wrapper (external f) args [] s
  = (Return result,
     {| cache_value := dict_set args result (cache_value s);
        invoked := invoked s ++ [args];
        world := w' |}).
Proof. unfold wrapper, wrapper_body, external. simpl. by intros -> -> ->. Qed.

Lemma wrapper03_miss_raise f args s e w' :
  hashable (VTuple args) = true →
  dict_get args (cache_value s) = None →
  f args [] (world s) = (Raise e, w') →
  wrapper (external f) args [] s
  = (Raise e,
     {| cache_value := cache_value s;
        invoked := invoked s ++ [args];
        world := w' |}).
Proof. unfold wrapper, wrapper_body, external. simpl. by intros -> -> ->. Qed.

Lemma wrapper03_cache_step f args kwargs s o s1 :
  wrapper (external f) args kwargs s = (o, s1) →
  cache_value s1 = cache_value s
  ∨ (dict_get args (cache_value s) = None
     ∧ ∃ result, o = Return result
         ∧ cache_value s1 = dict_set args result (cache_value s)).
Proof.
  destruct kwargs as [|[name v] kwargs]; [|intros [= <- <-]; by left].
  destruct (hashable (VTuple args)) eqn:Hh;
    [|rewrite (wrapper03_unhashable _ _ _ Hh); intros [= <- <-]; by left].
  destruct (dict_get args (cache_value s)) as [cached|] eqn:Hk.
  - rewrite (wrapper03_hit _ _ _ _ Hh Hk). intros [= <- <-]. by left.
  - destruct (f args [] (world s)) as [[result|e] w'] eqn:Hf.
    + rewrite (wrapper03_miss_return _ _ _ _ _ Hh Hk Hf). intros [= <- <-].
      right. eauto.
    + rewrite (wrapper03_miss_raise _ _ _ _ _ Hh Hk Hf). intros [= <- <-].
      by left.
Qed.

Lemma wrapper03_cache_mono f args kwargs s o s1 :
  wrapper (external f) args kwargs s = (o, s1) →
  dict_included (cache_value s) (cache_value s1).
Proof.
  intros [->|(Hk & result & _ & ->)]%wrapper03_cache_step; [by intros ??|].
  by apply dict_set_included.
Qed.

Lemma wrapper03_return_stored f args kwargs s result s1 :
  wrapper (external f) args kwargs s = (Return result, s1) →
  kwargs = [] ∧ hashable (VTuple args) = true
  ∧ dict_get args (cache_value s1) = Some result.
Proof.
  destruct kwargs as [|[name v] kwargs]; [|intros [=]].
  destruct (hashable (VTuple args)) eqn:Hh;
    [|rewrite (wrapper03_unhashable _ _ _ Hh); intros [=]].
  destruct (dict_get args (cache_value s)) as [cached|] eqn:Hk.
  - rewrite (wrapper03_hit _ _ _ _ Hh Hk). by intros [= <- <-].
  - destruct (f args [] (world s)) as [[r|e] w'] eqn:Hf.
    + rewrite (wrapper03_miss_return _ _ _ _ _ Hh Hk Hf). intros [= <- <-].
      simpl. by rewrite dict_get_set_eq.
    + rewrite (wrapper03_miss_raise _ _ _ _ _ Hh Hk Hf). intros [=].
Qed.

(** An entry under an unequal key is neither read nor written. *)
Lemma wrapper03_other_key f args kwargs s o s1 key :
  args_eq args key = false →
  wrapper (external f) args kwargs s = (o, s1) →
  dict_get key (cache_value s1) = dict_get key (cache_value s).
Proof.
  intros Hne [->|(_ & result & _ & ->)]%wrapper03_cache_step; [done|].
  by apply dict_get_set_ne.
Qed.

Lemma run03_cons func args kwargs calls s :
  run func ((args, kwargs) :: calls) s
  = ((wrapper func args kwargs s).1
       :: (run func calls (wrapper func args kwargs s).2).1,
     (run func calls (wrapper func args kwargs s).2).2).
Proof.
  simpl. destruct (wrapper func args kwargs s) as [o s1]. simpl.
  by destruct (run func calls s1).
Qed.

Lemma run03_cache_mono f calls s :
  dict_included (cache_value s) (cache_value (run (external f) calls s).2).
Proof.
  revert s. induction calls as [|[args kwargs] calls IH]; intros s; [by intros ??|].
  rewrite run03_cons. simpl. intros key v Hget. apply IH.
  eapply wrapper03_cache_mono; [apply surjective_pairing|done].
Qed.

Lemma run03_cached f calls s j args cached :
  hashable (VTuple args) = true →
  dict_get args (cache_value s) = Some cached →
  calls !! j = Some (args, []) →
  (run (external f) calls s).1 !! j = Some (Return cached).
Proof.
  revert s j. induction calls as [|[a k] calls IH]; intros s j Hh Hc Hj; [done|].
  rewrite run03_cons. destruct j as [|j]; simpl in *.
  - injection Hj as -> ->. by rewrite (wrapper03_hit _ _ _ _ Hh Hc).
  - apply IH; [done| |done].
    eapply wrapper03_cache_mono; [apply surjective_pairing|done].
Qed.

Lemma run03_consistent f calls s i j a a' v :
  (i < j)%nat →
  calls !! i = Some (a, []) → calls !! j = Some (a', []) →
  args_eq a a' = true →
  (run (external f) calls s).1 !! i = Some (Return v) →
  (run (external f) calls s).1 !! j = Some (Return v).
Proof.
  revert s i j. induction calls as [|[a0 k0] calls IH]; intros s i j Hij Hi Hj Hkey; [done|].
  rewrite run03_cons. destruct j as [|j]; [lia|]. destruct i as [|i]; simpl in *.
  - injection Hi as -> ->. intros [= Hv].
    destruct (wrapper03_return_stored f a [] s v (wrapper (external f) a [] s).2)
      as (_ & Hh & Hst); [rewrite <-Hv; apply surjective_pairing|].
    eapply run03_cached; [| |done].
    + by rewrite <-(py_eq_hashable _ _ Hkey).
    + by rewrite <-(dict_get_proper _ _ _ Hkey).
  - apply IH; [lia|done..].
Qed.

End wrapper_facts.
End Decorator03Facts.

(** ** The key of [decorator.py] and the order of keyword arguments *)

Module KeyFacts.
Import Decorator Text.

Global Instance item_le_trans : Transitive item_le.
Proof. intros x y z. unfold item_le. apply transitivity. Qed.

Global Instance item_le_total : Total item_le.
Proof. intros x y. unfold item_le. apply total, _. Qed.

(** In a dict, the name determines the item. *)
Lemma item_unique (kwargs : keywords) (x y : string * pyval) :
  NoDup (names kwargs) → x ∈ kwargs → y ∈ kwargs → x.1 = y.1 → x = y.
Proof.
  unfold names. induction kwargs as [|z kwargs IH]; intros Hnd Hx Hy Hn.
  - by apply elem_of_nil in Hx.
  - rewrite fmap_cons in Hnd. apply NoDup_cons in Hnd as [Hz Hnd].
    apply elem_of_cons in Hx as [->|Hx], Hy as [->|Hy]; [done| | |by apply IH].
    + exfalso. apply Hz. rewrite Hn. by apply list_elem_of_fmap_2.
    + exfalso. apply Hz. rewrite <-Hn. by apply list_elem_of_fmap_2.
Qed.

(** Sorting forgets the order in which the keywords were written. *)
Lemma sorted_insertion_order (kw1 kw2 : keywords) :
  NoDup (names kw1) → kw1 ≡ₚ kw2 → sorted kw1 = sorted kw2.
Proof.
  intros Hnd Hperm. unfold sorted.
  apply (StronglySorted_unique_strong item_le).
  - intros x y Hx Hy Hxy Hyx.
    apply (item_unique kw1); [done| | |].
    + by rewrite <-(merge_sort_Permutation item_le kw1).
    + by rewrite Hperm, <-(merge_sort_Permutation item_le kw2).
    + unfold item_le in *. by apply (anti_symm String.le).
  - apply StronglySorted_merge_sort; apply _.
  - apply StronglySorted_merge_sort; apply _.
  - by rewrite !merge_sort_Permutation.
Qed.

Lemma cache_key_insertion_order (args : arguments) (kw1 kw2 : keywords) :
  NoDup (names kw1) → kw1 ≡ₚ kw2 → cache_key args kw1 = cache_key args kw2.
Proof.
  intros Hnd Hperm. unfold cache_key.
  by rewrite (sorted_insertion_order kw1 kw2).
Qed.

Lemma sorted_same_dict (kw1 kw2 : keywords) : sorted kw1 = sorted kw2 → kw1 ≡ₚ kw2.
Proof.
  unfold sorted. intros E.
  by rewrite <-(merge_sort_Permutation item_le kw1), E, merge_sort_Permutation.
Qed.

Lemma sorted_items_plain (kwargs : keywords) :
  forallb (λ kv, plain kv.2) kwargs = true →
  plain (VList (item_tuple <$> sorted kwargs)) = true.
Proof.
  intros Hp. simpl. apply forallb_forall. intros v Hv.
  apply list_elem_of_In, list_elem_of_fmap in Hv as ([k w] & -> & Hkw).
  unfold sorted in Hkw. rewrite merge_sort_Permutation in Hkw.
  rewrite forallb_forall in Hp. apply list_elem_of_In, Hp in Hkw.
  simpl in *. by rewrite Hkw.
Qed.

Global Instance item_tuple_inj : Inj (=) (=) item_tuple.
Proof. intros [k1 v1] [k2 v2]. unfold item_tuple. simpl. by intros [= -> ->]. Qed.

(** On plain arguments the key tells the call: equal keys come from the
    same positional arguments and the same keyword items. *)
Lemma cache_key_plain_inj (a b : arguments) (ka kb : keywords) :
  plain_call a ka = true → plain_call b kb = true →
  cache_key a ka = cache_key b kb → a = b ∧ sorted ka = sorted kb.
Proof.
  unfold plain_call, cache_key.
  intros [Ha Hka]%andb_true_iff [Hb Hkb]%andb_true_iff E.
  change (str (VTuple a)) with (repr (VTuple a)) in E.
  change (str (VTuple b)) with (repr (VTuple b)) in E.
  change (str (VList ?l)) with (repr (VList l)) in E.
  change (str (VList (item_tuple <$> sorted kb)))
    with (repr (VList (item_tuple <$> sorted kb))) in E.
  apply ReprFacts.repr_determined in E as [[= ->] E]; [|done..| |].
  - split; [done|].
    rewrite <-(StringFacts.app_empty_r (repr (VList (item_tuple <$> sorted ka)))),
            <-(StringFacts.app_empty_r (repr (VList (item_tuple <$> sorted kb)))) in E.
    apply ReprFacts.repr_determined in E as [[= E] _];
      [|by apply sorted_items_plain..|done|done].
    by apply (inj (fmap item_tuple)) in E.
  - reflexivity.
  - reflexivity.
Qed.

(** Plain calls that differ have different keys. *)
Lemma cache_key_plain_ne (a b : arguments) (ka kb : keywords) :
  plain_call a ka = true → plain_call b kb = true →
  a ≠ b ∨ ¬ ka ≡ₚ kb →
  cache_key a ka ≠ cache_key b kb.
Proof.
  intros Ha Hb Hne E.
  destruct (cache_key_plain_inj a b ka kb Ha Hb E) as [-> Hs].
  destruct Hne as [?|Hne]; [done|]. by apply Hne, sorted_same_dict.
Qed.

End KeyFacts.

(** ** Emptying the dictionary of [decorator.py] *)

Module ClearFacts.
Import Decorator.

Section ghost.
Context {W : Type}.
Implicit Types (s t : store W).
Implicit Types (f : arguments → keywords → W → outcome pyval * W).

(** The wrapper never reads the log: on closures alike it returns the same
    outcome, leaves closures alike, and appends the same invocations. *)
Lemma wrapper_alike f args kwargs s t :
  alike s t →
  (wrapper (external f) args kwargs s).1 = (wrapper (external f) args kwargs t).1
  ∧ alike (wrapper (external f) args kwargs s).2 (wrapper (external f) args kwargs t).2
  ∧ ∃ new,
      invoked (wrapper (external f) args kwargs s).2 = (invoked s ++ new)%list
      ∧ invoked (wrapper (external f) args kwargs t).2 = (invoked t ++ new)%list.
Proof.
  intros [Hc Hw].
  destruct (cache_value s !! cache_key args kwargs) as [cached|] eqn:Hk.
  - rewrite (DecoratorFacts.wrapper_hit _ _ _ s cached Hk).
    rewrite (DecoratorFacts.wrapper_hit _ _ _ t cached); [|by rewrite <-Hc].
    repeat split; [done..|]. exists []. by rewrite !app_nil_r.
  - destruct (f args kwargs (world s)) as [[result|e] w'] eqn:Hf.
    + rewrite (DecoratorFacts.wrapper_miss_return _ _ _ s result w' Hk Hf).
      rewrite (DecoratorFacts.wrapper_miss_return _ _ _ t result w');
        [|by rewrite <-Hc|by rewrite <-Hw].
      repeat split; simpl; [by rewrite Hc|]. by exists [(args, kwargs)].
    + rewrite (DecoratorFacts.wrapper_miss_raise _ _ _ s e w' Hk Hf).
      rewrite (DecoratorFacts.wrapper_miss_raise _ _ _ t e w');
        [|by rewrite <-Hc|by rewrite <-Hw].
      repeat split; simpl; [done|]. by exists [(args, kwargs)].
Qed.

Lemma run_alike f calls s t :
  alike s t →
  (run (external f) calls s).1 = (run (external f) calls t).1
  ∧ alike (run (external f) calls s).2 (run (external f) calls t).2
  ∧ ∃ new,
      invoked (run (external f) calls s).2 = (invoked s ++ new)%list
      ∧ invoked (run (external f) calls t).2 = (invoked t ++ new)%list.
Proof.
  revert s t. induction calls as [|[args kwargs] calls IH]; intros s t Hst.
  - repeat split; try apply Hst. exists []. by rewrite !app_nil_r.
  - rewrite !DecoratorFacts.run_cons. cbn [fst snd].
    destruct (wrapper_alike f args kwargs s t Hst) as (Ho & Hst1 & new1 & Hs1 & Ht1).
    destruct (IH _ _ Hst1) as (Hos & Hst2 & new2 & Hs2 & Ht2).
    repeat split; [by rewrite Ho, Hos|apply Hst2..|].
    exists (new1 ++ new2)%list.
    by rewrite Hs2, Ht2, Hs1, Ht1, !(assoc_L (++)).
Qed.

End ghost.
End ClearFacts.

(** ** [fibonacci] under the cache *)

Module FibonacciFacts.
Import Decorator Text StringFacts.

Lemma cache_key_int (m : Z) : cache_key [VInt m] [] = "(" +:+ pretty m +:+ ",)[]".
Proof.
  unfold cache_key. simpl. unfold repr_int. by rewrite !app_assoc.
Qed.

(** Different integers have different keys. *)
Lemma cache_key_int_inj (m n : Z) :
  cache_key [VInt m] [] = cache_key [VInt n] [] → m = n.
Proof.
  rewrite !cache_key_int, !app_cons, !app_empty. intros [= E].
  by apply app_inj_ending, (inj pretty) in E.
Qed.

Lemma fib_recurrence_unfold (n : Z) :
  fib_recurrence n
  = if decide (n ≤ 1)%Z then n else (fib_recurrence (n - 1) + fib_recurrence (n - 2))%Z.
Proof.
  rewrite (fib_recurrence_equation_1 n). by destruct (decide (n ≤ 1)%Z).
Qed.

Lemma fib_recurrence_nat_step (k : nat) :
  fib_recurrence (Z.of_nat k) = fib_nat k
  ∧ fib_recurrence (Z.of_nat (S k)) = fib_nat (S k).
Proof.
  induction k as [|k [IH0 IH1]]; [by split|].
  split; [done|].
  rewrite fib_recurrence_unfold. destruct (decide _) as [|_]; [lia|].
  replace (Z.of_nat (S (S k)) - 1)%Z with (Z.of_nat (S k)) by lia.
  replace (Z.of_nat (S (S k)) - 2)%Z with (Z.of_nat k) by lia.
  by rewrite IH0, IH1.
Qed.

Lemma fib_recurrence_nat (k : nat) : fib_recurrence (Z.of_nat k) = fib_nat k.
Proof. apply fib_recurrence_nat_step. Qed.

(** The body on an integer argument. *)
Lemma fibonacci_body_int (self : computation unit) (n : Z) (s : store unit) :
  fibonacci_body self [VInt n] [] s
  = if decide (n ≤ 1)%Z then (Return (VInt n), s)
    else
      match self [VInt (n - 1)] [] s with
      | (Return a, s1) =>
          match self [VInt (n - 2)] [] s1 with
          | (Return b, s2) => (py_add a b, s2)
          | (Raise e, s2) => (Raise e, s2)
          end
      | (Raise e, s1) => (Raise e, s1)
      end.
Proof.
  unfold fibonacci_body, mbind, M_bind, lift, mret, M_ret. simpl.
  unfold bool_decide. by destruct (decide_rel Z.le n 1%Z), (decide (n ≤ 1)%Z).
Qed.

Lemma fibonacci_sound_insert (s : store unit) (n : Z) :
  fibonacci_sound s →
  fibonacci_sound
    (set_cache (<[cache_key [VInt n] [] := VInt (fib_recurrence n)]> (cache_value s)) s).
Proof.
  intros Hs m v. simpl. rewrite lookup_insert. case_decide as Hk.
  - apply cache_key_int_inj in Hk as ->. by intros [= <-].
  - apply Hs.
Qed.

(** With room for [n] nested calls, the decorated function returns the
    value of the recurrence and keeps the dictionary sound. *)
Lemma fibonacci_returns (depth : nat) (n : Z) (s : store unit) :
  fibonacci_sound s → (Z.to_nat n < depth)%nat →
  ∃ s', fibonacci depth [VInt n] [] s = (Return (VInt (fib_recurrence n)), s')
        ∧ fibonacci_sound s'.
Proof.
  revert n s. induction depth as [|depth IH]; intros n s Hs Hd; [lia|].
  cbn [fibonacci]. unfold wrapper.
  destruct (cache_value s !! cache_key [VInt n] []) as [cached|] eqn:Hk.
  { exists s. by rewrite (Hs n cached Hk). }
  rewrite fibonacci_body_int, (fib_recurrence_unfold n).
  destruct (decide (n ≤ 1)%Z) as [Hn|Hn].
  { eexists. split; [done|].
    replace n with (fib_recurrence n) at 2
      by (rewrite fib_recurrence_unfold; by destruct (decide _)).
    by apply (fibonacci_sound_insert (record_call [VInt n] [] s)). }
  destruct (IH (n - 1)%Z (record_call [VInt n] [] s)) as (s1 & -> & Hs1);
    [done|lia|].
  destruct (IH (n - 2)%Z s1) as (s2 & -> & Hs2); [done|lia|].
  cbn [py_add as_int]. eexists. split; [done|].
  replace (fib_recurrence (n - 1) + fib_recurrence (n - 2))%Z
    with (fib_recurrence n)
    by (rewrite (fib_recurrence_unfold n); by destruct (decide _)).
  by apply fibonacci_sound_insert.
Qed.

(** The same function without the decorator returns the same value. *)
Lemma fibonacci_undecorated_returns (depth : nat) (n : Z) (s : store unit) :
  (Z.to_nat n < depth)%nat →
  fibonacci_undecorated depth [VInt n] [] s = (Return (VInt (fib_recurrence n)), s).
Proof.
  revert n. induction depth as [|depth IH]; intros n Hd; [lia|].
  cbn [fibonacci_undecorated].
  rewrite fibonacci_body_int, (fib_recurrence_unfold n).
  destruct (decide (n ≤ 1)%Z) as [Hn|Hn]; [done|].
  rewrite !IH by lia. done.
Qed.

(** How a call can bind the one parameter [n]. *)
Lemma bind_n (args : arguments) (kwargs : keywords) (vs : list pyval) :
  bind_params [("n", None)] args kwargs = Return vs →
  ∃ n, vs = [n]
       ∧ ((args = [n] ∧ kwargs = []) ∨ (args = [] ∧ kwargs = [("n", n)])).
Proof.
  unfold bind_params.
  destruct args as [|a [|a' args]], kwargs as [|[k v] [|[k' v'] kwargs]];
    simpl; repeat (case_bool_decide; simpl); try done;
    intros [= <-]; subst; eauto.
Qed.

Lemma as_int_some (n : pyval) (z : Z) :
  as_int n = Some z → n = VInt z ∨ ∃ b, n = VBool b ∧ z = Z.b2z b.
Proof. destruct n; simpl; intros [= <-]; eauto. Qed.

(** The body once the call has bound [n]. *)
Lemma fibonacci_body_bound (self : computation unit) args kwargs n (s : store unit) :
  bind_params [("n", None)] args kwargs = Return [n] →
  fibonacci_body self args kwargs s
  = match as_int n with
    | None => (Raise TypeError, s)
    | Some z =>
        if decide (z ≤ 1)%Z then (Return n, s)
        else
          match self [VInt (z - 1)] [] s with
          | (Return a, s1) =>
              match self [VInt (z - 2)] [] s1 with
              | (Return b, s2) => (py_add a b, s2)
              | (Raise e, s2) => (Raise e, s2)
              end
          | (Raise e, s1) => (Raise e, s1)
          end
    end.
Proof.
  intros Hb. unfold fibonacci_body, mbind, M_bind, lift, mret, M_ret.
  rewrite Hb. unfold py_le_int, py_sub_int.
  destruct (as_int n) as [z|]; [|done]. unfold bool_decide.
  by destruct (decide_rel Z.le z 1%Z), (decide (z ≤ 1)%Z).
Qed.

Lemma fibonacci_body_unbound (self : computation unit) args kwargs e (s : store unit) :
  bind_params [("n", None)] args kwargs = Raise e →
  fibonacci_body self args kwargs s = (Raise e, s).
Proof.
  intros Hb. unfold fibonacci_body, mbind, M_bind, lift. by rewrite Hb.
Qed.

Lemma fibonacci_sound_record (s : store unit) args kwargs :
  fibonacci_sound s → fibonacci_sound (record_call args kwargs s).
Proof. done. Qed.

Lemma fibonacci_sound_insert_other (s : store unit) (key : string) (v : pyval) :
  (∀ m, key ≠ cache_key [VInt m] []) →
  fibonacci_sound s →
  fibonacci_sound (set_cache (<[key := v]> (cache_value s)) s).
Proof.
  intros Hkey Hs m w. simpl. rewrite lookup_insert_ne by apply Hkey. apply Hs.
Qed.

(** Whatever room there is, a call on an integer keeps the dictionary
    sound, and its result, if it has one, is the value of the recurrence. *)
Lemma fibonacci_int_sound (depth : nat) (n : Z) (s : store unit) :
  fibonacci_sound s →
  fibonacci_sound (fibonacci depth [VInt n] [] s).2
  ∧ ((fibonacci depth [VInt n] [] s).1 = Return (VInt (fib_recurrence n))
     ∨ ∃ e, (fibonacci depth [VInt n] [] s).1 = Raise e).
Proof.
  revert n s. induction depth as [|depth IH]; intros n s Hs.
  { split; [done|]. right. by eexists. }
  cbn [fibonacci]. unfold wrapper.
  destruct (cache_value s !! cache_key [VInt n] []) as [cached|] eqn:Hk.
  { rewrite (Hs n cached Hk). split; [done|]. by left. }
  rewrite fibonacci_body_int, (fib_recurrence_unfold n).
  destruct (decide (n ≤ 1)%Z) as [Hn|Hn].
  { split; [|by left]. simpl.
    replace n with (fib_recurrence n) at 2
      by (rewrite fib_recurrence_unfold; by destruct (decide _)).
    by apply (fibonacci_sound_insert (record_call [VInt n] [] s)). }
  destruct (IH (n - 1)%Z (record_call [VInt n] [] s) Hs) as [Hs1 Ho1].
  destruct (fibonacci depth [VInt (n - 1)] [] (record_call [VInt n] [] s))
    as [o1 s1]. simpl in Hs1, Ho1.
  destruct Ho1 as [->|[e ->]]; [|split; [done|right; by eexists]].
  destruct (IH (n - 2)%Z s1 Hs1) as [Hs2 Ho2].
  destruct (fibonacci depth [VInt (n - 2)] [] s1) as [o2 s2]. simpl in Hs2, Ho2.
  destruct Ho2 as [->|[e ->]]; [|split; [done|right; by eexists]].
  cbn [py_add as_int]. split; [|by left]. simpl.
  replace (fib_recurrence (n - 1) + fib_recurrence (n - 2))%Z
    with (fib_recurrence n)
    by (rewrite (fib_recurrence_unfold n); by destruct (decide _)).
  by apply fibonacci_sound_insert.
Qed.

(** The key of a call that binds [n] to an integer or a boolean is the
    key of an integer only for the call [fibonacci(n)] on that integer. *)
Lemma cache_key_bound (args : arguments) (kwargs : keywords) (n : pyval) (z m : Z) :
  (args = [n] ∧ kwargs = []) ∨ (args = [] ∧ kwargs = [("n", n)]) →
  as_int n = Some z →
  cache_key args kwargs = cache_key [VInt m] [] →
  args = [VInt m] ∧ kwargs = [] ∧ z = m.
Proof.
  intros Hshape Hn E.
  assert (plain n = true) as Hp
    by (by destruct (as_int_some n z Hn) as [->|(b & -> & _)]).
  apply KeyFacts.cache_key_plain_inj in E as [-> Hkw].
  - destruct Hshape as [[[= <-] ->]|[[=] _]]. simpl in Hn.
    injection Hn as <-. done.
  - unfold plain_call. destruct Hshape as [[-> ->]|[-> ->]]; simpl; by rewrite Hp.
  - done.
Qed.

(** Every call, with any arguments and any room, keeps the dictionary
    sound. *)
Lemma fibonacci_call_sound (depth : nat) args kwargs (s : store unit) :
  fibonacci_sound s → fibonacci_sound (fibonacci depth args kwargs s).2.
Proof.
  intros Hs. destruct depth as [|depth]; [done|].
  cbn [fibonacci]. unfold wrapper.
  destruct (cache_value s !! cache_key args kwargs) as [cached|] eqn:Hk; [done|].
  destruct (bind_params [("n", None)] args kwargs) as [vs|e] eqn:Hb;
    [|by rewrite (fibonacci_body_unbound _ _ _ e)].
  destruct (bind_n _ _ _ Hb) as (n & -> & Hshape).
  rewrite (fibonacci_body_bound _ _ _ n) by done.
  destruct (as_int n) as [z|] eqn:Hz; [|done].
  assert (∀ (s' : store unit) (v : pyval),
            fibonacci_sound s' →
            (args = [VInt z] → kwargs = [] → v = VInt (fib_recurrence z)) →
            fibonacci_sound
              (set_cache (<[cache_key args kwargs := v]> (cache_value s')) s'))
    as Hstore.
  { intros s' v Hs' Hv m w. simpl. rewrite lookup_insert. case_decide as Hkey.
    - destruct (cache_key_bound _ _ _ _ _ Hshape Hz Hkey) as (-> & -> & ->).
      intros [= <-]. by apply Hv.
    - apply Hs'. }
  destruct (decide (z ≤ 1)%Z) as [Hle|Hgt].
  { simpl. apply (Hstore (record_call args kwargs s)); [exact Hs|]. intros -> ->.
    destruct Hshape as [[[= <-] _]|[[=] _]].
    rewrite fib_recurrence_unfold. by destruct (decide _). }
  destruct (fibonacci_int_sound depth (z - 1) (record_call args kwargs s) Hs)
    as [Hs1 Ho1].
  destruct (fibonacci depth [VInt (z - 1)] [] (record_call args kwargs s))
    as [o1 s1]. simpl in Hs1, Ho1.
  destruct Ho1 as [->|[e ->]]; [|done].
  destruct (fibonacci_int_sound depth (z - 2) s1 Hs1) as [Hs2 Ho2].
  destruct (fibonacci depth [VInt (z - 2)] [] s1) as [o2 s2]. simpl in Hs2, Ho2.
  destruct Ho2 as [->|[e ->]]; [|done].
  cbn [py_add as_int]. simpl. apply Hstore; [done|]. intros _ _.
  rewrite (fib_recurrence_unfold z). by destruct (decide _).
Qed.

Lemma fibonacci_calls_sound (history : list (nat * arguments * keywords))
    (s : store unit) :
  fibonacci_sound s → fibonacci_sound (fibonacci_calls history s).
Proof.
  revert s. induction history as [|[[depth args] kwargs] history IH]; intros s Hs;
    [done|].
  simpl. by apply IH, fibonacci_call_sound.
Qed.

End FibonacciFacts.

(** ** Interleaved callers *)

Module ThreadsFacts.
Import Decorator Threads.

Section interleaving.
Context {W : Type}.
Variable f : arguments → keywords → W → outcome pyval * W.
Implicit Types (t : thread) (ts : list thread) (s : store W) (c : config W).

(** A thread left alone makes its three accesses in a row, and that is
    the wrapper of the sequential reading. *)
Lemma alone_is_wrapper args kwargs s :
  let t0 := {| th_args := args; th_kwargs := kwargs; th_pc := AtTest |} in
  let '(t1, s1) := step_thread f t0 s in
  let '(t2, s2) := step_thread f t1 s1 in
  let '(t3, s3) := step_thread f t2 s2 in
  (th_pc t3, s3)
  = (Done (wrapper (external f) args kwargs s).1, (wrapper (external f) args kwargs s).2).
Proof.
  unfold step_thread, wrapper. simpl.
  destruct (cache_value s !! cache_key args kwargs) as [cached|]; simpl; [done|].
  destruct (external f args kwargs (record_call args kwargs s)) as [[result|e] s1];
    by simpl.
Qed.

Lemma pending_insert ts i t t' :
  ts !! i = Some t →
  (pending (<[i := t']> ts) + may_call t = pending ts + may_call t')%nat.
Proof.
  unfold pending. revert i. induction ts as [|t0 ts IH]; intros [|i] Hi;
    simplify_eq/=; [lia|].
  specialize (IH i Hi). lia.
Qed.

Lemma pending_spawn n args kwargs : pending (spawn n args kwargs) = n.
Proof. unfold pending, spawn. induction n; simpl; [done|]. by f_equal. Qed.

Lemma calling_insert ts i t t' :
  ts !! i = Some t →
  (sum_list (calling <$> <[i := t']> ts) + calling t
   = sum_list (calling <$> ts) + calling t')%nat.
Proof.
  revert i. induction ts as [|t0 ts IH]; intros [|i] Hi; simplify_eq/=; [lia|].
  specialize (IH i Hi). lia.
Qed.

Lemma calling_finished ts :
  Forall finished ts → sum_list (calling <$> ts) = 0%nat.
Proof.
  induction 1 as [|t ts Ht _ IH]; [done|]. cbn [fmap list_fmap sum_list].
  fold (fmap (M:=list) calling ts). rewrite IH.
  unfold finished in Ht. unfold calling. by destruct (th_pc t).
Qed.

Lemma calling_spawn n args kwargs :
  sum_list (calling <$> spawn n args kwargs) = 0%nat.
Proof. unfold spawn. induction n; simpl; [done|]. by f_equal. Qed.

Section same_key.
Variables (args : arguments) (kwargs : keywords) (r : pyval) (n : nat) (s0 : store W).
Hypothesis f_returns : ∀ w, (f args kwargs w).1 = Return r.

Local Abbreviation invariant := (Threads.invariant args kwargs r n s0).
Local Abbreviation caller := (Threads.caller args kwargs r).

Lemma invariant_spawn :
  cache_value s0 !! cache_key args kwargs = None →
  invariant (spawn n args kwargs, s0).
Proof.
  intros Hmiss. unfold invariant, spawn. simpl. repeat split.
  - apply length_replicate.
  - apply Forall_replicate. unfold caller. simpl. auto.
  - by left.
  - exists 0%nat. rewrite Nat.add_0_r.
    pose proof (pending_spawn n args kwargs) as Hp. unfold spawn in Hp.
    rewrite Hp. repeat split; [lia|..|done].
    apply Forall_replicate. by left.
Qed.

Lemma invariant_step i c : invariant c → invariant (step f i c).
Proof.
  destruct c as [ts s]. unfold step. simpl.
  destruct (ts !! i) as [t|] eqn:Hi; [|done].
  intros (Hlen & Hcallers & Hcache & calls & Hlog & Hbound & Hnone).
  simpl in Hlen, Hcallers, Hcache, Hlog, Hbound, Hnone.
  pose proof (Forall_lookup_1 _ _ _ _ Hcallers Hi) as (Ha & Hk & Hpc).
  assert (∀ t', may_call t' ≤ 1)%nat as Hle1
    by (intros t'; unfold may_call; destruct (th_pc t'); lia).
  unfold step_thread. rewrite Ha, Hk.
  destruct Hpc as [Hpc|[Hpc|[Hpc|Hpc]]]; rewrite Hpc.
  - (* the test *)
    destruct Hcache as [Hmiss|Hhit].
    + rewrite Hmiss. unfold invariant. simpl.
      split; [by rewrite length_insert|].
      split; [apply Forall_insert; [done|]; by unfold caller; simpl; auto 8|].
      split; [by left|]. exists calls.
      pose proof (pending_insert ts i t (at_pc t AtCall) Hi) as Hp.
      unfold may_call in Hp at 1 2. rewrite Hpc in Hp. simpl in Hp.
      split; [done|]. split; [lia|]. intros Hz. split; [|done].
      apply Forall_insert; [by apply Hnone|]. by right.
    + rewrite Hhit. unfold invariant. simpl.
      split; [by rewrite length_insert|].
      split; [apply Forall_insert; [done|]; by unfold caller; simpl; auto 8|].
      split; [by right|]. exists calls.
      pose proof (pending_insert ts i t (at_pc t (Done (Return r))) Hi) as Hp.
      unfold may_call in Hp at 1 2. rewrite Hpc in Hp. simpl in Hp.
      split; [done|]. split; [lia|]. intros Hz.
      destruct (Hnone Hz) as [_ Hmiss]. congruence.
  - (* the call *)
    unfold external. simpl.
    pose proof (f_returns (world s)) as Hf.
    destruct (f args kwargs (world s)) as [o w']. simpl in Hf. subst o.
    unfold invariant. simpl.
    split; [by rewrite length_insert|].
    split; [apply Forall_insert; [done|]; by unfold caller; simpl; auto 8|].
    split; [done|]. exists (S calls).
    pose proof (pending_insert ts i t (at_pc t (AtStore r)) Hi) as Hp.
    unfold may_call in Hp at 1 2. rewrite Hpc in Hp. simpl in Hp.
    rewrite length_app. simpl. split; [lia|]. split; [lia|]. intros Hz. lia.
  - (* the store *)
    unfold invariant. simpl.
    split; [by rewrite length_insert|].
    split; [apply Forall_insert; [done|]; by unfold caller; simpl; auto 8|].
    split; [right; apply lookup_insert_eq|]. exists calls.
    pose proof (pending_insert ts i t (at_pc t (Done (Return r))) Hi) as Hp.
    unfold may_call in Hp at 1 2. rewrite Hpc in Hp. simpl in Hp.
    split; [done|]. split; [lia|]. intros Hz. destruct (Hnone Hz) as [Hw _].
    destruct (Forall_lookup_1 _ _ _ _ Hw Hi) as [?|?]; congruence.
  - (* done already *)
    unfold invariant. simpl. rewrite list_insert_id by done.
    split; [done|]. split; [done|]. split; [done|]. by exists calls.
Qed.

Lemma invariant_run schedule c :
  invariant c → invariant (run_schedule f schedule c).
Proof.
  revert c. induction schedule as [|i schedule IH]; intros c Hc; [done|].
  simpl. by apply IH, invariant_step.
Qed.

(** Once all callers are through: everyone holds [r], and the function
    ran at least once and at most once per caller. *)
Lemma all_finished c :
  (0 < n)%nat → invariant c → Forall finished c.1 →
  Forall (λ t, th_pc t = Done (Return r)) c.1
  ∧ (1 ≤ invocations s0 c.2 ≤ n)%nat.
Proof.
  intros Hn (Hlen & Hcallers & _ & calls & Hlog & Hbound & Hnone) Hfin. split.
  - apply Forall_forall. intros t Ht.
    rewrite Forall_forall in Hcallers, Hfin.
    destruct (Hcallers t Ht) as (_ & _ & [Hpc|[Hpc|[Hpc|Hpc]]]); [..|done];
      specialize (Hfin t Ht); unfold finished in Hfin; by rewrite Hpc in Hfin.
  - unfold invocations. rewrite Hlog.
    replace (length (invoked s0) + calls - length (invoked s0))%nat with calls by lia.
    split; [|lia]. destruct calls as [|calls]; [|lia]. exfalso.
    destruct (Hnone eq_refl) as [Hw _].
    destruct c.1 as [|t ts]; [simpl in Hlen; lia|].
    apply Forall_cons in Hw as [Hw _], Hfin as [Hfin _].
    unfold finished in Hfin. destruct Hw as [Hpc|Hpc]; by rewrite Hpc in Hfin.
Qed.

(** From any state the callers can reach: when all are through, the
    function has run once more for each caller that was about to call,
    and, if nothing was stored yet, once for each caller that tested
    before the first store. *)
Lemma early_tests_count schedule c :
  invariant c →
  Forall finished (run_schedule f schedule c).1 →
  length (invoked (run_schedule f schedule c).2)
  = (length (invoked c.2) + sum_list (calling <$> c.1)
     + match cache_value c.2 !! cache_key args kwargs with
       | None => early_tests f schedule c
       | Some _ => 0
       end)%nat.
Proof.
  revert c. induction schedule as [|i schedule IH]; intros c Hc Hfin.
  { simpl in *. rewrite (calling_finished _ Hfin). by destruct (_ !! _); lia. }
  cbn [run_schedule] in *.
  rewrite (IH (step f i c)) by (done || by apply invariant_step).
  cbn [early_tests]. clear IH Hfin.
  destruct c as [ts s]. unfold step. cbn [fst snd].
  destruct (ts !! i) as [t|] eqn:Hi; [|done].
  destruct Hc as (_ & Hcallers & Hcache & _). cbn [fst snd] in Hcallers, Hcache.
  pose proof (Forall_lookup_1 _ _ _ _ Hcallers Hi) as (Ha & Hk & Hpc).
  unfold step_thread. rewrite Ha, Hk. cbn [fmap option_fmap option_map].
  destruct Hpc as [Hpc|[Hpc|[Hpc|Hpc]]]; rewrite Hpc.
  - (* the test *)
    destruct Hcache as [Hmiss|Hhit].
    + rewrite Hmiss. cbn [fst snd]. rewrite Hmiss.
      pose proof (calling_insert ts i t (at_pc t AtCall) Hi) as Hp.
      unfold calling in Hp at 2 4. rewrite Hpc in Hp. simpl in Hp. lia.
    + rewrite Hhit. cbn [fst snd]. rewrite Hhit.
      pose proof (calling_insert ts i t (at_pc t (Done (Return r))) Hi) as Hp.
      unfold calling in Hp at 2 4. rewrite Hpc in Hp. simpl in Hp. lia.
  - (* the call *)
    unfold external. cbn [record_call world].
    pose proof (f_returns (world s)) as Hf.
    destruct (f args kwargs (world s)) as [o w']. simpl in Hf. subst o.
    cbn [fst snd set_world cache_value invoked].
    pose proof (calling_insert ts i t (at_pc t (AtStore r)) Hi) as Hp.
    unfold calling in Hp at 2 4. rewrite Hpc in Hp. simpl in Hp.
    unfold record_call. cbn [cache_value invoked]. rewrite length_app. simpl.
    destruct (cache_value s !! cache_key args kwargs); lia.
  - (* the store *)
    cbn [fst snd set_cache cache_value invoked]. rewrite lookup_insert_eq.
    pose proof (calling_insert ts i t (at_pc t (Done (Return r))) Hi) as Hp.
    unfold calling in Hp at 2 4. rewrite Hpc in Hp. simpl in Hp.
    destruct (cache_value s !! cache_key args kwargs); lia.
  - (* done already *)
    cbn [fst snd]. rewrite list_insert_id by done.
    destruct (cache_value s !! cache_key args kwargs); lia.
Qed.

End same_key.
End interleaving.
End ThreadsFacts.

(** * The properties claimed of the cache *)

(** C1.  A call whose key is not yet stored runs the wrapped function,
    stores its result under the key and returns it; the next call with an
    equal key returns the stored result without running the function.  Two
    calls: one invocation, two equal results.  In [decorator.py] the key is
    the string built from the arguments, in [03_decorator.py] the tuple of
    (hashable) positional arguments. *)
Theorem C1_two_calls_one_invocation :
  (∀ W (f : arguments → keywords → W → outcome pyval * W) (s : Decorator.store W)
     args kwargs args' kwargs' result w',
     Decorator.cache_value s !! Decorator.cache_key args kwargs = None →
     f args kwargs (Decorator.world s) = (Return result, w') →
     Decorator.cache_key args' kwargs' = Decorator.cache_key args kwargs →
     Decorator.run (Decorator.external f) [(args, kwargs); (args', kwargs')] s
     = ([Return result; Return result],
        {| Decorator.cache_value :=
             <[Decorator.cache_key args kwargs := result]> (Decorator.cache_value s);
           Decorator.invoked := Decorator.invoked s ++ [(args, kwargs)];
           Decorator.world := w' |}))
  ∧
  (∀ W (f : arguments → keywords → W → outcome pyval * W) (s : Decorator03.store W)
     args args' result w',
     hashable (VTuple args) = true →
     Decorator03.dict_get args (Decorator03.cache_value s) = None →
     f args [] (Decorator03.world s) = (Return result, w') →
     args_eq args args' = true →
     Decorator03.run (Decorator03.external f) [(args, []); (args', [])] s
     = ([Return result; Return result],
        {| Decorator03.cache_value :=
             Decorator03.dict_set args result (Decorator03.cache_value s);
           Decorator03.invoked := Decorator03.invoked s ++ [args];
           Decorator03.world := w' |})).
Proof.
  split.
  - intros W f s args kwargs args' kwargs' result w' Hmiss Hf Hkey.
    rewrite !DecoratorFacts.run_cons.
    rewrite (DecoratorFacts.wrapper_miss_return _ _ _ _ _ _ Hmiss Hf).
    cbn [fst snd Decorator.run].
    rewrite (DecoratorFacts.wrapper_hit _ args' kwargs' _ result); [done|].
    simpl. rewrite Hkey. apply lookup_insert_eq.
  - intros W f s args args' result w' Hh Hmiss Hf Heq.
    rewrite !Decorator03Facts.run03_cons.
    rewrite (Decorator03Facts.wrapper03_miss_return _ _ _ _ _ Hh Hmiss Hf).
    cbn [fst snd Decorator03.run].
    rewrite (Decorator03Facts.wrapper03_hit _ args' _ result); [done| |].
    + by rewrite <-(py_eq_hashable _ _ Heq).
    + simpl. rewrite <-(Decorator03Facts.dict_get_proper _ _ _ Heq).
      apply Decorator03Facts.dict_get_set_eq.
Qed.

Lemma C1_two_calls_one_invocation_witness :
  Decorator.run (Decorator.external Decorator.process_large_file)
    [([VStr "data.txt"; VStr "read"], []); ([VStr "data.txt"; VStr "read"], [])]
    (Decorator.fresh ())
  = ([Return (VStr "Processed data.txt with read operation");
      Return (VStr "Processed data.txt with read operation")],
     {| Decorator.cache_value :=
          <[Decorator.cache_key [VStr "data.txt"; VStr "read"] [] :=
              VStr "Processed data.txt with read operation"]>
            (Decorator.cache_value (Decorator.fresh ()));
        Decorator.invoked :=
          Decorator.invoked (Decorator.fresh ()) ++ [([VStr "data.txt"; VStr "read"], [])];
        Decorator.world := () |})
  ∧
  Decorator03.run (Decorator03.external Decorator03.long_running_function)
    [([VInt 2; VInt 3], []); ([VInt 2; VInt 3], [])] (Decorator03.fresh ())
  = ([Return (VInt 5); Return (VInt 5)],
     {| Decorator03.cache_value :=
          Decorator03.dict_set [VInt 2; VInt 3] (VInt 5)
            (Decorator03.cache_value (Decorator03.fresh ()));
        Decorator03.invoked :=
          Decorator03.invoked (Decorator03.fresh ()) ++ [[VInt 2; VInt 3]];
        Decorator03.world := () |}).
Proof.
  split.
  - apply (proj1 C1_two_calls_one_invocation unit Decorator.process_large_file
             (Decorator.fresh ()) [VStr "data.txt"; VStr "read"] []
             [VStr "data.txt"; VStr "read"] []);
      reflexivity.
  - apply (proj2 C1_two_calls_one_invocation unit Decorator03.long_running_function
             (Decorator03.fresh ()) [VInt 2; VInt 3] [VInt 2; VInt 3]);
      reflexivity.
Defined.

(** C2.  When the wrapped function raises on a miss, the exception reaches
    the caller and the dictionary is left as it was: nothing is stored under
    the key.  The next call with the same arguments therefore runs the
    function again, and its outcome is what the function then does, not the
    earlier failure. *)
Theorem C2_failure_is_not_cached :
  (∀ W (f : arguments → keywords → W → outcome pyval * W) (s : Decorator.store W)
     args kwargs e w',
     Decorator.cache_value s !! Decorator.cache_key args kwargs = None →
     f args kwargs (Decorator.world s) = (Raise e, w') →
     let failed :=
       {| Decorator.cache_value := Decorator.cache_value s;
          Decorator.invoked := (Decorator.invoked s ++ [(args, kwargs)])%list;
          Decorator.world := w' |} in
     let retry := Decorator.wrapper (Decorator.external f) args kwargs failed in
     Decorator.wrapper (Decorator.external f) args kwargs s = (Raise e, failed)
     ∧ retry.1 = (f args kwargs w').1
     ∧ Decorator.invoked retry.2
       = (Decorator.invoked s ++ [(args, kwargs); (args, kwargs)])%list)
  ∧
  (∀ W (f : arguments → keywords → W → outcome pyval * W) (s : Decorator03.store W)
     args e w',
     hashable (VTuple args) = true →
     Decorator03.dict_get args (Decorator03.cache_value s) = None →
     f args [] (Decorator03.world s) = (Raise e, w') →
     let failed :=
       {| Decorator03.cache_value := Decorator03.cache_value s;
          Decorator03.invoked := (Decorator03.invoked s ++ [args])%list;
          Decorator03.world := w' |} in
     let retry := Decorator03.wrapper (Decorator03.external f) args [] failed in
     Decorator03.wrapper (Decorator03.external f) args [] s = (Raise e, failed)
     ∧ retry.1 = (f args [] w').1
     ∧ Decorator03.invoked retry.2 = (Decorator03.invoked s ++ [args; args])%list).
Proof.
  split.
  - intros W f s args kwargs e w' Hmiss Hf failed retry.
    split; [by apply DecoratorFacts.wrapper_miss_raise|].
    subst retry. destruct (f args kwargs w') as [[result|e'] w''] eqn:Hf'.
    + rewrite (DecoratorFacts.wrapper_miss_return f args kwargs failed result w'');
        [|done..].
      simpl. by rewrite <-(assoc_L (++)).
    + rewrite (DecoratorFacts.wrapper_miss_raise f args kwargs failed e' w'');
        [|done..].
      simpl. by rewrite <-(assoc_L (++)).
  - intros W f s args e w' Hh Hmiss Hf failed retry.
    split; [by apply Decorator03Facts.wrapper03_miss_raise|].
    subst retry. destruct (f args [] w') as [[result|e'] w''] eqn:Hf'.
    + rewrite (Decorator03Facts.wrapper03_miss_return f args failed result w'');
        [|done..].
      simpl. by rewrite <-(assoc_L (++)).
    + rewrite (Decorator03Facts.wrapper03_miss_raise f args failed e' w'');
        [|done..].
      simpl. by rewrite <-(assoc_L (++)).
Qed.

Lemma C2_failure_is_not_cached_witness :
  (let failed :=
     {| Decorator.cache_value := Decorator.cache_value (Decorator.fresh 0%nat);
        Decorator.invoked := (Decorator.invoked (Decorator.fresh 0%nat) ++ [([VInt 7], [])])%list;
        Decorator.world := 1%nat |} in
   let retry := Decorator.wrapper (Decorator.external flaky) [VInt 7] [] failed in
   Decorator.wrapper (Decorator.external flaky) [VInt 7] [] (Decorator.fresh 0%nat)
   = (Raise (OtherError "first call fails"), failed)
   ∧ retry.1 = (flaky [VInt 7] [] 1%nat).1
   ∧ Decorator.invoked retry.2
     = (Decorator.invoked (Decorator.fresh 0%nat) ++ [([VInt 7], []); ([VInt 7], [])])%list)
  ∧
  (let failed :=
     {| Decorator03.cache_value := Decorator03.cache_value (Decorator03.fresh 0%nat);
        Decorator03.invoked := (Decorator03.invoked (Decorator03.fresh 0%nat) ++ [[VInt 7]])%list;
        Decorator03.world := 1%nat |} in
   let retry := Decorator03.wrapper (Decorator03.external flaky) [VInt 7] [] failed in
   Decorator03.wrapper (Decorator03.external flaky) [VInt 7] [] (Decorator03.fresh 0%nat)
   = (Raise (OtherError "first call fails"), failed)
   ∧ retry.1 = (flaky [VInt 7] [] 1%nat).1
   ∧ Decorator03.invoked retry.2
     = (Decorator03.invoked (Decorator03.fresh 0%nat) ++ [[VInt 7]; [VInt 7]])%list).
Proof.
  split.
  - apply (proj1 C2_failure_is_not_cached nat flaky (Decorator.fresh 0%nat) [VInt 7] []);
      reflexivity.
  - apply (proj2 C2_failure_is_not_cached nat flaky (Decorator03.fresh 0%nat) [VInt 7]);
      reflexivity.
Defined.

(** C3.  An entry is created by the first call with its key that returns,
    and no call changes or removes an entry afterwards: a call leaves the
    dictionary as it is or adds one entry under a key that had none, over
    any sequence of calls the entries present stay as they are, and any two
    calls with equal keys that return, return the same value. *)
Theorem C3_referential_consistency :
  (∀ W (f : arguments → keywords → W → outcome pyval * W) (s : Decorator.store W) calls,
     (∀ args kwargs o s1,
        Decorator.wrapper (Decorator.external f) args kwargs s = (o, s1) →
        Decorator.cache_value s1 = Decorator.cache_value s
        ∨ (Decorator.cache_value s !! Decorator.cache_key args kwargs = None
           ∧ ∃ result, o = Return result
               ∧ Decorator.cache_value s1
                 = <[Decorator.cache_key args kwargs := result]> (Decorator.cache_value s)))
     ∧ Decorator.cache_value s
         ⊆ Decorator.cache_value (Decorator.run (Decorator.external f) calls s).2
     ∧ (∀ i j a k a' k' v,
          (i < j)%nat →
          calls !! i = Some (a, k) → calls !! j = Some (a', k') →
          Decorator.cache_key a k = Decorator.cache_key a' k' →
          (Decorator.run (Decorator.external f) calls s).1 !! i = Some (Return v) →
          (Decorator.run (Decorator.external f) calls s).1 !! j = Some (Return v)))
  ∧
  (∀ W (f : arguments → keywords → W → outcome pyval * W) (s : Decorator03.store W) calls,
     (∀ args kwargs o s1,
        Decorator03.wrapper (Decorator03.external f) args kwargs s = (o, s1) →
        Decorator03.cache_value s1 = Decorator03.cache_value s
        ∨ (Decorator03.dict_get args (Decorator03.cache_value s) = None
           ∧ ∃ result, o = Return result
               ∧ Decorator03.cache_value s1
                 = Decorator03.dict_set args result (Decorator03.cache_value s)))
     ∧ (∀ key v,
          Decorator03.dict_get key (Decorator03.cache_value s) = Some v →
          Decorator03.dict_get key
            (Decorator03.cache_value (Decorator03.run (Decorator03.external f) calls s).2)
          = Some v)
     ∧ (∀ i j a a' v,
          (i < j)%nat →
          calls !! i = Some (a, []) → calls !! j = Some (a', []) →
          args_eq a a' = true →
          (Decorator03.run (Decorator03.external f) calls s).1 !! i = Some (Return v) →
          (Decorator03.run (Decorator03.external f) calls s).1 !! j = Some (Return v))).
Proof.
  split; intros W f s calls; (split; [|split]).
  - intros args kwargs o s1. apply DecoratorFacts.wrapper_cache_step.
  - apply DecoratorFacts.run_cache_mono.
  - apply DecoratorFacts.run_consistent.
  - intros args kwargs o s1. apply Decorator03Facts.wrapper03_cache_step.
  - apply Decorator03Facts.run03_cache_mono.
  - apply Decorator03Facts.run03_consistent.
Qed.

Lemma C3_referential_consistency_witness :
  (Decorator.run (Decorator.external Decorator.process_large_file)
     [([VStr "data.txt"; VStr "read"], []);
      ([VStr "config.txt"; VStr "write"], []);
      ([VStr "data.txt"; VStr "read"], [])] (Decorator.fresh ())).1 !! 2%nat
  = Some (Return (VStr "Processed data.txt with read operation"))
  ∧
  (Decorator03.run (Decorator03.external Decorator03.long_running_function)
     [([VInt 2; VInt 3], []); ([VInt 1; VInt 1], []); ([VInt 2; VInt 3], [])]
     (Decorator03.fresh ())).1 !! 2%nat
  = Some (Return (VInt 5)).
Proof.
  split.
  - apply (proj2 (proj2 (proj1 C3_referential_consistency unit
             Decorator.process_large_file (Decorator.fresh ())
             [([VStr "data.txt"; VStr "read"], []);
              ([VStr "config.txt"; VStr "write"], []);
              ([VStr "data.txt"; VStr "read"], [])]))
           0%nat 2%nat [VStr "data.txt"; VStr "read"] []
           [VStr "data.txt"; VStr "read"] []);
      [lia|reflexivity..].
  - apply (proj2 (proj2 (proj2 C3_referential_consistency unit
             Decorator03.long_running_function (Decorator03.fresh ())
             [([VInt 2; VInt 3], []); ([VInt 1; VInt 1], []); ([VInt 2; VInt 3], [])]))
           0%nat 2%nat [VInt 2; VInt 3] [VInt 2; VInt 3]);
      [lia|reflexivity..].
Defined.

(** C4.  [decorator.py] exposes its dictionary as [wrapper.cache], and
    [wrapper.cache.clear()] empties it.  After that no key is stored, so a
    call with any arguments, cached before or not, runs the wrapped
    function again; and every sequence of later calls yields the outcomes,
    the dictionary, the world and the invocations it would yield on a
    wrapper that had never been called. *)
Theorem C4_clear_restores_miss_behaviour :
  ∀ W (f : arguments → keywords → W → outcome pyval * W) (s : Decorator.store W) calls,
    Decorator.inspect (Decorator.clear s) = ∅
    ∧ (∀ args kwargs,
         Decorator.invoked
           (Decorator.wrapper (Decorator.external f) args kwargs (Decorator.clear s)).2
         = (Decorator.invoked s ++ [(args, kwargs)])%list
         ∧ (Decorator.wrapper (Decorator.external f) args kwargs (Decorator.clear s)).1
           = (f args kwargs (Decorator.world s)).1)
    ∧ (let after := Decorator.run (Decorator.external f) calls (Decorator.clear s) in
       let scratch :=
         Decorator.run (Decorator.external f) calls (Decorator.fresh (Decorator.world s)) in
       after.1 = scratch.1
       ∧ Decorator.cache_value after.2 = Decorator.cache_value scratch.2
       ∧ Decorator.world after.2 = Decorator.world scratch.2
       ∧ Decorator.invoked after.2
         = (Decorator.invoked s ++ Decorator.invoked scratch.2)%list).
Proof.
  intros W f s calls. split; [done|]. split.
  - intros args kwargs.
    assert (Decorator.cache_value (Decorator.clear s)
              !! Decorator.cache_key args kwargs = None) as Hmiss
      by apply lookup_empty.
    destruct (f args kwargs (Decorator.world s)) as [[result|e] w'] eqn:Hf.
    + by rewrite (DecoratorFacts.wrapper_miss_return f args kwargs _ result w' Hmiss Hf).
    + by rewrite (DecoratorFacts.wrapper_miss_raise f args kwargs _ e w' Hmiss Hf).
  - intros after scratch.
    destruct (ClearFacts.run_alike f calls (Decorator.clear s)
                (Decorator.fresh (Decorator.world s)))
      as (Ho & [Hc Hw] & new & Hs & Ht); [done|].
    repeat split; [done..|].
    subst after scratch. rewrite Hs, Ht. done.
Qed.

(** C5.  The key is computed from the arguments alone, and the keyword
    arguments enter it sorted by name: two calls that pass the same
    names and values in different orders get the same key, so the second
    is answered from the dictionary. *)
Theorem C5_key_ignores_keyword_order :
  ∀ args kw1 kw2,
    NoDup (names kw1) → kw1 ≡ₚ kw2 →
    Decorator.cache_key args kw1 = Decorator.cache_key args kw2
    ∧ ∀ W (f : arguments → keywords → W → outcome pyval * W) (s : Decorator.store W)
        result w',
        Decorator.cache_value s !! Decorator.cache_key args kw1 = None →
        f args kw1 (Decorator.world s) = (Return result, w') →
        Decorator.run (Decorator.external f) [(args, kw1); (args, kw2)] s
        = ([Return result; Return result],
           {| Decorator.cache_value :=
                <[Decorator.cache_key args kw1 := result]> (Decorator.cache_value s);
              Decorator.invoked := (Decorator.invoked s ++ [(args, kw1)])%list;
              Decorator.world := w' |}).
Proof.
  intros args kw1 kw2 Hnd Hperm.
  pose proof (KeyFacts.cache_key_insertion_order args kw1 kw2 Hnd Hperm) as Hkey.
  split; [done|]. intros W f s result w' Hmiss Hf.
  rewrite !DecoratorFacts.run_cons.
  rewrite (DecoratorFacts.wrapper_miss_return _ _ _ _ _ _ Hmiss Hf).
  cbn [fst snd Decorator.run].
  rewrite (DecoratorFacts.wrapper_hit _ args kw2 _ result); [done|].
  simpl. rewrite <-Hkey. apply lookup_insert_eq.
Qed.

Lemma C5_key_ignores_keyword_order_witness :
  Decorator.cache_key [] [("operation", VStr "read"); ("filename", VStr "data.txt")]
  = Decorator.cache_key [] [("filename", VStr "data.txt"); ("operation", VStr "read")]
  ∧ Decorator.run (Decorator.external Decorator.process_large_file)
      [([], [("operation", VStr "read"); ("filename", VStr "data.txt")]);
       ([], [("filename", VStr "data.txt"); ("operation", VStr "read")])]
      (Decorator.fresh ())
    = ([Return (VStr "Processed data.txt with read operation");
        Return (VStr "Processed data.txt with read operation")],
       {| Decorator.cache_value :=
            <[Decorator.cache_key []
                [("operation", VStr "read"); ("filename", VStr "data.txt")] :=
                VStr "Processed data.txt with read operation"]>
              (Decorator.cache_value (Decorator.fresh ()));
          Decorator.invoked :=
            (Decorator.invoked (Decorator.fresh ())
               ++ [([], [("operation", VStr "read"); ("filename", VStr "data.txt")])])%list;
          Decorator.world := () |}).
Proof.
  assert (NoDup (names [("operation", VStr "read"); ("filename", VStr "data.txt")]))
    as Hnd by (apply (bool_decide_unpack _); vm_compute; exact I).
  pose proof (C5_key_ignores_keyword_order []
                [("operation", VStr "read"); ("filename", VStr "data.txt")]
                [("filename", VStr "data.txt"); ("operation", VStr "read")]
                Hnd (perm_swap _ _ _)) as [Hkey Hrun].
  split; [exact Hkey|].
  apply (Hrun unit Decorator.process_large_file (Decorator.fresh ())); reflexivity.
Defined.

(** C6, as claimed, fails in [decorator.py]: two different objects whose
    [__repr__] gives the same text are unequal arguments with one key.
    After a call with the first, a call with the second, which was never
    computed, does not run the function and returns the first one's
    result. *)
Lemma C6_distinct_arguments_share_a_key :
  args_eq [VObj 1 "A"] [VObj 2 "A"] = false
  ∧ Decorator.cache_value (Decorator.fresh ()) !! Decorator.cache_key [VObj 2 "A"] [] = None
  ∧ Decorator.run (Decorator.external first)
      [([VObj 1 "A"], []); ([VObj 2 "A"], [])] (Decorator.fresh ())
    = ([Return (VObj 1 "A"); Return (VObj 1 "A")],
       {| Decorator.cache_value := {[ "(A,)[]" := VObj 1 "A" ]};
          Decorator.invoked := [([VObj 1 "A"], [])];
          Decorator.world := () |})
  ∧ first [VObj 2 "A"] [] () = (Return (VObj 2 "A"), ()).
Proof. vm_compute. repeat split. Qed.

(** C6, amended.  Entries under different keys are independent: a call
    with arguments [a] leaves whatever is, or is not, stored for [b]
    untouched, so a later call with [b] still runs the function if [b]'s key
    had no entry, and still returns the stored value if it had one.  In
    [03_decorator.py] the keys of [a] and [b] differ as soon as [a != b].
    In [decorator.py] they differ when the strings built from them differ,
    and these do differ for any two different calls whose argument values
    are [None], booleans, integers, strings, tuples and lists. *)
Theorem C6_entries_of_other_keys_untouched :
  (∀ W (f : arguments → keywords → W → outcome pyval * W) (s : Decorator.store W)
     a ka b kb o s1,
     Decorator.cache_key a ka ≠ Decorator.cache_key b kb →
     Decorator.wrapper (Decorator.external f) a ka s = (o, s1) →
     Decorator.cache_value s1 !! Decorator.cache_key b kb
     = Decorator.cache_value s !! Decorator.cache_key b kb
     ∧ (Decorator.cache_value s !! Decorator.cache_key b kb = None →
        Decorator.invoked (Decorator.wrapper (Decorator.external f) b kb s1).2
        = (Decorator.invoked s1 ++ [(b, kb)])%list)
     ∧ (∀ v, Decorator.cache_value s !! Decorator.cache_key b kb = Some v →
             Decorator.wrapper (Decorator.external f) b kb s1 = (Return v, s1)))
  ∧
  (∀ a ka b kb,
     Text.plain_call a ka = true → Text.plain_call b kb = true →
     a ≠ b ∨ ¬ ka ≡ₚ kb →
     Decorator.cache_key a ka ≠ Decorator.cache_key b kb)
  ∧
  (∀ W (f : arguments → keywords → W → outcome pyval * W) (s : Decorator03.store W)
     a ka b o s1,
     args_eq a b = false →
     hashable (VTuple b) = true →
     Decorator03.wrapper (Decorator03.external f) a ka s = (o, s1) →
     Decorator03.dict_get b (Decorator03.cache_value s1)
     = Decorator03.dict_get b (Decorator03.cache_value s)
     ∧ (Decorator03.dict_get b (Decorator03.cache_value s) = None →
        Decorator03.invoked (Decorator03.wrapper (Decorator03.external f) b [] s1).2
        = (Decorator03.invoked s1 ++ [b])%list)
     ∧ (∀ v, Decorator03.dict_get b (Decorator03.cache_value s) = Some v →
             Decorator03.wrapper (Decorator03.external f) b [] s1 = (Return v, s1))).
Proof.
  split; [|split].
  - intros W f s a ka b kb o s1 Hne Hcall.
    pose proof (DecoratorFacts.wrapper_other_key f a ka s o s1 _ Hne Hcall) as Hsame.
    split; [done|]. rewrite <-Hsame. split.
    + intros Hmiss. destruct (f b kb (Decorator.world s1)) as [[result|e] w'] eqn:Hf.
      * by rewrite (DecoratorFacts.wrapper_miss_return f b kb s1 result w' Hmiss Hf).
      * by rewrite (DecoratorFacts.wrapper_miss_raise f b kb s1 e w' Hmiss Hf).
    + intros v Hhit. by apply DecoratorFacts.wrapper_hit.
  - intros a ka b kb. apply KeyFacts.cache_key_plain_ne.
  - intros W f s a ka b o s1 Hne Hh Hcall.
    pose proof (Decorator03Facts.wrapper03_other_key f a ka s o s1 _ Hne Hcall) as Hsame.
    split; [done|]. rewrite <-Hsame. split.
    + intros Hmiss. destruct (f b [] (Decorator03.world s1)) as [[result|e] w'] eqn:Hf.
      * by rewrite (Decorator03Facts.wrapper03_miss_return f b s1 result w' Hh Hmiss Hf).
      * by rewrite (Decorator03Facts.wrapper03_miss_raise f b s1 e w' Hh Hmiss Hf).
    + intros v Hhit. by apply Decorator03Facts.wrapper03_hit.
Qed.

Lemma C6_entries_of_other_keys_untouched_witness :
  (Decorator.cache_value
     (Decorator.wrapper (Decorator.external square) [VInt 4] [] (Decorator.fresh ())).2
     !! Decorator.cache_key [VInt 5] []
   = Decorator.cache_value (Decorator.fresh ()) !! Decorator.cache_key [VInt 5] [])
  ∧
  Decorator.cache_key [VStr "data.txt"; VStr "read"] []
  ≠ Decorator.cache_key [VStr "data.txt"] [("operation", VStr "read")]
  ∧
  (Decorator03.dict_get [VInt 5]
     (Decorator03.cache_value
        (Decorator03.wrapper (Decorator03.external square) [VInt 4] []
           (Decorator03.fresh ())).2)
   = Decorator03.dict_get [VInt 5] (Decorator03.cache_value (Decorator03.fresh ()))).
Proof.
  split; [|split].
  - apply (proj1 C6_entries_of_other_keys_untouched unit square
             (Decorator.fresh ()) [VInt 4] [] [VInt 5] [] (Return (VInt 16)));
      [by vm_compute|reflexivity].
  - apply (proj1 (proj2 C6_entries_of_other_keys_untouched)
             [VStr "data.txt"; VStr "read"] []
             [VStr "data.txt"] [("operation", VStr "read")]);
      [reflexivity|reflexivity|left; discriminate].
  - apply (proj2 (proj2 C6_entries_of_other_keys_untouched) unit square
             (Decorator03.fresh ()) [VInt 4] [] [VInt 5] (Return (VInt 16)));
      reflexivity.
Defined.

(** C7, as claimed, fails: the wrapper takes no lock.  Two threads that
    both test the dictionary before either has stored its result both run
    the function. *)
Lemma C7_two_callers_two_invocations :
  Threads.run_schedule square [0; 1; 0; 1; 0; 1]%nat
    (Threads.spawn 2 [VInt 4] [], Decorator.fresh ())
  = ([ {| Threads.th_args := [VInt 4]; Threads.th_kwargs := [];
          Threads.th_pc := Threads.Done (Return (VInt 16)) |};
       {| Threads.th_args := [VInt 4]; Threads.th_kwargs := [];
          Threads.th_pc := Threads.Done (Return (VInt 16)) |} ],
     {| Decorator.cache_value := {[ "(4,)[]" := VInt 16 ]};
        Decorator.invoked := [([VInt 4], []); ([VInt 4], [])];
        Decorator.world := () |}).
Proof. vm_compute. reflexivity. Qed.

(** C7, amended.  When [n] callers run the wrapper at once with the same
    arguments, on a key not yet stored and a function that returns [r] for
    them, then however their accesses interleave, once all are through
    every caller has received [r], and the function has run exactly once
    for each caller that tested the dictionary before the first result
    was stored: at least once, and at most [n] times. *)
Theorem C7_concurrent_callers :
  ∀ W (f : arguments → keywords → W → outcome pyval * W) (s : Decorator.store W)
    args kwargs r n schedule,
    (0 < n)%nat →
    (∀ w, (f args kwargs w).1 = Return r) →
    Decorator.cache_value s !! Decorator.cache_key args kwargs = None →
    Forall Threads.finished
      (Threads.run_schedule f schedule (Threads.spawn n args kwargs, s)).1 →
    Forall (λ t, Threads.th_pc t = Threads.Done (Return r))
      (Threads.run_schedule f schedule (Threads.spawn n args kwargs, s)).1
    ∧ Threads.invocations s
        (Threads.run_schedule f schedule (Threads.spawn n args kwargs, s)).2
      = Threads.early_tests f schedule (Threads.spawn n args kwargs, s)
    ∧ (1 ≤ Threads.invocations s
             (Threads.run_schedule f schedule (Threads.spawn n args kwargs, s)).2
       ≤ n)%nat.
Proof.
  intros W f s args kwargs r n schedule Hn Hf Hmiss Hfin.
  pose proof (ThreadsFacts.invariant_spawn args kwargs r n s Hmiss) as Hinv.
  destruct (ThreadsFacts.all_finished args kwargs r n s
              (Threads.run_schedule f schedule (Threads.spawn n args kwargs, s)))
    as [Hall Hbounds]; [done|by apply ThreadsFacts.invariant_run|done|].
  split; [done|]. split; [|done].
  unfold Threads.invocations.
  rewrite (ThreadsFacts.early_tests_count f args kwargs r n s Hf schedule _ Hinv Hfin).
  cbn [fst snd]. rewrite Hmiss, ThreadsFacts.calling_spawn. lia.
Qed.

Lemma C7_concurrent_callers_witness :
  Forall (λ t, Threads.th_pc t = Threads.Done (Return (VInt 16)))
    (Threads.run_schedule square [0; 1; 0; 0; 2; 1; 1]%nat
       (Threads.spawn 3 [VInt 4] [], Decorator.fresh ())).1
  ∧ Threads.invocations (Decorator.fresh ())
      (Threads.run_schedule square [0; 1; 0; 0; 2; 1; 1]%nat
         (Threads.spawn 3 [VInt 4] [], Decorator.fresh ())).2
    = Threads.early_tests square [0; 1; 0; 0; 2; 1; 1]%nat
        (Threads.spawn 3 [VInt 4] [], Decorator.fresh ())
  ∧ (1 ≤ Threads.invocations (Decorator.fresh ())
           (Threads.run_schedule square [0; 1; 0; 0; 2; 1; 1]%nat
              (Threads.spawn 3 [VInt 4] [], Decorator.fresh ())).2
     ≤ 3)%nat.
Proof.
  apply (C7_concurrent_callers unit square (Decorator.fresh ())
           [VInt 4] [] (VInt 16) 3%nat [0; 1; 0; 0; 2; 1; 1]%nat).
  - lia.
  - intros w. reflexivity.
  - reflexivity.
  - vm_compute. repeat constructor.
Defined.

(** C8, as claimed, fails in [decorator.py]: a list is not hashable, yet a
    call with a list argument raises nothing; the function runs and its
    result is stored under the string built from the list. *)
Lemma C8_list_argument_is_cached :
  hashable (VTuple [VList [VInt 1; VInt 2]]) = false
  ∧ Decorator.wrapper (Decorator.external first) [VList [VInt 1; VInt 2]] []
      (Decorator.fresh ())
    = (Return (VList [VInt 1; VInt 2]),
       {| Decorator.cache_value := {[ "([1, 2],)[]" := VList [VInt 1; VInt 2] ]};
          Decorator.invoked := [([VList [VInt 1; VInt 2]], [])];
          Decorator.world := () |}).
Proof. vm_compute. repeat split. Qed.

(** C8, amended.  In [03_decorator.py] a call with an argument that cannot
    be hashed raises [TypeError] at once: the wrapped function is not run
    and the closure is left as it was.  In [decorator.py] such an argument
    is no error: its key is a string like any other, and on a miss the call
    runs the function and has the function's outcome. *)
Theorem C8_unhashable_argument :
  (∀ W (func : Decorator03.computation W) (s : Decorator03.store W) args,
     hashable (VTuple args) = false →
     Decorator03.wrapper func args [] s = (Raise TypeError, s))
  ∧
  (∀ W (f : arguments → keywords → W → outcome pyval * W) (s : Decorator.store W)
     args kwargs,
     hashable (VTuple args) = false →
     Decorator.cache_value s !! Decorator.cache_key args kwargs = None →
     (Decorator.wrapper (Decorator.external f) args kwargs s).1
     = (f args kwargs (Decorator.world s)).1
     ∧ Decorator.invoked (Decorator.wrapper (Decorator.external f) args kwargs s).2
       = (Decorator.invoked s ++ [(args, kwargs)])%list).
Proof.
  split.
  - intros W func s args. apply Decorator03Facts.wrapper03_unhashable.
  - intros W f s args kwargs _ Hmiss.
    destruct (f args kwargs (Decorator.world s)) as [[result|e] w'] eqn:Hf.
    + by rewrite (DecoratorFacts.wrapper_miss_return f args kwargs s result w' Hmiss Hf).
    + by rewrite (DecoratorFacts.wrapper_miss_raise f args kwargs s e w' Hmiss Hf).
Qed.

Lemma C8_unhashable_argument_witness :
  Decorator03.wrapper (Decorator03.external first) [VList [VInt 1; VInt 2]] []
    (Decorator03.fresh ())
  = (Raise TypeError, Decorator03.fresh ())
  ∧
  ((Decorator.wrapper (Decorator.external first) [VList [VInt 1; VInt 2]] []
      (Decorator.fresh ())).1
   = (first [VList [VInt 1; VInt 2]] [] (Decorator.world (Decorator.fresh ()))).1
   ∧ Decorator.invoked
       (Decorator.wrapper (Decorator.external first) [VList [VInt 1; VInt 2]] []
          (Decorator.fresh ())).2
     = (Decorator.invoked (Decorator.fresh ()) ++ [([VList [VInt 1; VInt 2]], [])])%list).
Proof.
  split.
  - apply (proj1 C8_unhashable_argument unit (Decorator03.external first)
             (Decorator03.fresh ()) [VList [VInt 1; VInt 2]]).
    reflexivity.
  - apply (proj2 C8_unhashable_argument unit first (Decorator.fresh ())
             [VList [VInt 1; VInt 2]] []); reflexivity.
Defined.

(** C9, as claimed, fails in [03_decorator.py]: [long_running_function]
    takes its parameters by keyword, the wrapper around it does not. *)
Lemma C9_keyword_call_rejected :
  Decorator03.long_running_function [] [("a", VInt 2); ("b", VInt 3)] ()
  = (Return (VInt 5), ())
  ∧ Decorator03.wrapper (Decorator03.external Decorator03.long_running_function)
      [] [("a", VInt 2); ("b", VInt 3)] (Decorator03.fresh ())
    = (Raise TypeError, Decorator03.fresh ()).
Proof. vm_compute. repeat split. Qed.

(** C9, amended.  [decorator.py]'s wrapper takes any positional and keyword
    arguments and hands them to the function as they are: a call raises
    only what the function raises on these arguments.  [03_decorator.py]'s
    wrapper takes positional arguments only: a keyword argument raises
    [TypeError] before the function is reached, and otherwise a call raises
    only if an argument is unhashable or the function raises. *)
Theorem C9_accepted_arguments :
  (∀ W (f : arguments → keywords → W → outcome pyval * W) (s : Decorator.store W)
     args kwargs e s1,
     Decorator.wrapper (Decorator.external f) args kwargs s = (Raise e, s1) →
     (f args kwargs (Decorator.world s)).1 = Raise e)
  ∧
  (∀ W (func : Decorator03.computation W) (s : Decorator03.store W)
     args name v kwargs,
     Decorator03.wrapper func args ((name, v) :: kwargs) s = (Raise TypeError, s))
  ∧
  (∀ W (f : arguments → keywords → W → outcome pyval * W) (s : Decorator03.store W)
     args kwargs e s1,
     Decorator03.wrapper (Decorator03.external f) args kwargs s = (Raise e, s1) →
     (kwargs ≠ [] ∧ e = TypeError ∧ s1 = s)
     ∨ (hashable (VTuple args) = false ∧ e = TypeError ∧ s1 = s)
     ∨ (kwargs = [] ∧ (f args [] (Decorator03.world s)).1 = Raise e)).
Proof.
  split; [|split; [intros; apply Decorator03Facts.wrapper03_keyword|]].
  - intros W f s args kwargs e s1.
    destruct (Decorator.cache_value s !! Decorator.cache_key args kwargs)
      as [cached|] eqn:Hk.
    + by rewrite (DecoratorFacts.wrapper_hit _ _ _ _ _ Hk).
    + destruct (f args kwargs (Decorator.world s)) as [[result|e'] w'] eqn:Hf.
      * by rewrite (DecoratorFacts.wrapper_miss_return _ _ _ _ _ _ Hk Hf).
      * rewrite (DecoratorFacts.wrapper_miss_raise _ _ _ _ _ _ Hk Hf).
        by intros [= <- <-].
  - intros W f s args kwargs e s1.
    destruct kwargs as [|[name v] kwargs]; [|intros [= <- <-]; by left].
    destruct (hashable (VTuple args)) eqn:Hh;
      [|rewrite (Decorator03Facts.wrapper03_unhashable _ _ _ Hh);
        intros [= <- <-]; right; by left].
    destruct (Decorator03.dict_get args (Decorator03.cache_value s))
      as [cached|] eqn:Hk.
    + by rewrite (Decorator03Facts.wrapper03_hit _ _ _ _ Hh Hk).
    + destruct (f args [] (Decorator03.world s)) as [[result|e'] w'] eqn:Hf.
      * by rewrite (Decorator03Facts.wrapper03_miss_return _ _ _ _ _ Hh Hk Hf).
      * rewrite (Decorator03Facts.wrapper03_miss_raise _ _ _ _ _ Hh Hk Hf).
        intros [= <- <-]. by right; right.
Qed.

Lemma C9_accepted_arguments_witness :
  (Decorator.process_large_file [VStr "data.txt"] [("mode", VStr "read")]
     (Decorator.world (Decorator.fresh ()))).1 = Raise TypeError
  ∧
  (([("a", VInt 2)] ≠ [] ∧ TypeError = TypeError
    ∧ Decorator03.fresh () = Decorator03.fresh ())
   ∨ (hashable (VTuple [VInt 1]) = false ∧ TypeError = TypeError
      ∧ Decorator03.fresh () = Decorator03.fresh ())
   ∨ ([("a", VInt 2)] = []
      ∧ (Decorator03.long_running_function [VInt 1] []
           (Decorator03.world (Decorator03.fresh ()))).1 = Raise TypeError)).
Proof.
  split.
  - apply (proj1 C9_accepted_arguments unit Decorator.process_large_file
             (Decorator.fresh ()) [VStr "data.txt"] [("mode", VStr "read")] TypeError
             {| Decorator.cache_value := ∅;
                Decorator.invoked := [([VStr "data.txt"], [("mode", VStr "read")])];
                Decorator.world := () |}).
    reflexivity.
  - apply (proj2 (proj2 C9_accepted_arguments) unit Decorator03.long_running_function
             (Decorator03.fresh ()) [VInt 1] [("a", VInt 2)] TypeError
             (Decorator03.fresh ())).
    reflexivity.
Defined.

(** C10, as claimed, fails: not every integer gets the value of the
    recurrence.  With room for 500 nested calls, the first call
    [fibonacci(5000)] raises [RecursionError] after 500 calls of the
    body, and nothing is stored. *)
Lemma C10_deep_call_raises :
  (Decorator.fibonacci 500 [VInt 5000] [] (Decorator.fresh ())).1
  = Raise RecursionError
  ∧ Decorator.cache_value
      (Decorator.fibonacci 500 [VInt 5000] [] (Decorator.fresh ())).2 = ∅
  ∧ length (Decorator.invoked
              (Decorator.fibonacci 500 [VInt 5000] [] (Decorator.fresh ())).2)
    = 500%nat.
Proof. vm_compute. repeat split. Qed.

(** C10, amended.  Decorated or not, [fibonacci] computes the same
    function of an integer [n] as long as the interpreter leaves room for
    the nested calls.  Whatever calls were made before, with whatever
    arguments, a call [fibonacci(n)] with room for more than [n] nested
    calls returns the value of the recurrence, as the undecorated function
    does: [n] for [n <= 1], the sum of the two values before otherwise,
    and so the [n]th Fibonacci number for [n >= 0]. *)
Theorem C10_memoized_fibonacci_is_fibonacci :
  ∀ (history : list (nat * arguments * keywords)) (n : Z) (depth : nat),
    (Z.to_nat n < depth)%nat →
    (Decorator.fibonacci depth [VInt n] []
       (Decorator.fibonacci_calls history (Decorator.fresh ()))).1
    = Return (VInt (fib_recurrence n))
    ∧ (Decorator.fibonacci_undecorated depth [VInt n] []
         (Decorator.fibonacci_calls history (Decorator.fresh ()))).1
      = Return (VInt (fib_recurrence n))
    ∧ fib_recurrence n
      = (if decide (n ≤ 1)%Z then n
         else (fib_recurrence (n - 1) + fib_recurrence (n - 2))%Z)
    ∧ ((0 ≤ n)%Z → fib_recurrence n = fib_nat (Z.to_nat n)).
Proof.
  intros history n depth Hd.
  assert (fibonacci_sound (Decorator.fibonacci_calls history (Decorator.fresh ())))
    as Hs.
  { apply FibonacciFacts.fibonacci_calls_sound. intros m v. simpl.
    by rewrite lookup_empty. }
  split.
  { by destruct (FibonacciFacts.fibonacci_returns depth n _ Hs Hd) as (s' & -> & _). }
  split; [by rewrite FibonacciFacts.fibonacci_undecorated_returns|].
  split; [apply FibonacciFacts.fib_recurrence_unfold|].
  intros Hn. rewrite <-FibonacciFacts.fib_recurrence_nat. f_equal. lia.
Qed.

Lemma C10_memoized_fibonacci_is_fibonacci_witness :
  (Decorator.fibonacci 11 [VInt 10] []
     (Decorator.fibonacci_calls
        [(5%nat, [VBool true], []); (3%nat, [VInt 30], []);
         (20%nat, [], [("n", VInt 7)])]
        (Decorator.fresh ()))).1
  = Return (VInt (fib_recurrence 10))
  ∧ (Decorator.fibonacci_undecorated 11 [VInt 10] []
       (Decorator.fibonacci_calls
          [(5%nat, [VBool true], []); (3%nat, [VInt 30], []);
           (20%nat, [], [("n", VInt 7)])]
          (Decorator.fresh ()))).1
    = Return (VInt (fib_recurrence 10))
  ∧ fib_recurrence 10
    = (if decide (10 ≤ 1)%Z then 10%Z
       else (fib_recurrence (10 - 1) + fib_recurrence (10 - 2))%Z)
  ∧ ((0 ≤ 10)%Z → fib_recurrence 10 = fib_nat (Z.to_nat 10)).
Proof.
  apply (C10_memoized_fibonacci_is_fibonacci
           [(5%nat, [VBool true], []); (3%nat, [VInt 30], []);
            (20%nat, [], [("n", VInt 7)])] 10 11).
  vm_compute. lia.
Defined.

(** * Facts about the other decorators, and more about the caches *)

(** ** A cache around a function of its arguments alone *)

Module TransparencyFacts.
Import Text.

Section decorator.
Import Decorator.
Context {W : Type}.
Variable g : arguments → keywords → outcome pyval.
Hypothesis g_order : ∀ a k k', k ≡ₚ k' → g a k = g a k'.

Lemma faithful_call (s : store W) a k :
  faithful g s → plain_call a k = true →
  (wrapper (external (pure g)) a k s).1 = g a k
  ∧ faithful g (wrapper (external (pure g)) a k s).2.
Proof.
  intros Hs Hp.
  destruct (cache_value s !! cache_key a k) as [cached|] eqn:Hk.
  - rewrite (DecoratorFacts.wrapper_hit _ _ _ _ _ Hk). simpl.
    split; [symmetry; by apply Hs|done].
  - destruct (g a k) as [v|e] eqn:Hg.
    + rewrite (DecoratorFacts.wrapper_miss_return (pure g) a k s v (world s) Hk);
        [|unfold pure; by rewrite Hg].
      split; [done|]. intros a' k' v' Hp'. simpl. rewrite lookup_insert.
      case_decide as Hkey; [|by apply Hs].
      intros [= <-].
      apply KeyFacts.cache_key_plain_inj in Hkey as [-> Hsort]; [|done..].
      rewrite <-Hg. apply g_order. symmetry. by apply KeyFacts.sorted_same_dict.
    + rewrite (DecoratorFacts.wrapper_miss_raise (pure g) a k s e (world s) Hk);
        [|unfold pure; by rewrite Hg].
      split; [done|]. exact Hs.
Qed.

Lemma faithful_run (calls : list (arguments * keywords)) (s : store W) :
  faithful g s →
  Forall (λ c, plain_call c.1 c.2 = true) calls →
  (run (external (pure g)) calls s).1 = (λ c, g c.1 c.2) <$> calls.
Proof.
  revert s. induction calls as [|[a k] calls IH]; intros s Hs Hp; [done|].
  apply Forall_cons in Hp as [Hp Hps]. simpl in Hp.
  rewrite DecoratorFacts.run_cons. simpl.
  destruct (faithful_call s a k Hs Hp) as [-> Hs1]. f_equal. by apply IH.
Qed.

End decorator.

Section decorator03.
Import Decorator03.
Context {W : Type}.
Variable g : arguments → keywords → outcome pyval.
Hypothesis g_equal : ∀ a a', args_eq a a' = true → g a [] = g a' [].

Lemma faithful03_call (s : store W) a k :
  faithful03 g s →
  (wrapper (external (pure g)) a k s).1 = expected03 g (a, k)
  ∧ faithful03 g (wrapper (external (pure g)) a k s).2.
Proof.
  intros Hs. unfold expected03. cbn [fst snd].
  destruct k as [|[name v] k]; [|split; [done|exact Hs]].
  destruct (hashable (VTuple a)) eqn:Hh;
    [|rewrite (Decorator03Facts.wrapper03_unhashable _ _ _ Hh); split; [done|exact Hs]].
  destruct (dict_get a (cache_value s)) as [cached|] eqn:Hk.
  - rewrite (Decorator03Facts.wrapper03_hit _ _ _ _ Hh Hk). simpl.
    split; [symmetry; by apply Hs|done].
  - destruct (g a []) as [v|e] eqn:Hg.
    + rewrite (Decorator03Facts.wrapper03_miss_return (pure g) a s v (world s) Hh Hk);
        [|unfold pure; by rewrite Hg].
      split; [done|]. intros a' v'. simpl.
      destruct (args_eq a a') eqn:Heq.
      * rewrite <-(Decorator03Facts.dict_get_proper _ _ _ Heq),
          Decorator03Facts.dict_get_set_eq.
        intros [= <-]. by rewrite <-(g_equal _ _ Heq).
      * rewrite Decorator03Facts.dict_get_set_ne by done. apply Hs.
    + rewrite (Decorator03Facts.wrapper03_miss_raise (pure g) a s e (world s) Hh Hk);
        [|unfold pure; by rewrite Hg].
      split; [done|]. exact Hs.
Qed.

Lemma faithful03_run (calls : list (arguments * keywords)) (s : store W) :
  faithful03 g s →
  (run (external (pure g)) calls s).1 = expected03 g <$> calls.
Proof.
  revert s. induction calls as [|[a k] calls IH]; intros s Hs; [done|].
  rewrite Decorator03Facts.run03_cons. simpl.
  destruct (faithful03_call s a k Hs) as [-> Hs1]. f_equal. by apply IH.
Qed.

End decorator03.
End TransparencyFacts.

(** ** What the dictionary of [decorator.py] holds, and how much *)

Module ContentsFacts.
Import Decorator.

Section contents.
Context {W : Type}.
Implicit Types (s : store W).
Implicit Types (f : arguments → keywords → W → outcome pyval * W).

(** Every entry was there before or is what a call with its key returned,
    and what a call returned is there. *)
Lemma run_entries f calls s key v :
  cache_value (run (external f) calls s).2 !! key = Some v
  ↔ cache_value s !! key = Some v
    ∨ ∃ i a k, calls !! i = Some (a, k) ∧ cache_key a k = key
               ∧ (run (external f) calls s).1 !! i = Some (Return v).
Proof.
  revert s. induction calls as [|[a0 k0] calls IH]; intros s.
  { simpl. split; [by left|]. intros [?|(i & a & k & Hi & _)]; done. }
  rewrite DecoratorFacts.run_cons. cbn [fst snd]. rewrite IH.
  pose proof (surjective_pairing (wrapper (external f) a0 k0 s)) as Hcall.
  split.
  - intros [Hs1|(i & a & k & Hi & Hkey & Ho)].
    + destruct (DecoratorFacts.wrapper_cache_step f a0 k0 s _ _ Hcall)
        as [E|(Hmiss & result & Hres & E)]; rewrite E in Hs1; [by left|].
      rewrite lookup_insert in Hs1. case_decide as Hk; [|by left].
      injection Hs1 as <-. right. exists 0%nat, a0, k0. simpl.
      by rewrite Hres.
    + right. by exists (S i), a, k.
  - intros [Hs|(i & a & k & Hi & Hkey & Ho)].
    + left. eapply lookup_weaken; [exact Hs|].
      by eapply DecoratorFacts.wrapper_cache_mono.
    + destruct i as [|i]; simpl in Hi, Ho.
      * injection Hi as -> ->. injection Ho as Ho. left. rewrite <-Hkey.
        eapply DecoratorFacts.wrapper_return_stored. by rewrite <-Ho.
      * right. by exists i, a, k.
Qed.

(** Invocations and entries, counted. *)
Lemma wrapper_counts f a k s :
  let s1 := (wrapper (external f) a k s).2 in
  ∃ ran : nat,
    (ran ≤ 1)%nat
    ∧ length (invoked s1) = (length (invoked s) + ran)%nat
    ∧ (size (cache_value s1) ≤ size (cache_value s) + ran)%nat
    ∧ (size (cache_value s) ≤ size (cache_value s1))%nat
    ∧ ((∀ w, ∃ v w', f a k w = (Return v, w')) →
       size (cache_value s1) = (size (cache_value s) + ran)%nat).
Proof.
  destruct (cache_value s !! cache_key a k) as [cached|] eqn:Hk.
  - rewrite (DecoratorFacts.wrapper_hit _ _ _ _ _ Hk). exists 0%nat. simpl.
    repeat split; lia.
  - destruct (f a k (world s)) as [[result|e] w'] eqn:Hf.
    + rewrite (DecoratorFacts.wrapper_miss_return _ _ _ _ _ _ Hk Hf).
      exists 1%nat. simpl.
      rewrite length_app, (map_size_insert_None _ _ _ Hk). simpl.
      repeat split; lia.
    + rewrite (DecoratorFacts.wrapper_miss_raise _ _ _ _ _ _ Hk Hf).
      exists 1%nat. simpl. rewrite length_app. simpl.
      repeat split; try lia.
      intros Hret. destruct (Hret (world s)) as (v & w'' & Hv). congruence.
Qed.

Lemma run_counts f calls s :
  let s1 := (run (external f) calls s).2 in
  ∃ ran : nat,
    (ran ≤ length calls)%nat
    ∧ length (invoked s1) = (length (invoked s) + ran)%nat
    ∧ (size (cache_value s1) ≤ size (cache_value s) + ran)%nat
    ∧ ((∀ a k w, ∃ v w', f a k w = (Return v, w')) →
       size (cache_value s1) = (size (cache_value s) + ran)%nat).
Proof.
  revert s. induction calls as [|[a k] calls IH]; intros s.
  { exists 0%nat. simpl. repeat split; lia. }
  cbn zeta. rewrite DecoratorFacts.run_cons. cbn [fst snd].
  destruct (wrapper_counts f a k s) as (r1 & Hr1 & Hl1 & Hs1 & _ & He1).
  destruct (IH (wrapper (external f) a k s).2) as (r2 & Hr2 & Hl2 & Hs2 & He2).
  exists (r1 + r2)%nat. simpl. repeat split; try lia.
  intros Hret. rewrite (He2 Hret), He1 by (intros w; apply Hret). lia.
Qed.

End contents.
End ContentsFacts.

(** ** The first call of [fibonacci] *)

Module ColdFacts.
Import Decorator FibonacciFacts.

Lemma fib_table_lookup (n : nat) (m : Z) :
  fib_table n !! cache_key [VInt m] []
  = if decide (0 ≤ m ≤ Z.of_nat n)%Z then Some (VInt (fib_recurrence m)) else None.
Proof.
  revert m. induction n as [|n IH]; intros m; cbn [fib_table];
    rewrite lookup_insert;
    destruct (decide (cache_key _ _ = cache_key _ _)) as [Hk|Hk].
  - apply cache_key_int_inj in Hk as <-. rewrite fib_recurrence_nat.
    destruct (decide _) as [|Hn]; [done|lia].
  - rewrite lookup_empty. destruct (decide _) as [H|]; [|done].
    destruct Hk. do 3 f_equal. lia.
  - apply cache_key_int_inj in Hk as <-. rewrite fib_recurrence_nat.
    destruct (decide _) as [|Hn]; [done|lia].
  - rewrite IH. destruct (decide _) as [H|H], (decide _) as [H'|H']; try done; try lia.
    destruct Hk. do 3 f_equal. lia.
Qed.

Lemma fibonacci_hit (depth : nat) args kwargs (s : store unit) cached :
  cache_value s !! cache_key args kwargs = Some cached →
  fibonacci (S depth) args kwargs s = (Return cached, s).
Proof. intros Hk. cbn [fibonacci]. unfold wrapper. by rewrite Hk. Qed.

Lemma fibonacci_small (depth : nat) (n : Z) (s : store unit) :
  (n ≤ 1)%Z → cache_value s !! cache_key [VInt n] [] = None →
  fibonacci (S depth) [VInt n] [] s
  = (Return (VInt n),
     {| cache_value := <[cache_key [VInt n] [] := VInt n]> (cache_value s);
        invoked := invoked s ++ [([VInt n], [])];
        world := world s |}).
Proof.
  intros Hn Hk. cbn [fibonacci]. unfold wrapper. rewrite Hk, fibonacci_body_int.
  by destruct (decide _).
Qed.

Lemma fibonacci_large (depth : nat) (n : Z) (s s1 s2 : store unit) (a b : Z) :
  ¬ (n ≤ 1)%Z → cache_value s !! cache_key [VInt n] [] = None →
  fibonacci depth [VInt (n - 1)] [] (record_call [VInt n] [] s) = (Return (VInt a), s1) →
  fibonacci depth [VInt (n - 2)] [] s1 = (Return (VInt b), s2) →
  fibonacci (S depth) [VInt n] [] s
  = (Return (VInt (a + b)),
     set_cache (<[cache_key [VInt n] [] := VInt (a + b)]> (cache_value s2)) s2).
Proof.
  intros Hn Hk H1 H2. cbn [fibonacci]. unfold wrapper.
  rewrite Hk, fibonacci_body_int. destruct (decide _) as [|_]; [done|].
  by rewrite H1, H2.
Qed.

Lemma fibonacci_cold_step (n depth : nat) (s : store unit) :
  (S (S n) < depth)%nat → cache_value s = ∅ →
  fibonacci depth [VInt (Z.of_nat (S (S n)))] [] s
  = (Return (VInt (fib_nat (S (S n)))),
     {| cache_value := fib_table (S (S n));
        invoked := invoked s ++ countdown (S (S n));
        world := world s |}).
Proof.
  assert (∀ a b : Z, a ≠ b → cache_key [VInt a] [] ≠ cache_key [VInt b] [])
    as Hne by (intros a b Hab E; by apply cache_key_int_inj in E).
  revert depth s. induction n as [|n IH]; intros depth s Hd Hs.
  - destruct depth as [|[|depth]]; try lia.
    assert (cache_value s !! cache_key [VInt 2] [] = None) as Hk by (by rewrite Hs).
    assert (fibonacci (S depth) [VInt (2 - 1)] [] (record_call [VInt 2] [] s)
            = (Return (VInt 1),
               {| cache_value := <[cache_key [VInt 1] [] := VInt 1]> ∅;
                  invoked := (invoked s ++ [([VInt 2], [])]) ++ [([VInt 1], [])];
                  world := world s |})) as H1.
    { change (2 - 1)%Z with 1%Z. rewrite fibonacci_small; simpl; by rewrite ?Hs. }
    assert (fibonacci (S depth) [VInt (2 - 2)] []
              {| cache_value := <[cache_key [VInt 1] [] := VInt 1]> ∅;
                 invoked := (invoked s ++ [([VInt 2], [])]) ++ [([VInt 1], [])];
                 world := world s |}
            = (Return (VInt 0),
               {| cache_value :=
                    <[cache_key [VInt 0] [] := VInt 0]>
                      (<[cache_key [VInt 1] [] := VInt 1]> ∅);
                  invoked := ((invoked s ++ [([VInt 2], [])]) ++ [([VInt 1], [])])
                             ++ [([VInt 0], [])];
                  world := world s |})) as H2.
    { change (2 - 2)%Z with 0%Z. rewrite fibonacci_small; simpl; [done|lia|].
      by rewrite lookup_insert_ne by (apply Hne; lia). }
    change (Z.of_nat 2) with 2%Z.
    rewrite (fibonacci_large _ 2 s _ _ 1 0 ltac:(lia) Hk H1 H2).
    f_equal. unfold set_cache. cbn [cache_value invoked world fib_table countdown].
    rewrite <-!(assoc_L (++)). f_equal.
  - destruct depth as [|[|depth]]; try lia.
    assert (cache_value s !! cache_key [VInt (Z.of_nat (S (S (S n))))] [] = None)
      as Hk by (by rewrite Hs).
    pose proof (IH (S depth) (record_call [VInt (Z.of_nat (S (S (S n))))] [] s)
                  ltac:(lia) Hs) as H1.
    replace (Z.of_nat (S (S n))) with (Z.of_nat (S (S (S n))) - 1)%Z in H1 at 1 by lia.
    pose proof (fibonacci_hit depth [VInt (Z.of_nat (S (S (S n))) - 2)%Z] []
                  {| cache_value := fib_table (S (S n));
                     invoked := invoked (record_call [VInt (Z.of_nat (S (S (S n))))] [] s)
                                ++ countdown (S (S n));
                     world := world (record_call [VInt (Z.of_nat (S (S (S n))))] [] s) |}
                  (VInt (fib_nat (S n)))) as H2.
    specialize (H2 ltac:(cbn [cache_value]; rewrite fib_table_lookup, <-fib_recurrence_nat;
                         destruct (decide _) as [|Hn]; [do 3 f_equal|]; lia)).
    rewrite (fibonacci_large _ (Z.of_nat (S (S (S n)))) s _ _ _ _ ltac:(lia) Hk H1 H2).
    f_equal. unfold set_cache. cbn [cache_value invoked world record_call].
    by rewrite <-(assoc_L (++)).
Qed.

End ColdFacts.

(** ** The loop of [retry] *)

Module RetryFacts.
Import Guards Retry.

Section retry.
Context {W : Type}.
Variable f : positional → named → W → outcome value * W.
Variables max_attempts delay : Z.
Implicit Types (s : store W) (args : positional) (kwargs : named).

Lemma snoc_replicate {A} (l : list A) (k : nat) (x : A) :
  ((l ++ replicate k x) ++ [x] = l ++ replicate (S k) x)%list.
Proof.
  rewrite <-(assoc_L (++)). f_equal. induction k as [|k IH]; [done|].
  cbn [replicate app] in *. by rewrite IH.
Qed.

Lemma range_empty (n : Z) : (n ≤ 0)%Z → range n = [].
Proof. intros Hn. unfold range, seqZ. by replace (Z.to_nat n) with 0%nat by lia. Qed.

Lemma seqZ_step (i : Z) (len : nat) :
  seqZ i (Z.of_nat (S len)) = i :: seqZ (i + 1) (Z.of_nat len).
Proof.
  rewrite seqZ_cons by lia. do 2 f_equal; lia.
Qed.

Lemma failing_snoc args kwargs (k : nat) (w : W) :
  failing f args kwargs (S k) w
  = match failing f args kwargs k w with
    | Some (es, wk) =>
        match f args kwargs wk with
        | (Raise e, w') => Some ((es ++ [e])%list, w')
        | (Return _, _) => None
        end
    | None => None
    end.
Proof.
  revert w. induction k as [|k IH]; intros w.
  - simpl. by destruct (f args kwargs w) as [[v|e] w1].
  - change (failing f args kwargs (S (S k)) w)
      with (match f args kwargs w with
            | (Raise e, w1) =>
                match failing f args kwargs (S k) w1 with
                | Some (es, w2) => Some (e :: es, w2)
                | None => None
                end
            | (Return _, _) => None
            end).
    change (failing f args kwargs (S k) w)
      with (match f args kwargs w with
            | (Raise e, w1) =>
                match failing f args kwargs k w1 with
                | Some (es, w2) => Some (e :: es, w2)
                | None => None
                end
            | (Return _, _) => None
            end).
    destruct (f args kwargs w) as [[v|e] w1]; [done|].
    rewrite IH. destruct (failing f args kwargs k w1) as [[es wk]|]; [|done].
    by destruct (f args kwargs wk) as [[v|e'] w'].
Qed.

Lemma failing_length args kwargs (k : nat) (w w' : W) es :
  failing f args kwargs k w = Some (es, w') → length es = k.
Proof.
  revert w es. induction k as [|k IH]; intros w es; simpl.
  { intros [= <- _]. done. }
  destruct (f args kwargs w) as [[v|e] w1]; [done|].
  destruct (failing f args kwargs k w1) as [[es' w2]|] eqn:E; [|done].
  intros [= <- <-]. simpl. f_equal. by eapply IH.
Qed.

(** After [k] failures, none of them at the last attempt, the loop is
    where it started, [k] attempts further on. *)
Lemma attempts_failing args kwargs (k len : nat) (i : Z) s es wk :
  (i + Z.of_nat len = max_attempts)%Z → (k < len)%nat → (0 ≤ delay)%Z →
  failing f args kwargs k (world s) = Some (es, wk) →
  attempts max_attempts delay (external f) (seqZ i (Z.of_nat len)) args kwargs s
  = attempts max_attempts delay (external f)
      (seqZ (i + Z.of_nat k) (Z.of_nat (len - k))) args kwargs
      {| invoked := (invoked s ++ replicate k (args, kwargs))%list;
         slept := (slept s ++ replicate k delay)%list;
         world := wk |}.
Proof.
  revert len i s es wk. induction k as [|k IH]; intros len i s es wk Hi Hk Hd.
  - simpl. intros [= _ <-]. rewrite Z.add_0_r, Nat.sub_0_r, !app_nil_r.
    by destruct s.
  - destruct len as [|len]; [lia|].
    cbn [failing]. destruct (f args kwargs (world s)) as [[v|e] w1] eqn:Hf; [done|].
    destruct (failing f args kwargs k w1) as [[es' w2]|] eqn:Hk'; [|done].
    intros [= _ <-]. rewrite seqZ_step. cbn [attempts].
    unfold external at 1. cbn [record_call world]. rewrite Hf.
    rewrite bool_decide_eq_false_2 by lia.
    unfold sleep. rewrite bool_decide_eq_false_2 by lia.
    rewrite (IH len (i + 1)%Z _ es' w2); [|lia|lia|done|done].
    cbn [record_call record_sleep set_world invoked slept world].
    replace (i + 1 + Z.of_nat k)%Z with (i + Z.of_nat (S k))%Z by lia.
    by rewrite <-!(assoc_L (++)).
Qed.

(** The loop calls the function at most once for each attempt left, and
    sleeps once between two calls. *)
Lemma attempts_count args kwargs (len : nat) (i : Z) s :
  (i + Z.of_nat len = max_attempts)%Z →
  ∃ (n : nat) o w,
    (n ≤ len)%nat ∧ (len ≠ 0 → n ≠ 0)%nat
    ∧ attempts max_attempts delay (external f) (seqZ i (Z.of_nat len)) args kwargs s
      = (o, {| invoked := (invoked s ++ replicate n (args, kwargs))%list;
               slept := (slept s ++ replicate (n - 1) delay)%list;
               world := w |}).
Proof.
  revert i s. induction len as [|len IH]; intros i s Hi.
  { exists 0%nat, (Return (Val VNone)), (world s). simpl. rewrite !app_nil_r.
    by destruct s. }
  rewrite seqZ_step. cbn [attempts]. unfold external at 1.
  cbn [record_call world].
  destruct (f args kwargs (world s)) as [[v|e] w1] eqn:Hf.
  { exists 1%nat, (Return v), w1. simpl. rewrite app_nil_r. repeat split; lia. }
  case_bool_decide as Hlast.
  { exists 1%nat, (Raise e), w1. simpl. rewrite app_nil_r. repeat split; lia. }
  unfold sleep. case_bool_decide as Hd.
  { exists 1%nat, (Raise ValueError), w1. simpl. rewrite app_nil_r. repeat split; lia. }
  match goal with
  | |- context [attempts _ _ _ _ _ _ ?st] =>
      destruct (IH (i + 1)%Z st) as (n & o & w & Hn & Hn0 & ->); [lia|]
  end.
  exists (S n), o, w. split; [lia|]. split; [lia|].
  cbn [record_sleep set_world invoked slept].
  do 2 f_equal.
  - simpl. by rewrite <-(assoc_L (++)).
  - destruct n as [|n]; [lia|]. cbn [record_call slept]. simpl.
    by rewrite Nat.sub_0_r, <-(assoc_L (++)).
Qed.

(** [retry] with the range [range max_attempts]. *)
Lemma range_seqZ : range max_attempts = seqZ 0 (Z.of_nat (Z.to_nat max_attempts)).
Proof.
  unfold range. destruct (decide (0 ≤ max_attempts)%Z).
  - by rewrite Z2Nat.id.
  - unfold seqZ. by rewrite Nat2Z.id.
Qed.

Lemma retry_returns_after args kwargs (k : nat) s es wk v w' :
  (Z.of_nat k < max_attempts)%Z → (0 ≤ delay)%Z →
  failing f args kwargs k (world s) = Some (es, wk) →
  f args kwargs wk = (Return v, w') →
  retry max_attempts delay (external f) args kwargs s
  = (Return v,
     {| invoked := (invoked s ++ replicate (S k) (args, kwargs))%list;
        slept := (slept s ++ replicate k delay)%list;
        world := w' |}).
Proof.
  intros Hk Hd Hfail Hret. unfold retry. rewrite range_seqZ.
  rewrite (attempts_failing args kwargs k _ 0 s es wk) by (done || lia).
  destruct (Z.to_nat max_attempts - k)%nat as [|len] eqn:Hlen; [lia|].
  rewrite seqZ_step. cbn [attempts]. unfold external.
  cbn [record_call invoked slept world]. rewrite Hret.
  unfold set_world, record_call. cbn [invoked slept world].
  by rewrite snoc_replicate.
Qed.

Lemma retry_gives_up args kwargs (n : nat) s es wn :
  (1 ≤ max_attempts)%Z → n = Z.to_nat max_attempts → (0 ≤ delay)%Z →
  failing f args kwargs n (world s) = Some (es, wn) →
  ∃ e, last es = Some e
    ∧ retry max_attempts delay (external f) args kwargs s
      = (Raise e,
         {| invoked := (invoked s ++ replicate n (args, kwargs))%list;
            slept := (slept s ++ replicate (n - 1) delay)%list;
            world := wn |}).
Proof.
  intros Hm -> Hd. destruct (Z.to_nat max_attempts) as [|k] eqn:Hn; [lia|].
  rewrite failing_snoc.
  destruct (failing f args kwargs k (world s)) as [[es0 wk]|] eqn:Hfail; [|done].
  destruct (f args kwargs wk) as [[v|e] w'] eqn:Hlast; [done|].
  intros [= <- <-]. exists e. split; [by rewrite last_snoc|].
  unfold retry. rewrite range_seqZ, Hn.
  rewrite (attempts_failing args kwargs k _ 0 s es0 wk) by (done || lia).
  replace (S k - k)%nat with 1%nat by lia.
  rewrite seqZ_step. cbn [attempts]. unfold external.
  cbn [record_call invoked slept world]. rewrite Hlast.
  rewrite bool_decide_eq_true_2 by lia.
  unfold set_world, record_call. cbn [invoked slept world].
  rewrite snoc_replicate. by replace (S k - 1)%nat with k by lia.
Qed.

Lemma retry_count args kwargs s :
  ∃ (n : nat) o w,
    (Z.of_nat n ≤ Z.max 0 max_attempts)%Z
    ∧ retry max_attempts delay (external f) args kwargs s
      = (o, {| invoked := (invoked s ++ replicate n (args, kwargs))%list;
               slept := (slept s ++ replicate (n - 1) delay)%list;
               world := w |}).
Proof.
  unfold retry. destruct (decide (0 ≤ max_attempts)%Z) as [Hm|Hm].
  - rewrite range_seqZ.
    destruct (attempts_count args kwargs (Z.to_nat max_attempts) 0 s)
      as (n & o & w & Hn & _ & E); [lia|].
    exists n, o, w. split; [lia|done].
  - rewrite range_empty by lia. exists 0%nat, (Return (Val VNone)), (world s).
    simpl. rewrite !app_nil_r. split; [lia|by destruct s].
Qed.

End retry.
End RetryFacts.

(** ** The list of [rate_limit] *)

Module RateLimitFacts.
Import Guards RateLimit.

Section rate_limit.
Context {T W : Type}.
Variable elapsed_lt : T → T → Z → bool.
Variable f : positional → named → W → outcome value * W.
Variables max_calls time_window : Z.
Implicit Types (s : store T W) (args : positional) (kwargs : named).

Local Abbreviation live now l :=
  (filter (λ call_time, elapsed_lt now call_time time_window = true) l).
Local Abbreviation limited :=
  (wrapper elapsed_lt max_calls time_window (external f)).

(** What one call does to the list and to the log. *)
Lemma wrapper_lists now args kwargs s :
  let s' := (limited now args kwargs s).2 in
  if bool_decide (max_calls ≤ Z.of_nat (length (live now (calls s))))%Z
  then calls s' = live now (calls s) ∧ passed s' = passed s
  else calls s' = (live now (calls s) ++ [now])%list
       ∧ passed s' = (passed s ++ [now])%list.
Proof.
  unfold wrapper. case_bool_decide; [done|].
  unfold external. cbn [world record_passed set_calls].
  by destruct (f args kwargs (world s)) as [o w].
Qed.

Lemma limited_run_cons now args kwargs trace s :
  run limited ((now, args, kwargs) :: trace) s
  = ((limited now args kwargs s).1 :: (run limited trace (limited now args kwargs s).2).1,
     (run limited trace (limited now args kwargs s).2).2).
Proof.
  simpl. destruct (wrapper _ _ _ _ _ _ _ _) as [o s1].
  by destruct (run _ _ _) as [os s2].
Qed.

Lemma wrapper_bound now args kwargs s :
  (Z.of_nat (length (calls s)) ≤ Z.max 0 max_calls)%Z →
  (Z.of_nat (length (calls (limited now args kwargs s).2)) ≤ Z.max 0 max_calls)%Z.
Proof.
  intros Hs. pose proof (wrapper_lists now args kwargs s) as H. cbn zeta in H.
  pose proof (length_filter (λ call_time, elapsed_lt now call_time time_window = true)
                (calls s)).
  case_bool_decide; destruct H as [-> _]; [lia|].
  rewrite length_app. simpl. lia.
Qed.

Lemma run_bound trace s :
  (Z.of_nat (length (calls s)) ≤ Z.max 0 max_calls)%Z →
  (Z.of_nat (length (calls (run limited trace s).2)) ≤ Z.max 0 max_calls)%Z.
Proof.
  revert s. induction trace as [|[[now args] kwargs] trace IH]; intros s Hs; [done|].
  rewrite limited_run_cons. cbn [snd]. by apply IH, wrapper_bound.
Qed.

(** *** The window *)

Lemma stays_expired_tail call_time now later :
  stays_expired elapsed_lt time_window call_time (now :: later) = true →
  stays_expired elapsed_lt time_window call_time later = true.
Proof.
  simpl. destruct (elapsed_lt now call_time time_window); [done|].
  intros Hall. destruct later as [|now' later]; [done|].
  simpl in *. apply andb_true_iff in Hall as [Hn Hall].
  apply negb_true_iff in Hn. by rewrite Hn.
Qed.

Lemma stays_expired_later call_time now later u :
  stays_expired elapsed_lt time_window call_time (now :: later) = true →
  u ∈ later → elapsed_lt u call_time time_window = true →
  elapsed_lt now call_time time_window = true.
Proof.
  simpl. destruct (elapsed_lt now call_time time_window); [done|].
  intros Hall Hu Hlt. rewrite forallb_forall in Hall.
  apply list_elem_of_In, Hall in Hu. by rewrite Hlt in Hu.
Qed.

Lemma tracks_fresh (later : list T) (w : W) :
  tracks elapsed_lt time_window later (fresh w).
Proof. repeat split; intros ?; by rewrite ?elem_of_nil. Qed.

Lemma live_live (now u : T) (l : list T) :
  (∀ t, t ∈ l → elapsed_lt u t time_window = true →
        elapsed_lt now t time_window = true) →
  live u (live now l) = live u l.
Proof.
  intros Hl. induction l as [|t l IH]; [done|].
  rewrite !filter_cons.
  assert (∀ t', t' ∈ l → elapsed_lt u t' time_window = true →
                elapsed_lt now t' time_window = true) as Hl'
    by (intros t' Ht'; apply Hl; by right).
  specialize (Hl t ltac:(by left)).
  destruct (decide (elapsed_lt now t time_window = true)) as [Hn|Hn].
  - rewrite filter_cons. by rewrite IH.
  - destruct (decide (elapsed_lt u t time_window = true)) as [Hu|Hu]; [|by apply IH].
    by destruct Hn, Hl.
Qed.

Lemma tracks_step now later args kwargs s :
  coherent elapsed_lt time_window (now :: later) = true →
  tracks elapsed_lt time_window (now :: later) s →
  tracks elapsed_lt time_window later (limited now args kwargs s).2.
Proof.
  intros Hco (Hsub & Hexp & Hlive).
  apply andb_true_iff in Hco as [Hnow _].
  pose proof (wrapper_lists now args kwargs s) as H. cbn zeta in H.
  assert (∀ u, u ∈ later →
               live u (live now (calls s)) = live u (passed s)) as Hpruned.
  { intros u Hu. rewrite live_live; [apply Hlive; by right|].
    intros t Ht. apply (stays_expired_later _ _ later); [|done].
    by apply Hexp, Hsub. }
  case_bool_decide; destruct H as [Hc Ha]; unfold tracks; rewrite Hc, Ha.
  - split; [|split].
    + intros t Ht. apply list_elem_of_filter in Ht as [_ Ht]. by apply Hsub.
    + intros t Ht. by eapply stays_expired_tail, Hexp.
    + done.
  - split; [|split].
    + intros t Ht. apply elem_of_app in Ht as [Ht|Ht]; apply elem_of_app; [left|by right].
      apply list_elem_of_filter in Ht as [_ Ht]. by apply Hsub.
    + intros t Ht. apply elem_of_app in Ht as [Ht|Ht].
      * by eapply stays_expired_tail, Hexp.
      * apply list_elem_of_singleton in Ht as ->. done.
    + intros u Hu. by rewrite !filter_app, Hpruned.
Qed.

Lemma coherent_app l1 l2 :
  coherent elapsed_lt time_window (l1 ++ l2) = true →
  coherent elapsed_lt time_window l2 = true.
Proof.
  induction l1 as [|t l1 IH]; [done|]. simpl. intros H.
  apply andb_true_iff in H as [_ H]. by apply IH.
Qed.

Lemma tracks_run trace later s :
  coherent elapsed_lt time_window (trace.*1.*1 ++ later) = true →
  tracks elapsed_lt time_window (trace.*1.*1 ++ later) s →
  tracks elapsed_lt time_window later (run limited trace s).2.
Proof.
  revert s. induction trace as [|[[now args] kwargs] trace IH]; intros s Hco Hs; [done|].
  rewrite limited_run_cons. cbn [snd]. apply IH.
  - simpl in Hco. by apply andb_true_iff in Hco as [_ Hco].
  - by apply tracks_step.
Qed.

End rate_limit.
End RateLimitFacts.

(** ** Calls in quick succession *)

Module BurstFacts.
Import Guards RateLimit RateLimitFacts.

Section burst.
Context {T W : Type}.
Variable elapsed_lt : T → T → Z → bool.
Variable f : positional → named → W → outcome value * W.
Variables max_calls time_window : Z.
Implicit Types (s : store T W) (args : positional) (kwargs : named).

Local Abbreviation live now l :=
  (filter (λ call_time, elapsed_lt now call_time time_window = true) l).
Local Abbreviation limited :=
  (wrapper elapsed_lt max_calls time_window (external f)).

Lemma live_all (now : T) (l : list T) :
  (∀ t, t ∈ l → elapsed_lt now t time_window = true) → live now l = l.
Proof.
  intros Hl. induction l as [|t l IH]; [done|].
  rewrite filter_cons_True by (apply Hl; by left).
  f_equal. apply IH. intros t' Ht'. apply Hl. by right.
Qed.

Lemma burst_run trace s :
  (∀ t u, t ∈ calls s → u ∈ trace.*1.*1 → elapsed_lt u t time_window = true) →
  burst elapsed_lt time_window trace.*1.*1 = true →
  passed s = calls s →
  passed (run limited trace s).2 = calls (run limited trace s).2
  ∧ calls (run limited trace s).2
    = (calls s ++ take (Z.to_nat max_calls - length (calls s)) trace.*1.*1)%list.
Proof.
  revert s. induction trace as [|[[now args] kwargs] trace IH]; intros s Hin Hb Hs.
  { simpl. by rewrite take_nil, app_nil_r. }
  rewrite limited_run_cons. cbn [snd]. simpl in Hb. apply andb_true_iff in Hb as [Hnow Hb].
  rewrite forallb_forall in Hnow.
  pose proof (wrapper_lists elapsed_lt f max_calls time_window now args kwargs s) as H.
  cbn zeta in H. rewrite (live_all now (calls s)) in H
    by (intros t Ht; apply (Hin t now Ht); by left).
  case_bool_decide as Hfull; destruct H as [Hc Ha].
  - destruct (IH (limited now args kwargs s).2) as [IH1 IH2].
    + rewrite Hc. intros t u Ht Hu. apply Hin; [done|by right].
    + done.
    + by rewrite Hc, Ha.
    + split; [done|]. rewrite IH2, Hc.
      by replace (Z.to_nat max_calls - length (calls s))%nat with 0%nat by lia.
  - destruct (IH (limited now args kwargs s).2) as [IH1 IH2].
    + rewrite Hc. intros t u Ht Hu. apply elem_of_app in Ht as [Ht|Ht].
      * apply Hin; [done|by right].
      * apply list_elem_of_singleton in Ht as ->. by apply Hnow, list_elem_of_In.
    + done.
    + by rewrite Hc, Ha, Hs.
    + split; [done|]. rewrite IH2, Hc, length_app. cbn [length fmap list_fmap fst].
      destruct (Z.to_nat max_calls - length (calls s))%nat as [|room] eqn:Hroom; [lia|].
      replace (Z.to_nat max_calls - (length (calls s) + 1))%nat with room by lia.
      by rewrite <-(assoc_L (++)).
Qed.

End burst.
End BurstFacts.

(** ** [transfer_money] and [view_all_accounts] under their decorators *)

Module AccountsFacts.
Import Guards RateLimit Accounts.

Lemma validate_negative (args : positional) (z : Z) :
  Val (VInt z) ∈ args → (z < 0)%Z →
  validate args = Some (Val (VStr "Validation error: Negative values not allowed")).
Proof.
  intros Hin Hz. induction args as [|arg args IH]; [by apply elem_of_nil in Hin|].
  simpl. destruct (negative_number arg) eqn:Hneg; [done|].
  apply elem_of_cons in Hin as [<-|Hin]; [|by apply IH].
  simpl in Hneg. by rewrite bool_decide_eq_true_2 in Hneg.
Qed.

Lemma bind_user_positional (user : value) (args : positional) (kwargs : named) :
  "user" ∉ kwargs.*1 → bind_user (user :: args) kwargs = Return (user, args, kwargs).
Proof. intros Hk. simpl. by rewrite bool_decide_eq_false_2. Qed.

Section transfer.
Context {T : Type}.
Variable elapsed_lt : T → T → Z → bool.
Implicit Types (s : store T ()) (args : positional) (kwargs : named).

Local Abbreviation live now l :=
  (filter (λ call_time, elapsed_lt now call_time 10 = true) l).

(** The call of a user who is logged in, seen from the limiter. *)
Lemma transfer_money_logged_in now u args kwargs s :
  truthy (get_default "is_logged_in" (VBool false) u) = true →
  "user" ∉ kwargs.*1 →
  transfer_money elapsed_lt now (Dict u :: args) kwargs s
  = wrapper elapsed_lt 2 10
      (log_calls (validate_positive (stateless transfer_money_body))) now
      (Dict u :: args) kwargs s.
Proof.
  intros Hu Hk. unfold transfer_money, login_required.
  rewrite bind_user_positional by done. simpl. by rewrite Hu.
Qed.

Lemma transfer_money_denied now u args kwargs s :
  truthy (get_default "is_logged_in" (VBool false) u) = false →
  "user" ∉ kwargs.*1 →
  transfer_money elapsed_lt now (Dict u :: args) kwargs s
  = (Return (Val (VStr "Access denied: Authentication required")), s).
Proof.
  intros Hu Hk. unfold transfer_money, login_required.
  rewrite bind_user_positional by done. simpl. by rewrite Hu.
Qed.

Lemma transfer_money_limited now u args kwargs s :
  truthy (get_default "is_logged_in" (VBool false) u) = true →
  "user" ∉ kwargs.*1 →
  (2 ≤ length (live now (calls s)))%nat →
  transfer_money elapsed_lt now (Dict u :: args) kwargs s
  = (Return (Val (VStr "Rate limit exceeded: Too many requests")),
     set_calls (live now (calls s)) s).
Proof.
  intros Hu Hk Hfull. rewrite transfer_money_logged_in by done.
  unfold wrapper. by rewrite bool_decide_eq_true_2 by lia.
Qed.

Lemma transfer_money_invalid now u args kwargs s z :
  truthy (get_default "is_logged_in" (VBool false) u) = true →
  "user" ∉ kwargs.*1 →
  (length (live now (calls s)) < 2)%nat →
  Val (VInt z) ∈ args → (z < 0)%Z →
  transfer_money elapsed_lt now (Dict u :: args) kwargs s
  = (Return (Val (VStr "Validation error: Negative values not allowed")),
     record_passed now (set_calls (live now (calls s) ++ [now])%list s)).
Proof.
  intros Hu Hk Hroom Hin Hz. rewrite transfer_money_logged_in by done.
  unfold wrapper. rewrite bool_decide_eq_false_2 by lia.
  unfold log_calls, validate_positive. cbn [validate negative_number].
  by rewrite (validate_negative args z).
Qed.

Lemma transfer_money_by_keyword now u (amount to_account : value) s :
  truthy (get_default "is_logged_in" (VBool false) u) = true →
  (length (live now (calls s)) < 2)%nat →
  transfer_money elapsed_lt now [Dict u]
    [("amount", amount); ("to_account", to_account)] s
  = (Return (Val (VStr ("Transferred $" +:+ format amount
                        +:+ " to account " +:+ format to_account))),
     record_passed now (set_calls (live now (calls s) ++ [now])%list s)).
Proof.
  intros Hu Hroom. rewrite transfer_money_logged_in; [|done|].
  - unfold wrapper. rewrite bool_decide_eq_false_2 by lia. done.
  - by apply (bool_decide_unpack _).
Qed.

End transfer.

Lemma view_all_accounts_admin {State : Type} u (s : State) :
  truthy (get_default "is_admin" (VBool false) u) = true →
  view_all_accounts [Dict u] [] s
  = (Return (Val (VStr "Account data: [Account1, Account2, Account3]")), s).
Proof.
  intros Hu. unfold view_all_accounts, admin_required. simpl. by rewrite Hu.
Qed.

End AccountsFacts.

(** ** Calls that go wrong or go round the cache *)

Module MoreCacheFacts.
Import Decorator Text FibonacciFacts.

(** A call nested deeper than the interpreter allows, on an empty
    dictionary: every level is a miss, none returns. *)
Lemma fibonacci_overflow (depth : nat) (n : Z) (s : store unit) :
  (Z.of_nat depth < n)%Z → cache_value s = ∅ →
  fibonacci depth [VInt n] [] s
  = (Raise RecursionError,
     {| cache_value := ∅;
        invoked := invoked s ++ ((λ i : nat, ([VInt (n - Z.of_nat i)], [])) <$> seq 0 depth);
        world := world s |}).
Proof.
  revert n s. induction depth as [|depth IH]; intros n s Hd Hs.
  { simpl. unfold lift. rewrite app_nil_r. destruct s. simpl in Hs. by subst. }
  cbn [fibonacci]. unfold wrapper. rewrite Hs, lookup_empty, fibonacci_body_int.
  destruct (decide _) as [|_]; [lia|].
  rewrite (IH (n - 1)%Z) by (done || lia).
  cbn [record_call invoked world]. do 2 f_equal.
  rewrite <-(assoc_L (++)). f_equal. cbn [seq fmap list_fmap].
  rewrite Z.sub_0_r. f_equal. rewrite <-seq_shift, <-list_fmap_compose.
  apply list_fmap_ext. intros _ i _. simpl. do 3 f_equal. lia.
Qed.

(** The three ways of asking [process_large_file] for a read have three
    keys. *)
Lemma process_large_file_reads (filename : pyval) :
  plain filename = true →
  run (external process_large_file)
    [([filename], []); ([filename; VStr "read"], []);
     ([filename], [("operation", VStr "read")])] (fresh ())
  = (replicate 3 (Return (VStr ("Processed " +:+ str filename +:+ " with "
                                +:+ "read" +:+ " operation"))),
     {| cache_value :=
          <[cache_key [filename] [("operation", VStr "read")] :=
              VStr ("Processed " +:+ str filename +:+ " with " +:+ "read" +:+ " operation")]>
          (<[cache_key [filename; VStr "read"] [] :=
               VStr ("Processed " +:+ str filename +:+ " with " +:+ "read" +:+ " operation")]>
           (<[cache_key [filename] [] :=
                VStr ("Processed " +:+ str filename +:+ " with " +:+ "read" +:+ " operation")]>
              ∅));
        invoked := [([filename], []); ([filename; VStr "read"], []);
                    ([filename], [("operation", VStr "read")])];
        world := () |}).
Proof.
  intros Hp.
  assert (plain_call [filename] [] = true) as H1
    by (unfold plain_call; simpl; by rewrite Hp).
  assert (plain_call [filename; VStr "read"] [] = true) as H2
    by (unfold plain_call; simpl; by rewrite Hp).
  assert (plain_call [filename] [("operation", VStr "read")] = true) as H3
    by (unfold plain_call; simpl; by rewrite Hp).
  rewrite !DecoratorFacts.run_cons.
  rewrite (DecoratorFacts.wrapper_miss_return process_large_file [filename] [] (fresh ())
             (VStr ("Processed " +:+ str filename +:+ " with " +:+ "read" +:+ " operation"))
             ()) by done.
  cbn [fst snd].
  rewrite (DecoratorFacts.wrapper_miss_return process_large_file [filename; VStr "read"] [] _
             (VStr ("Processed " +:+ str filename +:+ " with " +:+ "read" +:+ " operation"))
             ()); [| |done].
  2:{ cbn [cache_value fresh]. rewrite lookup_insert_ne; [done|].
      apply KeyFacts.cache_key_plain_ne; [done..|]. left. congruence. }
  cbn [fst snd].
  rewrite (DecoratorFacts.wrapper_miss_return process_large_file [filename]
             [("operation", VStr "read")] _
             (VStr ("Processed " +:+ str filename +:+ " with " +:+ "read" +:+ " operation"))
             ()); [| |done].
  2:{ cbn [cache_value fresh].
      rewrite !lookup_insert_ne; [done| |].
      - apply KeyFacts.cache_key_plain_ne; [done..|]. right.
        intros Hperm. by apply Permutation_length in Hperm.
      - apply KeyFacts.cache_key_plain_ne; [done..|]. left. congruence. }
  done.
Qed.

End MoreCacheFacts.

(** * Further properties of the decorators *)

(** ** The two caches *)

(** X1: around a function of its arguments alone that does not depend
    on the order of its keywords, [decorator.py]'s cache is invisible on
    plain calls: every call of a sequence gives what the function itself
    gives. *)
Theorem X1_cache_is_transparent {W : Type} (g : arguments → keywords → outcome pyval)
    (calls : list (arguments * keywords)) (w : W) :
  (∀ a k k', k ≡ₚ k' → g a k = g a k') →
  Forall (λ c, Text.plain_call c.1 c.2 = true) calls →
  (Decorator.run (Decorator.external (pure g)) calls (Decorator.fresh w)).1
  = (λ c, g c.1 c.2) <$> calls.
Proof.
  intros Hg Hp. apply TransparencyFacts.faithful_run; [done| |done].
  intros a k v _. simpl. by rewrite lookup_empty.
Qed.

Lemma X1_cache_is_transparent_witness :
  (Decorator.run (Decorator.external (pure arity))
     [([VInt 1], [("x", VInt 2); ("y", VInt 3)]);
      ([VInt 1], [("y", VInt 3); ("x", VInt 2)]);
      ([VStr "a"; VInt 1], [])] (Decorator.fresh ())).1
  = (λ c, arity c.1 c.2)
      <$> [([VInt 1], [("x", VInt 2); ("y", VInt 3)]);
           ([VInt 1], [("y", VInt 3); ("x", VInt 2)]);
           ([VStr "a"; VInt 1], [])].
Proof.
  apply (X1_cache_is_transparent arity).
  - intros a k k' Hperm. unfold arity. by rewrite (Permutation_length Hperm).
  - repeat constructor.
Defined.

(** X2: what [wrapper.cache] holds after a sequence of calls on a new
    wrapper: under a key, the value some call with that key returned, and
    nothing else. *)
Theorem X2_cache_holds_what_calls_returned {W : Type}
    (f : arguments → keywords → W → outcome pyval * W)
    (calls : list (arguments * keywords)) (w : W) (key : string) (v : pyval) :
  Decorator.inspect (Decorator.run (Decorator.external f) calls (Decorator.fresh w)).2
    !! key = Some v
  ↔ ∃ i a k,
      calls !! i = Some (a, k) ∧ Decorator.cache_key a k = key
      ∧ (Decorator.run (Decorator.external f) calls (Decorator.fresh w)).1 !! i
        = Some (Return v).
Proof.
  unfold Decorator.inspect. rewrite ContentsFacts.run_entries. simpl.
  rewrite lookup_empty. split; [by intros [?|?]|by right].
Qed.

(** X3: a new wrapper of [decorator.py] never holds more entries than it
    made calls of the wrapped function, and never calls it more often
    than it is called itself. *)
Theorem X3_cache_entries_invocations_calls {W : Type}
    (f : arguments → keywords → W → outcome pyval * W)
    (calls : list (arguments * keywords)) (w : W) :
  let s := (Decorator.run (Decorator.external f) calls (Decorator.fresh w)).2 in
  (size (Decorator.inspect s) ≤ length (Decorator.invoked s))%nat
  ∧ (length (Decorator.invoked s) ≤ length calls)%nat.
Proof.
  destruct (ContentsFacts.run_counts f calls (Decorator.fresh w))
    as (ran & Hran & Hlog & Hsize & _).
  cbn zeta in *. unfold Decorator.inspect. simpl in Hlog, Hsize.
  rewrite map_size_empty in Hsize. lia.
Qed.

(** X4: when the wrapped function never raises, the dictionary has one
    entry for each call made of it: no call of the function is for a key
    already stored. *)
Theorem X4_one_entry_per_invocation {W : Type}
    (f : arguments → keywords → W → outcome pyval * W)
    (calls : list (arguments * keywords)) (w : W) :
  (∀ a k w0, ∃ v w', f a k w0 = (Return v, w')) →
  let s := (Decorator.run (Decorator.external f) calls (Decorator.fresh w)).2 in
  size (Decorator.inspect s) = length (Decorator.invoked s).
Proof.
  intros Hret.
  destruct (ContentsFacts.run_counts f calls (Decorator.fresh w))
    as (ran & Hran & Hlog & _ & Hsize).
  cbn zeta in *. unfold Decorator.inspect. rewrite (Hsize Hret), Hlog. simpl.
  by rewrite map_size_empty.
Qed.

Lemma X4_one_entry_per_invocation_witness :
  let s := (Decorator.run (Decorator.external (pure arity))
              [([VInt 1], []); ([VInt 2], []); ([VInt 1], [])] (Decorator.fresh ())).2 in
  size (Decorator.inspect s) = length (Decorator.invoked s).
Proof.
  apply (X4_one_entry_per_invocation (pure arity)).
  intros a k w0. by eexists _, _.
Defined.

(** X5: the first call [fibonacci(n)], [n] at least 2, on an empty
    dictionary calls the body once for each of [n], [n - 1], ..., 0, in
    that order, and leaves exactly the entries of 0 to [n]; any later
    call on one of these is answered from the dictionary. *)
Theorem X5_fibonacci_first_call (n depth : nat) (s : Decorator.store unit) :
  (2 ≤ n)%nat → (n < depth)%nat → Decorator.cache_value s = ∅ →
  let after :=
    {| Decorator.cache_value := fib_table n;
       Decorator.invoked := Decorator.invoked s ++ countdown n;
       Decorator.world := Decorator.world s |} in
  Decorator.fibonacci depth [VInt (Z.of_nat n)] [] s
  = (Return (VInt (fib_nat n)), after)
  ∧ ∀ (m : Z) (depth' : nat),
      (0 ≤ m ≤ Z.of_nat n)%Z →
      Decorator.fibonacci (S depth') [VInt m] [] after
      = (Return (VInt (fib_recurrence m)), after).
Proof.
  intros Hn Hd Hs after. split.
  - destruct n as [|[|n]]; [lia..|]. by apply ColdFacts.fibonacci_cold_step.
  - intros m depth' Hm. apply ColdFacts.fibonacci_hit. simpl.
    rewrite ColdFacts.fib_table_lookup. by destruct (decide _).
Qed.

Lemma X5_fibonacci_first_call_witness :
  let after :=
    {| Decorator.cache_value := fib_table 10;
       Decorator.invoked := Decorator.invoked (Decorator.fresh ()) ++ countdown 10;
       Decorator.world := Decorator.world (Decorator.fresh ()) |} in
  Decorator.fibonacci 11 [VInt (Z.of_nat 10)] [] (Decorator.fresh ())
  = (Return (VInt (fib_nat 10)), after)
  ∧ ∀ (m : Z) (depth' : nat),
      (0 ≤ m ≤ Z.of_nat 10)%Z →
      Decorator.fibonacci (S depth') [VInt m] [] after
      = (Return (VInt (fib_recurrence m)), after).
Proof.
  apply (X5_fibonacci_first_call 10 11 (Decorator.fresh ())); [lia|lia|reflexivity].
Defined.

(** X6: a first call [fibonacci(n)] that needs more nested calls than
    the interpreter allows raises [RecursionError] and leaves the
    dictionary empty, after calling the body once at each level. *)
Theorem X6_fibonacci_beyond_depth (depth : nat) (n : Z) (s : Decorator.store unit) :
  (Z.of_nat depth < n)%Z → Decorator.cache_value s = ∅ →
  Decorator.fibonacci depth [VInt n] [] s
  = (Raise RecursionError,
     {| Decorator.cache_value := ∅;
        Decorator.invoked :=
          Decorator.invoked s
          ++ ((λ i : nat, ([VInt (n - Z.of_nat i)], [])) <$> seq 0 depth);
        Decorator.world := Decorator.world s |}).
Proof. apply MoreCacheFacts.fibonacci_overflow. Qed.

Lemma X6_fibonacci_beyond_depth_witness :
  Decorator.fibonacci 3 [VInt 5] [] (Decorator.fresh ())
  = (Raise RecursionError,
     {| Decorator.cache_value := ∅;
        Decorator.invoked :=
          Decorator.invoked (Decorator.fresh ())
          ++ ((λ i : nat, ([VInt (5 - Z.of_nat i)], [])) <$> seq 0 3);
        Decorator.world := Decorator.world (Decorator.fresh ()) |}).
Proof.
  apply (X6_fibonacci_beyond_depth 3 5 (Decorator.fresh ())); [lia|reflexivity].
Defined.

(** X7: [process_large_file] asked for a read in its three ways, with the
    default, with ["read"] by position and with [operation="read"], gives
    the same text three times and runs three times: the key does not
    know the default. *)
Theorem X7_process_large_file_default_not_shared (filename : pyval) :
  Text.plain filename = true →
  let calls :=
    [([filename], []); ([filename; VStr "read"], []);
     ([filename], [("operation", VStr "read")])] in
  let after :=
    Decorator.run (Decorator.external Decorator.process_large_file) calls
      (Decorator.fresh ()) in
  after.1
  = replicate 3 (Return (VStr ("Processed " +:+ str filename +:+ " with "
                               +:+ "read" +:+ " operation")))
  ∧ Decorator.invoked after.2 = calls.
Proof.
  intros Hp calls after. unfold after, calls.
  by rewrite (MoreCacheFacts.process_large_file_reads filename Hp).
Qed.

Lemma X7_process_large_file_default_not_shared_witness :
  let calls :=
    [([VStr "data.txt"], []); ([VStr "data.txt"; VStr "read"], []);
     ([VStr "data.txt"], [("operation", VStr "read")])] in
  let after :=
    Decorator.run (Decorator.external Decorator.process_large_file) calls
      (Decorator.fresh ()) in
  after.1
  = replicate 3 (Return (VStr ("Processed " +:+ str (VStr "data.txt") +:+ " with "
                               +:+ "read" +:+ " operation")))
  ∧ Decorator.invoked after.2 = calls.
Proof.
  apply (X7_process_large_file_default_not_shared (VStr "data.txt")). reflexivity.
Defined.

(** X8: around a function of its positional arguments that gives equal
    arguments the same result, [03_decorator.py]'s cache is invisible on
    hashable positional calls, and every other call raises
    [TypeError]. *)
Theorem X8_cache03_is_transparent {W : Type} (g : arguments → keywords → outcome pyval)
    (calls : list (arguments * keywords)) (w : W) :
  (∀ a a', args_eq a a' = true → g a [] = g a' []) →
  (Decorator03.run (Decorator03.external (pure g)) calls (Decorator03.fresh w)).1
  = expected03 g <$> calls.
Proof.
  intros Hg. apply TransparencyFacts.faithful03_run; [done|].
  intros a v. simpl. done.
Qed.

Lemma X8_cache03_is_transparent_witness :
  (Decorator03.run (Decorator03.external (pure arity))
     [([VInt 1], []); ([VBool true], []); ([VList []], []); ([VInt 1], [("x", VInt 2)])]
     (Decorator03.fresh ())).1
  = expected03 arity
      <$> [([VInt 1], []); ([VBool true], []); ([VList []], []);
           ([VInt 1], [("x", VInt 2)])].
Proof.
  apply (X8_cache03_is_transparent arity).
  intros a a' Heq. unfold arity. apply py_eq_canon in Heq. simpl in Heq.
  injection Heq as Heq. apply (f_equal length) in Heq.
  rewrite !length_map in Heq. by rewrite Heq.
Defined.

(** ** [retry] *)

(** X9: with [max_attempts] zero or negative the loop has no turn: the
    wrapper returns [None] and the function is never called, whatever it
    is. *)
Theorem X9_retry_without_attempts {W : Type} (max_attempts delay : Z)
    (func : Guards.callable (Retry.store W))
    (args : Guards.positional) (kwargs : Guards.named) (s : Retry.store W) :
  (max_attempts ≤ 0)%Z →
  Retry.retry max_attempts delay func args kwargs s = (Return (Guards.Val VNone), s).
Proof.
  intros Hm. unfold Retry.retry. by rewrite RetryFacts.range_empty.
Qed.

Lemma X9_retry_without_attempts_witness :
  Retry.retry 0 1 (Retry.external down_twice) [] [] (Retry.fresh 0%nat)
  = (Return (Guards.Val VNone), Retry.fresh 0%nat).
Proof.
  apply (X9_retry_without_attempts 0 1 (Retry.external down_twice)). lia.
Defined.

(** X10: a function that fails [k] times and then returns, [k] less
    than [max_attempts]: the wrapper returns that value, having called
    the function [k + 1] times with the same arguments and slept [k]
    times in between. *)
Theorem X10_retry_returns_first_success {W : Type}
    (f : Guards.positional → Guards.named → W → outcome Guards.value * W)
    (max_attempts delay : Z) (args : Guards.positional) (kwargs : Guards.named)
    (k : nat) (s : Retry.store W) (es : list exn) (wk w' : W) (v : Guards.value) :
  (Z.of_nat k < max_attempts)%Z → (0 ≤ delay)%Z →
  Retry.failing f args kwargs k (Retry.world s) = Some (es, wk) →
  f args kwargs wk = (Return v, w') →
  Retry.retry max_attempts delay (Retry.external f) args kwargs s
  = (Return v,
     {| Retry.invoked := Retry.invoked s ++ replicate (S k) (args, kwargs);
        Retry.slept := Retry.slept s ++ replicate k delay;
        Retry.world := w' |}).
Proof. apply RetryFacts.retry_returns_after. Qed.

Lemma X10_retry_returns_first_success_witness :
  Retry.retry 3 1 (Retry.external down_twice) [] [] (Retry.fresh 0%nat)
  = (Return (Guards.Val (VStr "API call successful")),
     {| Retry.invoked := Retry.invoked (Retry.fresh 0%nat) ++ replicate 3 ([], []);
        Retry.slept := Retry.slept (Retry.fresh 0%nat) ++ replicate 2 1%Z;
        Retry.world := 3%nat |}).
Proof.
  apply (X10_retry_returns_first_success down_twice 3 1 [] [] 2 (Retry.fresh 0%nat)
           [OtherError "API temporarily unavailable";
            OtherError "API temporarily unavailable"] 2%nat);
    [lia|lia|reflexivity|reflexivity].
Defined.

(** X11: a function that fails at every one of the [max_attempts]
    attempts: the wrapper raises the exception of the last attempt,
    having called the function [max_attempts] times and slept one time
    less. *)
Theorem X11_retry_gives_up_with_last_exception {W : Type}
    (f : Guards.positional → Guards.named → W → outcome Guards.value * W)
    (max_attempts delay : Z) (args : Guards.positional) (kwargs : Guards.named)
    (n : nat) (s : Retry.store W) (es : list exn) (wn : W) :
  (1 ≤ max_attempts)%Z → n = Z.to_nat max_attempts → (0 ≤ delay)%Z →
  Retry.failing f args kwargs n (Retry.world s) = Some (es, wn) →
  ∃ e, last es = Some e
    ∧ Retry.retry max_attempts delay (Retry.external f) args kwargs s
      = (Raise e,
         {| Retry.invoked := Retry.invoked s ++ replicate n (args, kwargs);
            Retry.slept := Retry.slept s ++ replicate (n - 1) delay;
            Retry.world := wn |}).
Proof. apply RetryFacts.retry_gives_up. Qed.

Lemma X11_retry_gives_up_with_last_exception_witness :
  ∃ e, last [OtherError "failure 0"; OtherError "failure 1"; OtherError "failure 2"]
       = Some e
    ∧ Retry.retry 3 1 (Retry.external always_down) [] [] (Retry.fresh 0%nat)
      = (Raise e,
         {| Retry.invoked := Retry.invoked (Retry.fresh 0%nat) ++ replicate 3 ([], []);
            Retry.slept := Retry.slept (Retry.fresh 0%nat) ++ replicate (3 - 1) 1%Z;
            Retry.world := 3%nat |}).
Proof.
  apply (X11_retry_gives_up_with_last_exception always_down 3 1 [] [] 3
           (Retry.fresh 0%nat));
    [lia|reflexivity|lia|reflexivity].
Defined.

(** X12: with a negative [delay] and more than one attempt allowed, a
    first failure is the end: [time.sleep] raises [ValueError], which
    replaces the function's exception, and the function is not called
    again. *)
Theorem X12_retry_negative_delay {W : Type}
    (f : Guards.positional → Guards.named → W → outcome Guards.value * W)
    (max_attempts delay : Z) (args : Guards.positional) (kwargs : Guards.named)
    (s : Retry.store W) (e : exn) (w1 : W) :
  (2 ≤ max_attempts)%Z → (delay < 0)%Z →
  f args kwargs (Retry.world s) = (Raise e, w1) →
  Retry.retry max_attempts delay (Retry.external f) args kwargs s
  = (Raise Guards.ValueError,
     {| Retry.invoked := Retry.invoked s ++ [(args, kwargs)];
        Retry.slept := Retry.slept s;
        Retry.world := w1 |}).
Proof.
  intros Hm Hd Hf. unfold Retry.retry, Retry.range.
  rewrite seqZ_cons by lia. cbn [Retry.attempts]. unfold Retry.external.
  cbn [Retry.record_call Retry.world]. rewrite Hf.
  rewrite bool_decide_eq_false_2 by lia.
  unfold Retry.sleep. by rewrite bool_decide_eq_true_2 by lia.
Qed.

Lemma X12_retry_negative_delay_witness :
  Retry.retry 3 (-1) (Retry.external down_twice) [] [] (Retry.fresh 0%nat)
  = (Raise Guards.ValueError,
     {| Retry.invoked := Retry.invoked (Retry.fresh 0%nat) ++ [([], [])];
        Retry.slept := Retry.slept (Retry.fresh 0%nat);
        Retry.world := 1%nat |}).
Proof.
  apply (X12_retry_negative_delay down_twice 3 (-1) [] [] (Retry.fresh 0%nat)
           (OtherError "API temporarily unavailable") 1%nat);
    [lia|lia|reflexivity].
Defined.

(** X13: whatever the function does, the wrapper calls it at most
    [max_attempts] times, each time with the arguments it was given, and
    sleeps exactly once between two calls. *)
Theorem X13_retry_calls_and_sleeps {W : Type}
    (f : Guards.positional → Guards.named → W → outcome Guards.value * W)
    (max_attempts delay : Z) (args : Guards.positional) (kwargs : Guards.named)
    (s : Retry.store W) :
  ∃ (n : nat) o w,
    (Z.of_nat n ≤ Z.max 0 max_attempts)%Z
    ∧ Retry.retry max_attempts delay (Retry.external f) args kwargs s
      = (o, {| Retry.invoked := Retry.invoked s ++ replicate n (args, kwargs);
               Retry.slept := Retry.slept s ++ replicate (n - 1) delay;
               Retry.world := w |}).
Proof. apply RetryFacts.retry_count. Qed.

(** ** [rate_limit] *)

(** X14: the list of a new limiter never grows longer than [max_calls],
    whatever the clock reads and whatever the function does. *)
Theorem X14_rate_limit_list_is_bounded {T W : Type} (elapsed_lt : T → T → Z → bool)
    (f : Guards.positional → Guards.named → W → outcome Guards.value * W)
    (max_calls time_window : Z)
    (trace : list (T * Guards.positional * Guards.named)) (w : W) :
  (Z.of_nat
     (length
        (RateLimit.calls
           (RateLimit.run
              (RateLimit.wrapper elapsed_lt max_calls time_window (RateLimit.external f))
              trace (RateLimit.fresh w)).2))
   ≤ Z.max 0 max_calls)%Z.
Proof. apply RateLimitFacts.run_bound. simpl. lia. Qed.

(** X15: on a clock whose readings, once out of the window of a later
    reading, stay out of it, the limiter counts exactly the calls it let
    through that are still within the window: a call is refused when
    [max_calls] or more of them are, and let through otherwise. *)
Theorem X15_rate_limit_counts_the_window {T W : Type} (elapsed_lt : T → T → Z → bool)
    (f : Guards.positional → Guards.named → W → outcome Guards.value * W)
    (max_calls time_window : Z)
    (trace : list (T * Guards.positional * Guards.named)) (now : T)
    (args : Guards.positional) (kwargs : Guards.named) (w : W) :
  RateLimit.coherent elapsed_lt time_window (trace.*1.*1 ++ [now]) = true →
  let limited :=
    RateLimit.wrapper elapsed_lt max_calls time_window (RateLimit.external f) in
  let s := (RateLimit.run limited trace (RateLimit.fresh w)).2 in
  let recent :=
    filter (λ call_time, elapsed_lt now call_time time_window = true)
      (RateLimit.passed s) in
  limited now args kwargs s
  = if bool_decide (max_calls ≤ Z.of_nat (length recent))%Z
    then (Return (Guards.Val (VStr "Rate limit exceeded: Too many requests")),
          RateLimit.set_calls recent s)
    else RateLimit.external f args kwargs
           (RateLimit.record_passed now (RateLimit.set_calls (recent ++ [now]) s)).
Proof.
  intros Hco limited s recent.
  destruct (RateLimitFacts.tracks_run elapsed_lt f max_calls time_window trace [now]
              (RateLimit.fresh w) Hco (RateLimitFacts.tracks_fresh _ _ _ _))
    as (_ & _ & Hlive).
  subst recent s limited. unfold RateLimit.wrapper at 1.
  by rewrite (Hlive now ltac:(by left)).
Qed.

Lemma X15_rate_limit_counts_the_window_witness :
  let limited :=
    RateLimit.wrapper seconds_lt 2 10
      (RateLimit.external (λ args kwargs (w : ()), (Accounts.transfer_money_body args kwargs, w))) in
  let s := (RateLimit.run limited [(0%Z, [], []); (3%Z, [], []); (12%Z, [], [])]
              (RateLimit.fresh ())).2 in
  let recent :=
    filter (λ call_time, seconds_lt 14 call_time 10%Z = true) (RateLimit.passed s) in
  limited 14%Z [] [] s
  = if bool_decide (2 ≤ Z.of_nat (length recent))%Z
    then (Return (Guards.Val (VStr "Rate limit exceeded: Too many requests")),
          RateLimit.set_calls recent s)
    else RateLimit.external
           (λ args kwargs (w : ()), (Accounts.transfer_money_body args kwargs, w)) [] []
           (RateLimit.record_passed 14%Z (RateLimit.set_calls (recent ++ [14%Z]) s)).
Proof.
  apply (X15_rate_limit_counts_the_window seconds_lt
           (λ args kwargs (w : ()), (Accounts.transfer_money_body args kwargs, w))
           2 10 [(0%Z, [], []); (3%Z, [], []); (12%Z, [], [])] 14%Z [] [] ()).
  reflexivity.
Defined.

(** X16: of calls so close that each is within the window of all that
    follow, a new limiter lets through the first [max_calls] and no
    other. *)
Theorem X16_rate_limit_burst {T W : Type} (elapsed_lt : T → T → Z → bool)
    (f : Guards.positional → Guards.named → W → outcome Guards.value * W)
    (max_calls time_window : Z)
    (trace : list (T * Guards.positional * Guards.named)) (w : W) :
  RateLimit.burst elapsed_lt time_window trace.*1.*1 = true →
  RateLimit.passed
    (RateLimit.run
       (RateLimit.wrapper elapsed_lt max_calls time_window (RateLimit.external f))
       trace (RateLimit.fresh w)).2
  = take (Z.to_nat max_calls) trace.*1.*1.
Proof.
  intros Hb.
  destruct (BurstFacts.burst_run elapsed_lt f max_calls time_window trace
              (RateLimit.fresh w)) as [-> ->]; [|done..|].
  - intros t u Ht. by apply elem_of_nil in Ht.
  - simpl. by rewrite Nat.sub_0_r.
Qed.

Lemma X16_rate_limit_burst_witness :
  RateLimit.passed
    (RateLimit.run
       (RateLimit.wrapper seconds_lt 2 10
          (RateLimit.external
             (λ args kwargs (w : ()), (Accounts.transfer_money_body args kwargs, w))))
       [(0%Z, [], []); (1%Z, [], []); (2%Z, [], []); (3%Z, [], [])]
       (RateLimit.fresh ())).2
  = take (Z.to_nat 2)
      ([(0%Z, [], []); (1%Z, [], []); (2%Z, [], []); (3%Z, [], [])]
         : list (Z * Guards.positional * Guards.named)).*1.*1.
Proof.
  apply (X16_rate_limit_burst seconds_lt
           (λ args kwargs (w : ()), (Accounts.transfer_money_body args kwargs, w))
           2 10 [(0%Z, [], []); (1%Z, [], []); (2%Z, [], []); (3%Z, [], [])] ()).
  reflexivity.
Defined.

(** ** The account functions *)

(** X17: [transfer_money] called for a user record whose [is_logged_in]
    is missing or false answers with the refusal and leaves the limiter
    as it was: a refused user uses up none of the allowed calls. *)
Theorem X17_transfer_money_refusal_is_free {T : Type} (elapsed_lt : T → T → Z → bool)
    (now : T) (u : keywords) (args : Guards.positional) (kwargs : Guards.named)
    (s : RateLimit.store T ()) :
  Guards.truthy (Guards.get_default "is_logged_in" (VBool false) u) = false →
  "user" ∉ kwargs.*1 →
  Accounts.transfer_money elapsed_lt now (Guards.Dict u :: args) kwargs s
  = (Return (Guards.Val (VStr "Access denied: Authentication required")), s).
Proof. apply AccountsFacts.transfer_money_denied. Qed.

Lemma X17_transfer_money_refusal_is_free_witness :
  Accounts.transfer_money seconds_lt 0%Z
    [Guards.Dict [("name", VStr "Guest"); ("is_logged_in", VBool false);
                  ("is_admin", VBool false)];
     Guards.Val (VInt 100); Guards.Val (VStr "12345")] [] (RateLimit.fresh ())
  = (Return (Guards.Val (VStr "Access denied: Authentication required")),
     RateLimit.fresh ()).
Proof.
  apply (X17_transfer_money_refusal_is_free seconds_lt 0%Z); [reflexivity|].
  by apply (bool_decide_unpack _).
Defined.

(** X18: the limit comes before everything the function checks: for a
    logged-in user with two calls still within the window,
    [transfer_money] answers that the limit is exceeded whatever the
    other arguments are, valid or not, too many or too few. *)
Theorem X18_transfer_money_limit_comes_first {T : Type} (elapsed_lt : T → T → Z → bool)
    (now : T) (u : keywords) (args : Guards.positional) (kwargs : Guards.named)
    (s : RateLimit.store T ()) :
  Guards.truthy (Guards.get_default "is_logged_in" (VBool false) u) = true →
  "user" ∉ kwargs.*1 →
  (2 ≤ length (filter (λ call_time, elapsed_lt now call_time 10%Z = true)
                 (RateLimit.calls s)))%nat →
  Accounts.transfer_money elapsed_lt now (Guards.Dict u :: args) kwargs s
  = (Return (Guards.Val (VStr "Rate limit exceeded: Too many requests")),
     RateLimit.set_calls
       (filter (λ call_time, elapsed_lt now call_time 10%Z = true) (RateLimit.calls s)) s).
Proof. apply AccountsFacts.transfer_money_limited. Qed.

Lemma X18_transfer_money_limit_comes_first_witness :
  Accounts.transfer_money seconds_lt 5%Z
    [Guards.Dict [("name", VStr "Alice"); ("is_logged_in", VBool true);
                  ("is_admin", VBool false)];
     Guards.Val (VInt (-50)); Guards.Val (VStr "12345")] []
    (RateLimit.Store [1%Z; 2%Z] [1%Z; 2%Z] ())
  = (Return (Guards.Val (VStr "Rate limit exceeded: Too many requests")),
     RateLimit.set_calls
       (filter (λ call_time, seconds_lt 5%Z call_time 10%Z = true)
          (RateLimit.calls (RateLimit.Store [1%Z; 2%Z] [1%Z; 2%Z] ())))
       (RateLimit.Store [1%Z; 2%Z] [1%Z; 2%Z] ())).
Proof.
  apply (X18_transfer_money_limit_comes_first seconds_lt 5%Z); [reflexivity| |].
  - by apply (bool_decide_unpack _).
  - vm_compute. lia.
Defined.

(** X19: a negative [int] among the positional arguments of a logged-in
    user's call is answered with the validation error, and the call
    still takes one of the allowed calls. *)
Theorem X19_transfer_money_invalid_call_counts {T : Type} (elapsed_lt : T → T → Z → bool)
    (now : T) (u : keywords) (args : Guards.positional) (kwargs : Guards.named)
    (s : RateLimit.store T ()) (z : Z) :
  Guards.truthy (Guards.get_default "is_logged_in" (VBool false) u) = true →
  "user" ∉ kwargs.*1 →
  (length (filter (λ call_time, elapsed_lt now call_time 10%Z = true)
             (RateLimit.calls s)) < 2)%nat →
  Guards.Val (VInt z) ∈ args → (z < 0)%Z →
  Accounts.transfer_money elapsed_lt now (Guards.Dict u :: args) kwargs s
  = (Return (Guards.Val (VStr "Validation error: Negative values not allowed")),
     RateLimit.record_passed now
       (RateLimit.set_calls
          (filter (λ call_time, elapsed_lt now call_time 10%Z = true) (RateLimit.calls s)
           ++ [now]) s)).
Proof. apply AccountsFacts.transfer_money_invalid. Qed.

Lemma X19_transfer_money_invalid_call_counts_witness :
  Accounts.transfer_money seconds_lt 0%Z
    [Guards.Dict [("name", VStr "Alice"); ("is_logged_in", VBool true);
                  ("is_admin", VBool false)];
     Guards.Val (VInt (-50)); Guards.Val (VStr "12345")] [] (RateLimit.fresh ())
  = (Return (Guards.Val (VStr "Validation error: Negative values not allowed")),
     RateLimit.record_passed 0%Z
       (RateLimit.set_calls
          (filter (λ call_time, seconds_lt 0%Z call_time 10%Z = true)
             (RateLimit.calls (RateLimit.fresh ()))
           ++ [0%Z]) (RateLimit.fresh ()))).
Proof.
  apply (X19_transfer_money_invalid_call_counts seconds_lt 0%Z _ _ _ _ (-50));
    [reflexivity| | | |lia].
  - by apply (bool_decide_unpack _).
  - vm_compute. lia.
  - apply elem_of_cons. by left.
Defined.

(** X20: what is passed by keyword is not validated: a logged-in user's
    call with [amount] and [to_account] as keywords goes through with any
    amount, a negative one included. *)
Theorem X20_transfer_money_keywords_unchecked {T : Type} (elapsed_lt : T → T → Z → bool)
    (now : T) (u : keywords) (amount to_account : Guards.value)
    (s : RateLimit.store T ()) :
  Guards.truthy (Guards.get_default "is_logged_in" (VBool false) u) = true →
  (length (filter (λ call_time, elapsed_lt now call_time 10%Z = true)
             (RateLimit.calls s)) < 2)%nat →
  Accounts.transfer_money elapsed_lt now [Guards.Dict u]
    [("amount", amount); ("to_account", to_account)] s
  = (Return (Guards.Val (VStr ("Transferred $" +:+ Guards.format amount
                               +:+ " to account " +:+ Guards.format to_account))),
     RateLimit.record_passed now
       (RateLimit.set_calls
          (filter (λ call_time, elapsed_lt now call_time 10%Z = true) (RateLimit.calls s)
           ++ [now]) s)).
Proof. apply AccountsFacts.transfer_money_by_keyword. Qed.

Lemma X20_transfer_money_keywords_unchecked_witness :
  Accounts.transfer_money seconds_lt 0%Z
    [Guards.Dict [("name", VStr "Alice"); ("is_logged_in", VBool true);
                  ("is_admin", VBool false)]]
    [("amount", Guards.Val (VInt (-50))); ("to_account", Guards.Val (VStr "12345"))]
    (RateLimit.fresh ())
  = (Return (Guards.Val (VStr ("Transferred $" +:+ Guards.format (Guards.Val (VInt (-50)))
                               +:+ " to account "
                               +:+ Guards.format (Guards.Val (VStr "12345"))))),
     RateLimit.record_passed 0%Z
       (RateLimit.set_calls
          (filter (λ call_time, seconds_lt 0%Z call_time 10%Z = true)
             (RateLimit.calls (RateLimit.fresh ()))
           ++ [0%Z]) (RateLimit.fresh ()))).
Proof.
  apply (X20_transfer_money_keywords_unchecked seconds_lt 0%Z); [reflexivity|].
  vm_compute. lia.
Defined.

(** X21: [view_all_accounts] looks at [is_admin] alone: any user record
    in which it is true gets the account data, logged in or not. *)
Theorem X21_view_all_accounts_asks_for_admin_only {State : Type} (u : keywords)
    (s : State) :
  Guards.truthy (Guards.get_default "is_admin" (VBool false) u) = true →
  Accounts.view_all_accounts [Guards.Dict u] [] s
  = (Return (Guards.Val (VStr "Account data: [Account1, Account2, Account3]")), s).
Proof. apply AccountsFacts.view_all_accounts_admin. Qed.

Lemma X21_view_all_accounts_asks_for_admin_only_witness :
  Accounts.view_all_accounts
    [Guards.Dict [("name", VStr "Admin"); ("is_logged_in", VBool false);
                  ("is_admin", VBool true)]] [] ()
  = (Return (Guards.Val (VStr "Account data: [Account1, Account2, Account3]")), ()).
Proof.
  apply (X21_view_all_accounts_asks_for_admin_only
           [("name", VStr "Admin"); ("is_logged_in", VBool false);
            ("is_admin", VBool true)] ()).
  reflexivity.
Defined.
